(** * Flag-qubit syndrome extraction for the five-qubit code: Pauli-frame model

    A shallow embedding of [flag_qec_stabilizer/qec_flag_stabilizer_base.py]
    and [flag_qec_stabilizer/five_qubit_code_flag_protocol_stabilizer.py].

    - Binary vectors (numpy integer arrays holding 0/1) are [list bool];
      [np.logical_xor(a, b).astype(int)] is [np_logical_xor].
    - Probabilities and the values returned by [np.random.uniform()] are
      rationals.  The global random source is a function [draws : nat -> Q]
      together with the number of draws consumed so far.
    - Python exceptions are the [Raise] results of an error monad threaded
      through a state monad.
    - [fault_log] is ghost state: it records every fault that fires and is
      never read by the program. *)

From Stdlib Require Import QArith ZArith Lia.
From stdpp Require Import gmap strings list.

Local Open Scope nat_scope.

(** ** Exceptions and results *)

Inductive exn : Type :=
| AssertionError (msg : string)
| IndexError
| AttributeError
| TypeError
| ValueError.

Inductive res (A : Type) : Type :=
| Ok (a : A)
| Raise (e : exn).
Arguments Ok {A} a.
Arguments Raise {A} e.

(** ** Enumerations of the source *)

Inductive syn_ex_status : Type :=
| IDLE
| MEAS_GEN_WITH_FLAG
| MEAS_GEN_WITHOUT_FLAG
| DET_RAISED_FLAG
| DET_NONZERO_SYNDROME
| DET_UNRAISED_FLAG_AND_ZERO_SYNDROME.

Inductive error_model_enum : Type :=
| ONE_STOCHASTIC_PAULI_ERROR
| CODE_CAPACITY_NOISE
| CHAO_CKT_LVL_NOISE_WITHOUT_IDLING.

#[global] Instance syn_ex_status_eq_dec : EqDecision syn_ex_status.
Proof. solve_decision. Defined.
#[global] Instance error_model_enum_eq_dec : EqDecision error_model_enum.
Proof. solve_decision. Defined.

(** [error_spec]: a directed override.  [error_loc] may be [None]; the
    qubit indices are those the override names. *)
Record error_spec : Type := {
  inject_error : bool;
  error_loc : option nat;
  qubit_idx1 : nat;
  qubit_idx2 : nat;
  pauli_idx1 : nat;
  pauli_idx2 : nat
}.

(** ** Values held by the record attributes

    [current_syndrome_n_flag], [syndrome_n_flag_1st_subround] and
    [syndrome_2nd_subround] hold [None], a 1-D array of bits, a k-by-2 array
    whose rows are a (syndrome, flag) pair or the sentinel [[None None]], or
    (after canonicalisation) a string. *)
Inductive pyval : Type :=
| PyNone
| Arr1 (l : list bool)
| Arr2 (rows : list (option (bool * bool)))
| PyStr (s : string).

(** A two-level lookup table: keys are canonical record strings.  The value
    under an outer key is an inner table or, for a one-level table, the
    correction vector itself. *)
Inductive outer_value : Type :=
| Inner (t : gmap string (list bool))
| Terminal (c : list bool).

(** ** Ghost record of fired faults *)
Inductive fault : Type :=
| Fault1 (pauli_idx qubit_idx : nat)
| Fault2 (pauli_idx1 pauli_idx2 qubit_idx1 qubit_idx2 : nat)
| FaultMeas (qubit_idx : nat).

(** ** Configuration (attributes fixed by the constructors) *)
Record config : Type := {
  num_data_qubits : nat;
  num_anc_qubits : nat;
  num_flag_qubits : nat;
  error_model : error_model_enum;
  error_scale_factor_two_qubit_gate : Q;
  error_scale_factor_single_qubit_gate : Q;
  error_scale_factor_prep : Q;
  error_scale_factor_meas : Q;
  syndrome_lookup_table : gmap string outer_value;
  logical_ops : list (list Z)
}.

Definition num_all_qubits (cfg : config) : nat :=
  num_data_qubits cfg + num_anc_qubits cfg + num_flag_qubits cfg.

Definition data_qubits (cfg : config) : list nat := seq 0 (num_data_qubits cfg).
Definition anc_qubits (cfg : config) : list nat :=
  seq (num_data_qubits cfg) (num_anc_qubits cfg).
Definition flag_qubits (cfg : config) : list nat :=
  seq (num_data_qubits cfg + num_anc_qubits cfg) (num_flag_qubits cfg).

(** [qec_flag_stabilizer_base.__init__]: the scale factors follow from the
    error model. *)
Definition qec_flag_stabilizer_base_init
    (nd na nf : nat) (lut : gmap string outer_value) (ops : list (list Z))
    (em : error_model_enum) : config :=
  match em with
  | ONE_STOCHASTIC_PAULI_ERROR | CODE_CAPACITY_NOISE =>
      {| num_data_qubits := nd; num_anc_qubits := na; num_flag_qubits := nf;
         error_model := em;
         error_scale_factor_two_qubit_gate := 0;
         error_scale_factor_single_qubit_gate := 0;
         error_scale_factor_prep := 0;
         error_scale_factor_meas := 0;
         syndrome_lookup_table := lut; logical_ops := ops |}
  | CHAO_CKT_LVL_NOISE_WITHOUT_IDLING =>
      {| num_data_qubits := nd; num_anc_qubits := na; num_flag_qubits := nf;
         error_model := em;
         error_scale_factor_two_qubit_gate := 1;
         error_scale_factor_single_qubit_gate := 0;
         error_scale_factor_prep := 4 # 15;
         error_scale_factor_meas := 4 # 15;
         syndrome_lookup_table := lut; logical_ops := ops |}
  end.

(** ** Mutable state *)
Record store : Type := mkStore {
  pauli_accumulator : list bool;
  fault_log : list fault;
  syndrome_ex_status : syn_ex_status;
  current_syndrome_n_flag : pyval;
  syndrome_n_flag_1st_subround : pyval;
  syndrome_2nd_subround : pyval;
  logical_error_counts : list (option Z)
}.

Definition set_pauli_accumulator (a : list bool) (s : store) : store :=
  mkStore a (fault_log s) (syndrome_ex_status s) (current_syndrome_n_flag s)
    (syndrome_n_flag_1st_subround s) (syndrome_2nd_subround s)
    (logical_error_counts s).
Definition log_fault (f : fault) (s : store) : store :=
  mkStore (pauli_accumulator s) (fault_log s ++ [f]) (syndrome_ex_status s)
    (current_syndrome_n_flag s) (syndrome_n_flag_1st_subround s)
    (syndrome_2nd_subround s) (logical_error_counts s).
Definition set_syndrome_ex_status (x : syn_ex_status) (s : store) : store :=
  mkStore (pauli_accumulator s) (fault_log s) x (current_syndrome_n_flag s)
    (syndrome_n_flag_1st_subround s) (syndrome_2nd_subround s)
    (logical_error_counts s).
Definition set_current_syndrome_n_flag (x : pyval) (s : store) : store :=
  mkStore (pauli_accumulator s) (fault_log s) (syndrome_ex_status s) x
    (syndrome_n_flag_1st_subround s) (syndrome_2nd_subround s)
    (logical_error_counts s).
Definition set_syndrome_n_flag_1st_subround (x : pyval) (s : store) : store :=
  mkStore (pauli_accumulator s) (fault_log s) (syndrome_ex_status s)
    (current_syndrome_n_flag s) x (syndrome_2nd_subround s)
    (logical_error_counts s).
Definition set_syndrome_2nd_subround (x : pyval) (s : store) : store :=
  mkStore (pauli_accumulator s) (fault_log s) (syndrome_ex_status s)
    (current_syndrome_n_flag s) (syndrome_n_flag_1st_subround s) x
    (logical_error_counts s).
Definition set_logical_error_counts (x : list (option Z)) (s : store) : store :=
  mkStore (pauli_accumulator s) (fault_log s) (syndrome_ex_status s)
    (current_syndrome_n_flag s) (syndrome_n_flag_1st_subround s)
    (syndrome_2nd_subround s) x.

(** The world: number of random draws consumed, and the store. *)
Definition world : Type := nat * store.

(** ** The monad: state over errors *)
Definition M (A : Type) : Type := world -> res (A * world).

Definition ret {A} (a : A) : M A := fun w => Ok (a, w).
Definition bind {A B} (m : M A) (k : A -> M B) : M B :=
  fun w => match m w with
           | Ok (a, w') => k a w'
           | Raise e => Raise e
           end.
Definition raise {A} (e : exn) : M A := fun _ => Raise e.
Definition lift {A} (r : res A) : M A :=
  fun w => match r with Ok a => Ok (a, w) | Raise e => Raise e end.
Definition gets {A} (f : store -> A) : M A := fun w => Ok (f (snd w), w).
Definition modify (f : store -> store) : M unit :=
  fun w => Ok (tt, (fst w, f (snd w))).

Declare Scope monad_scope.
Notation "x <- m ;; k" := (bind m (fun x => k))
  (at level 20, m at level 99, k at level 200, only parsing) : monad_scope.
Notation "m ;; k" := (bind m (fun _ => k))
  (at level 100, k at level 200, right associativity, only parsing)
  : monad_scope.
Local Open Scope monad_scope.

(** ** numpy helpers *)

Definition zeros (n : nat) : list bool := replicate n false.

(** [a[i] = x] on an array; an index past the end raises. *)
Definition setitem {A} (l : list A) (i : nat) (x : A) : res (list A) :=
  if decide (i < length l) then Ok (<[i:=x]> l) else Raise IndexError.

(** [a[i]] on a list or array. *)
Definition getitem {A} (l : list A) (i : nat) : res A :=
  match l !! i with
  | Some x => Ok x
  | None => Raise IndexError
  end.

(** [np.logical_xor(a, b).astype(int)] on 1-D arrays, with numpy's
    broadcasting of a length-1 operand. *)
Definition np_logical_xor (a b : list bool) : res (list bool) :=
  if decide (length a = length b) then Ok (zip_with xorb a b)
  else match a, b with
       | [x], _ => Ok (map (xorb x) b)
       | _, [y] => Ok (map (fun x => xorb x y) a)
       | _, _ => Raise ValueError
       end.

(** [np.append(a, b, axis=0)]. *)
Definition np_append_axis0 (a b : pyval) : res pyval :=
  match a, b with
  | Arr2 r1, Arr2 r2 => Ok (Arr2 (r1 ++ r2))
  | Arr1 l1, Arr1 l2 => Ok (Arr1 (l1 ++ l2))
  | _, _ => Raise ValueError
  end.

(** [np.append(a, b)] as the source uses it: both operands are 1-D arrays
    of bits (any other shape is never passed). *)
Definition np_append (a b : pyval) : res pyval :=
  match a, b with
  | Arr1 l1, Arr1 l2 => Ok (Arr1 (l1 ++ l2))
  | _, _ => Raise TypeError
  end.

Definition bit_str (b : bool) : string := if b then "1" else "0".

Fixpoint join_sp (l : list string) : string :=
  match l with
  | [] => ""
  | [x] => x
  | x :: r => x +:+ " " +:+ join_sp r
  end.

Definition row_str (r : option (bool * bool)) : string :=
  match r with
  | Some (s, f) => "[" +:+ bit_str s +:+ " " +:+ bit_str f +:+ "]"
  | None => "[None None]"
  end.

(** [np.array2string(a).replace('\n', '')]: rows of a 2-D array are printed
    on separate lines, each continuation line indented by one blank, so
    that dropping the newlines leaves one blank between rows.  (A 1-D array
    of four bits has no newline.)  A value that is not an array is never
    passed by the source. *)
Definition array2string (v : pyval) : res string :=
  match v with
  | Arr1 l => Ok ("[" +:+ join_sp (map bit_str l) +:+ "]")
  | Arr2 rows => Ok ("[" +:+ join_sp (map row_str rows) +:+ "]")
  | _ => Raise TypeError
  end.

(** [u < p] on rationals. *)
Definition Qltb (x y : Q) : bool := negb (Qle_bool y x).

Section Engine.

Context (cfg : config) (draws : nat -> Q).

Local Abbreviation N := (num_all_qubits cfg).

(** [np.random.uniform()] *)
Definition uniform : M Q := fun w => Ok (draws (fst w), (S (fst w), snd w)).

(** [np.random.uniform() < p_err] *)
Definition fires (p_err : Q) : M bool :=
  u <- uniform ;; ret (Qltb u p_err).

(** [self.pauli_accumulator = np.logical_xor(self.pauli_accumulator, s).astype(int)] *)
Definition xor_into_accumulator (error_string : list bool) : M unit :=
  acc <- gets pauli_accumulator ;;
  acc' <- lift (np_logical_xor acc error_string) ;;
  modify (set_pauli_accumulator acc').

(** [self.pauli_accumulator[i] = b] *)
Definition assign_accumulator (i : nat) (b : bool) : M unit :=
  acc <- gets pauli_accumulator ;;
  acc' <- lift (setitem acc i b) ;;
  modify (set_pauli_accumulator acc').

Definition clear_pauli_accumulator : M unit :=
  modify (set_pauli_accumulator (zeros (2 * N))).

Definition single_qubit_X_error (qubit_idx : nat) (p_err : Q) : M unit :=
  b <- fires p_err ;;
  if b then
    error_string <- lift (setitem (zeros (2 * N)) qubit_idx true) ;;
    xor_into_accumulator error_string ;;
    modify (log_fault (Fault1 1 qubit_idx))
  else ret tt.

Definition single_qubit_Z_error (qubit_idx : nat) (p_err : Q) : M unit :=
  b <- fires p_err ;;
  if b then
    error_string <- lift (setitem (zeros (2 * N)) (qubit_idx + N) true) ;;
    xor_into_accumulator error_string ;;
    modify (log_fault (Fault1 3 qubit_idx))
  else ret tt.

Definition single_qubit_Y_error (qubit_idx : nat) (p_err : Q) : M unit :=
  b <- fires p_err ;;
  if b then
    error_string <- lift (setitem (zeros (2 * N)) qubit_idx true) ;;
    error_string <- lift (setitem error_string (qubit_idx + N) true) ;;
    xor_into_accumulator error_string ;;
    modify (log_fault (Fault1 2 qubit_idx))
  else ret tt.

(** The error string of a directed Pauli: 1 = X, 2 = Y, 3 = Z, anything
    else leaves the string zero. *)
Definition pauli_string (pauli_idx qubit_idx : nat) : res (list bool) :=
  let error_string := zeros (2 * N) in
  match pauli_idx with
  | 1 => setitem error_string qubit_idx true
  | 2 =>
      match setitem error_string qubit_idx true with
      | Ok e => setitem e (qubit_idx + N) true
      | Raise e => Raise e
      end
  | 3 => setitem error_string (qubit_idx + N) true
  | _ => Ok error_string
  end.

Definition single_qubit_pauli_error (pauli_idx qubit_idx : nat) : M unit :=
  error_string <- lift (pauli_string pauli_idx qubit_idx) ;;
  xor_into_accumulator error_string ;;
  modify (log_fault (Fault1 pauli_idx qubit_idx)).

(** The three-way choice on [dec]; the final [else: assert False] of the
    source cannot be reached by a number. *)
Definition depol_choice1 (dec : Q) : nat :=
  if Qltb dec (1 # 3) then 1
  else if Qltb dec (2 # 3) then 2
  else 3.

Definition single_qubit_depol_error (qubit_idx : nat) (p_err : Q) : M unit :=
  b <- fires p_err ;;
  if b then
    dec <- uniform ;;
    single_qubit_pauli_error (depol_choice1 dec) qubit_idx
  else ret tt.

(** [for n in range(self.num_data_qubits)] *)
Fixpoint one_stochastic_loop (qs : list nat) (p_err : Q) : M unit :=
  match qs with
  | [] => ret tt
  | q :: rest =>
      b <- fires p_err ;;
      (if b then
         dec <- uniform ;;
         single_qubit_pauli_error (depol_choice1 dec) q
       else ret tt) ;;
      one_stochastic_loop rest p_err
  end.

Definition one_stochastic_pauli_error_data_qubits (p_err : Q) : M unit :=
  one_stochastic_loop (data_qubits cfg) p_err.

Definition two_qubit_pauli_error
    (pauli_idx1 pauli_idx2 qubit_idx1 qubit_idx2 : nat) : M unit :=
  error_string1 <- lift (pauli_string pauli_idx1 qubit_idx1) ;;
  error_string2 <- lift (pauli_string pauli_idx2 qubit_idx2) ;;
  xor_into_accumulator error_string1 ;;
  xor_into_accumulator error_string2 ;;
  modify (log_fault (Fault2 pauli_idx1 pauli_idx2 qubit_idx1 qubit_idx2)).

(** The fifteen-way choice on [dec], in the order of the source. *)
Definition depol_choice2 (dec : Q) : nat * nat :=
  if Qltb dec (1 # 15) then (0, 1)
  else if Qltb dec (2 # 15) then (0, 2)
  else if Qltb dec (3 # 15) then (0, 3)
  else if Qltb dec (4 # 15) then (1, 0)
  else if Qltb dec (5 # 15) then (1, 1)
  else if Qltb dec (6 # 15) then (1, 2)
  else if Qltb dec (7 # 15) then (1, 3)
  else if Qltb dec (8 # 15) then (2, 0)
  else if Qltb dec (9 # 15) then (2, 1)
  else if Qltb dec (10 # 15) then (2, 2)
  else if Qltb dec (11 # 15) then (2, 3)
  else if Qltb dec (12 # 15) then (3, 0)
  else if Qltb dec (13 # 15) then (3, 1)
  else if Qltb dec (14 # 15) then (3, 2)
  else (3, 3).

Definition two_qubit_gate_depol_error
    (qubit_idx1 qubit_idx2 : nat) (p_err : Q) : M unit :=
  b <- fires p_err ;;
  if b then
    dec <- uniform ;;
    two_qubit_pauli_error (fst (depol_choice2 dec)) (snd (depol_choice2 dec))
      qubit_idx1 qubit_idx2
  else ret tt.

Definition two_qubit_gate_error
    (test_config : option error_spec) (loc : nat)
    (depol_err_qubit_idx1 depol_err_qubit_idx2 : nat) (p_err : Q) : M unit :=
  match test_config with
  | Some tc =>
      if inject_error tc && bool_decide (error_loc tc = Some loc) then
        two_qubit_pauli_error (pauli_idx1 tc) (pauli_idx2 tc)
          (qubit_idx1 tc) (qubit_idx2 tc)
      else ret tt
  | None =>
      two_qubit_gate_depol_error depol_err_qubit_idx1 depol_err_qubit_idx2 p_err
  end.

Definition prepare_Z_basis (qubit_idx : nat) (p_err : Q) : M unit :=
  assign_accumulator qubit_idx false ;;
  assign_accumulator (qubit_idx + N) false ;;
  single_qubit_X_error qubit_idx (error_scale_factor_prep cfg * p_err).

Definition prepare_X_basis (qubit_idx : nat) (p_err : Q) : M unit :=
  assign_accumulator qubit_idx false ;;
  assign_accumulator (qubit_idx + N) false ;;
  single_qubit_Z_error qubit_idx (error_scale_factor_prep cfg * p_err).

(** [for i in range(self.num_anc_qubits)] *)
Fixpoint reset_ancilla_loop (idxs : list nat) (p_err : Q) : M unit :=
  match idxs with
  | [] => ret tt
  | i :: rest =>
      assign_accumulator (num_data_qubits cfg + i) false ;;
      assign_accumulator (num_data_qubits cfg + i + N) false ;;
      single_qubit_X_error (num_data_qubits cfg + i)
        (error_scale_factor_prep cfg * p_err) ;;
      reset_ancilla_loop rest p_err
  end.

Definition reset_ancilla (p_err : Q) : M unit :=
  reset_ancilla_loop (seq 0 (num_anc_qubits cfg)) p_err.

(** [for i in range(self.num_flag_qubits)] *)
Fixpoint reset_flag_loop (idxs : list nat) (p_err : Q) : M unit :=
  match idxs with
  | [] => ret tt
  | i :: rest =>
      assign_accumulator (num_data_qubits cfg + num_anc_qubits cfg + i) false ;;
      assign_accumulator (num_data_qubits cfg + num_anc_qubits cfg + i + N) false ;;
      single_qubit_Z_error (num_data_qubits cfg + num_anc_qubits cfg + i)
        (error_scale_factor_prep cfg * p_err) ;;
      reset_flag_loop rest p_err
  end.

Definition reset_flag (p_err : Q) : M unit :=
  reset_flag_loop (seq 0 (num_flag_qubits cfg)) p_err.

(** [acc[q]] read from the accumulator. *)
Definition read_accumulator (i : nat) : M bool :=
  acc <- gets pauli_accumulator ;; lift (getitem acc i).

(** The tuple swap of [h]: both right-hand sides are read first, then the
    two items are assigned in turn. *)
Definition h (qubit_idx : nat) (p_err : Q)
    (test_config : option error_spec) (loc : nat) : M unit :=
  z <- read_accumulator (qubit_idx + N) ;;
  x <- read_accumulator qubit_idx ;;
  assign_accumulator qubit_idx z ;;
  assign_accumulator (qubit_idx + N) x ;;
  single_qubit_depol_error qubit_idx
    (error_scale_factor_single_qubit_gate cfg * p_err).

(** [if cond: error_string[i] = 1] *)
Definition set_if (cond : bool) (error_string : list bool) (i : nat)
    : res (list bool) :=
  if cond then setitem error_string i true else Ok error_string.

Definition cnot (control_idx target_idx : nat) (p_err : Q)
    (test_config : option error_spec) (loc : nat) : M unit :=
  xc <- read_accumulator control_idx ;;
  error_string1 <- lift (set_if xc (zeros (2 * N)) target_idx) ;;
  zt <- read_accumulator (target_idx + N) ;;
  error_string2 <- lift (set_if zt (zeros (2 * N)) (control_idx + N)) ;;
  xor_into_accumulator error_string1 ;;
  xor_into_accumulator error_string2 ;;
  two_qubit_gate_error None loc control_idx target_idx
    (error_scale_factor_two_qubit_gate cfg * p_err).

Definition xnot (oplus_idx1 oplus_idx2 : nat) (p_err : Q)
    (test_config : option error_spec) (loc : nat) : M unit :=
  z1 <- read_accumulator (oplus_idx1 + N) ;;
  error_string1 <- lift (set_if z1 (zeros (2 * N)) oplus_idx2) ;;
  z2 <- read_accumulator (oplus_idx2 + N) ;;
  error_string2 <- lift (set_if z2 (zeros (2 * N)) oplus_idx1) ;;
  xor_into_accumulator error_string1 ;;
  xor_into_accumulator error_string2 ;;
  two_qubit_gate_error None loc oplus_idx1 oplus_idx2
    (error_scale_factor_two_qubit_gate cfg * p_err).

Definition ynot (oplus_idx y_idx : nat) (p_err : Q)
    (test_config : option error_spec) (loc : nat) : M unit :=
  zo <- read_accumulator (oplus_idx + N) ;;
  error_string1 <-
    lift (if zo then
            match setitem (zeros (2 * N)) y_idx true with
            | Ok e => setitem e (y_idx + N) true
            | Raise e => Raise e
            end
          else Ok (zeros (2 * N))) ;;
  xy <- read_accumulator y_idx ;;
  error_string2 <- lift (set_if xy (zeros (2 * N)) oplus_idx) ;;
  zy <- read_accumulator (y_idx + N) ;;
  error_string3 <- lift (set_if zy (zeros (2 * N)) oplus_idx) ;;
  xor_into_accumulator error_string1 ;;
  xor_into_accumulator error_string2 ;;
  xor_into_accumulator error_string3 ;;
  two_qubit_gate_error None loc oplus_idx y_idx
    (error_scale_factor_two_qubit_gate cfg * p_err).

Definition cz (qubit_idx1 qubit_idx2 : nat) (p_err : Q)
    (test_config : option error_spec) (loc : nat) : M unit :=
  x1 <- read_accumulator qubit_idx1 ;;
  error_string1 <- lift (set_if x1 (zeros (2 * N)) (qubit_idx2 + N)) ;;
  x2 <- read_accumulator qubit_idx2 ;;
  error_string2 <- lift (set_if x2 (zeros (2 * N)) (qubit_idx1 + N)) ;;
  xor_into_accumulator error_string1 ;;
  xor_into_accumulator error_string2 ;;
  two_qubit_gate_error None loc qubit_idx1 qubit_idx2
    (error_scale_factor_two_qubit_gate cfg * p_err).

(** The reported bit is flipped when the measurement fault fires; the
    accumulator is only read. *)
Definition measure_Z_basis (qubit_idx : nat) (p_err : Q) : M bool :=
  meas_outcome <- read_accumulator qubit_idx ;;
  b <- fires (error_scale_factor_meas cfg * p_err) ;;
  if b then
    modify (log_fault (FaultMeas qubit_idx)) ;; ret (negb meas_outcome)
  else ret meas_outcome.

Definition measure_X_basis (qubit_idx : nat) (p_err : Q) : M bool :=
  meas_outcome <- read_accumulator (qubit_idx + N) ;;
  b <- fires (error_scale_factor_meas cfg * p_err) ;;
  if b then
    modify (log_fault (FaultMeas qubit_idx)) ;; ret (negb meas_outcome)
  else ret meas_outcome.

End Engine.

(** ** Calls of the engine, as data

    One constructor per method of [qec_flag_base_ckt_class]; every call
    receives the same rate [p_err]. *)
Inductive engine_call : Type :=
| Prepare_Z_basis (qubit_idx : nat)
| Prepare_X_basis (qubit_idx : nat)
| Reset_ancilla
| Reset_flag
| H (qubit_idx : nat) (test_config : option error_spec) (loc : nat)
| Cnot (control_idx target_idx : nat) (test_config : option error_spec) (loc : nat)
| Xnot (oplus_idx1 oplus_idx2 : nat) (test_config : option error_spec) (loc : nat)
| Ynot (oplus_idx y_idx : nat) (test_config : option error_spec) (loc : nat)
| Cz (qubit_idx1 qubit_idx2 : nat) (test_config : option error_spec) (loc : nat)
| Single_qubit_X_error (qubit_idx : nat)
| Single_qubit_Z_error (qubit_idx : nat)
| Single_qubit_Y_error (qubit_idx : nat)
| Single_qubit_pauli_error (pauli_idx qubit_idx : nat)
| Single_qubit_depol_error (qubit_idx : nat)
| One_stochastic_pauli_error_data_qubits
| Two_qubit_pauli_error (pauli_idx1 pauli_idx2 qubit_idx1 qubit_idx2 : nat)
| Two_qubit_gate_depol_error (qubit_idx1 qubit_idx2 : nat)
| Two_qubit_gate_error (test_config : option error_spec) (loc : nat)
    (qubit_idx1 qubit_idx2 : nat)
| Measure_Z_basis (qubit_idx : nat)
| Measure_X_basis (qubit_idx : nat).

(** Run one call; a measurement returns its reported bit. *)
Definition run_call (cfg : config) (draws : nat -> Q) (p_err : Q)
    (c : engine_call) : M (option bool) :=
  match c with
  | Prepare_Z_basis q => prepare_Z_basis cfg draws q p_err ;; ret None
  | Prepare_X_basis q => prepare_X_basis cfg draws q p_err ;; ret None
  | Reset_ancilla => reset_ancilla cfg draws p_err ;; ret None
  | Reset_flag => reset_flag cfg draws p_err ;; ret None
  | H q tc loc => h cfg draws q p_err tc loc ;; ret None
  | Cnot c t tc loc => cnot cfg draws c t p_err tc loc ;; ret None
  | Xnot a b tc loc => xnot cfg draws a b p_err tc loc ;; ret None
  | Ynot o y tc loc => ynot cfg draws o y p_err tc loc ;; ret None
  | Cz a b tc loc => cz cfg draws a b p_err tc loc ;; ret None
  | Single_qubit_X_error q => single_qubit_X_error cfg draws q p_err ;; ret None
  | Single_qubit_Z_error q => single_qubit_Z_error cfg draws q p_err ;; ret None
  | Single_qubit_Y_error q => single_qubit_Y_error cfg draws q p_err ;; ret None
  | Single_qubit_pauli_error i q => single_qubit_pauli_error cfg i q ;; ret None
  | Single_qubit_depol_error q =>
      single_qubit_depol_error cfg draws q p_err ;; ret None
  | One_stochastic_pauli_error_data_qubits =>
      one_stochastic_pauli_error_data_qubits cfg draws p_err ;; ret None
  | Two_qubit_pauli_error i1 i2 q1 q2 =>
      two_qubit_pauli_error cfg i1 i2 q1 q2 ;; ret None
  | Two_qubit_gate_depol_error q1 q2 =>
      two_qubit_gate_depol_error cfg draws q1 q2 p_err ;; ret None
  | Two_qubit_gate_error tc loc q1 q2 =>
      two_qubit_gate_error cfg draws tc loc q1 q2 p_err ;; ret None
  | Measure_Z_basis q =>
      b <- measure_Z_basis cfg draws q p_err ;; ret (Some b)
  | Measure_X_basis q =>
      b <- measure_X_basis cfg draws q p_err ;; ret (Some b)
  end.

(** Run a sequence of calls, collecting what they return. *)
Fixpoint run_calls (cfg : config) (draws : nat -> Q) (p_err : Q)
    (cs : list engine_call) : M (list (option bool)) :=
  match cs with
  | [] => ret []
  | c :: rest =>
      o <- run_call cfg draws p_err c ;;
      os <- run_calls cfg draws p_err rest ;;
      ret (o :: os)
  end.

(** ** The protocol of [five_qubit_code_flag_protocol] *)

(** Operands of the circuit fragments: [data_qubits[i]], [anc_qubits[0]],
    [flag_qubits[0]]. *)
Inductive qref : Type :=
| Data (i : nat)
| Anc0
| Flag0.

(** One line of a circuit fragment, with its location id. *)
Inductive gate : Type :=
| XNOT (a b : qref) (loc : nat)
| CNOT (c t : qref) (loc : nat).

Inductive generator : Type := G1 | G2 | G3 | G4.

(** The with-flag circuits, locations 1 to 24. *)
Definition flag_circuit (g : generator) : list gate :=
  match g with
  | G1 => [XNOT (Data 0) Anc0 1; CNOT Flag0 Anc0 2; CNOT (Data 1) Anc0 3;
           CNOT (Data 2) Anc0 4; CNOT Flag0 Anc0 5; XNOT (Data 3) Anc0 6]
  | G2 => [XNOT (Data 1) Anc0 7; CNOT Flag0 Anc0 8; CNOT (Data 2) Anc0 9;
           CNOT (Data 3) Anc0 10; CNOT Flag0 Anc0 11; XNOT (Data 4) Anc0 12]
  | G3 => [XNOT (Data 0) Anc0 13; CNOT Flag0 Anc0 14; XNOT (Data 2) Anc0 15;
           CNOT (Data 3) Anc0 16; CNOT Flag0 Anc0 17; CNOT (Data 4) Anc0 18]
  | G4 => [CNOT (Data 0) Anc0 19; CNOT Flag0 Anc0 20; XNOT (Data 1) Anc0 21;
           XNOT (Data 3) Anc0 22; CNOT Flag0 Anc0 23; CNOT (Data 4) Anc0 24]
  end.

(** The circuits without flag, locations 100 to 115. *)
Definition noflag_circuit (g : generator) : list gate :=
  match g with
  | G1 => [XNOT (Data 0) Anc0 100; CNOT (Data 1) Anc0 101;
           CNOT (Data 2) Anc0 102; XNOT (Data 3) Anc0 103]
  | G2 => [XNOT (Data 1) Anc0 104; CNOT (Data 2) Anc0 105;
           CNOT (Data 3) Anc0 106; XNOT (Data 4) Anc0 107]
  | G3 => [XNOT (Data 0) Anc0 108; XNOT (Data 2) Anc0 109;
           CNOT (Data 3) Anc0 110; CNOT (Data 4) Anc0 111]
  | G4 => [CNOT (Data 0) Anc0 112; XNOT (Data 1) Anc0 113;
           XNOT (Data 3) Anc0 114; CNOT (Data 4) Anc0 115]
  end.

Section Protocol.

Context (cfg : config) (draws : nat -> Q).

Local Abbreviation N := (num_all_qubits cfg).

Definition resolve (q : qref) : res nat :=
  match q with
  | Data i => getitem (data_qubits cfg) i
  | Anc0 => getitem (anc_qubits cfg) 0
  | Flag0 => getitem (flag_qubits cfg) 0
  end.

Definition apply_gate (g : gate) (p_err : Q) (test_config : option error_spec)
    : M unit :=
  match g with
  | XNOT a b loc =>
      qa <- lift (resolve a) ;;
      qb <- lift (resolve b) ;;
      xnot cfg draws qa qb p_err test_config loc
  | CNOT c t loc =>
      qc <- lift (resolve c) ;;
      qt <- lift (resolve t) ;;
      cnot cfg draws qc qt p_err test_config loc
  end.

Fixpoint apply_gates (gs : list gate) (p_err : Q)
    (test_config : option error_spec) : M unit :=
  match gs with
  | [] => ret tt
  | g :: rest => apply_gate g p_err test_config ;; apply_gates rest p_err test_config
  end.

Fixpoint for_each (qs : list nat) (body : nat -> M unit) : M unit :=
  match qs with
  | [] => ret tt
  | q :: rest => body q ;; for_each rest body
  end.

Definition init_state (p_err : Q) : M unit :=
  for_each (anc_qubits cfg) (fun i => prepare_Z_basis cfg draws i p_err) ;;
  for_each (flag_qubits cfg) (fun i => prepare_X_basis cfg draws i p_err).

Definition measure_ancilla_and_flag (with_flag : bool) (p_err : Q) : M unit :=
  if with_flag then
    a <- lift (getitem (anc_qubits cfg) 0) ;;
    syndrome <- measure_Z_basis cfg draws a p_err ;;
    f <- lift (getitem (flag_qubits cfg) 0) ;;
    flag <- measure_X_basis cfg draws f p_err ;;
    modify (set_current_syndrome_n_flag (Arr2 [Some (syndrome, flag)]))
  else
    a <- lift (getitem (anc_qubits cfg) 0) ;;
    syndrome <- measure_Z_basis cfg draws a p_err ;;
    modify (set_current_syndrome_n_flag (Arr1 [syndrome])).

(** [if self.error_model == CODE_CAPACITY_NOISE: ...] *)
Definition code_capacity_noise (p_err : Q) : M unit :=
  if decide (error_model cfg = CODE_CAPACITY_NOISE)
  then one_stochastic_pauli_error_data_qubits cfg draws p_err
  else ret tt.

(** One generator of the pass without flags: noise, four gates, the
    measurement, the record update, the ancilla reset. *)
Definition measure_generator_without_flag (g : generator) (p_err : Q)
    (test_config : option error_spec) : M unit :=
  code_capacity_noise p_err ;;
  apply_gates (noflag_circuit g) p_err test_config ;;
  measure_ancilla_and_flag false p_err ;;
  cur <- gets current_syndrome_n_flag ;;
  match g with
  | G1 => modify (set_syndrome_2nd_subround cur)
  | _ =>
      r <- gets syndrome_2nd_subround ;;
      r' <- lift (np_append r cur) ;;
      modify (set_syndrome_2nd_subround r')
  end ;;
  reset_ancilla cfg draws p_err.

Definition measure_full_syndrome_without_flags
    (test_config : option error_spec) (p_err : Q) : M unit :=
  s <- gets syndrome_ex_status ;;
  if decide (s = MEAS_GEN_WITHOUT_FLAG) then
    measure_generator_without_flag G1 p_err test_config ;;
    measure_generator_without_flag G2 p_err test_config ;;
    measure_generator_without_flag G3 p_err test_config ;;
    measure_generator_without_flag G4 p_err test_config
  else
    raise (AssertionError
      "Incorrect syndrome extraction status before measurement without flags.").

(** [self.current_syndrome_n_flag[0][k]] compared with 0 or 1; subscripting
    [None] is a TypeError, subscripting the scalar or the one-character
    string that [x[0]] yields is an IndexError. *)
Definition update_syn_ex_status : M unit :=
  cur <- gets current_syndrome_n_flag ;;
  match cur with
  | PyNone => raise TypeError
  | Arr1 _ | PyStr _ => raise IndexError
  | Arr2 [] => raise IndexError
  | Arr2 (None :: _) => ret tt
  | Arr2 (Some (syndrome, flag) :: _) =>
      if flag then modify (set_syndrome_ex_status DET_RAISED_FLAG)
      else if syndrome then modify (set_syndrome_ex_status DET_NONZERO_SYNDROME)
      else modify (set_syndrome_ex_status DET_UNRAISED_FLAG_AND_ZERO_SYNDROME)
  end.

(** One generator measured with the flag circuit: noise, six gates, both
    measurements, the record update, both resets. *)
Definition measure_generator_with_flag (g : generator) (p_err : Q)
    (test_config : option error_spec) : M unit :=
  match g with
  | G1 =>
      if decide (error_model cfg = ONE_STOCHASTIC_PAULI_ERROR
                 \/ error_model cfg = CODE_CAPACITY_NOISE)
      then one_stochastic_pauli_error_data_qubits cfg draws p_err
      else ret tt
  | _ => code_capacity_noise p_err
  end ;;
  apply_gates (flag_circuit g) p_err test_config ;;
  measure_ancilla_and_flag true p_err ;;
  cur <- gets current_syndrome_n_flag ;;
  match g with
  | G1 => modify (set_syndrome_n_flag_1st_subround cur)
  | _ =>
      r <- gets syndrome_n_flag_1st_subround ;;
      r' <- lift (np_append_axis0 r cur) ;;
      modify (set_syndrome_n_flag_1st_subround r')
  end ;;
  reset_ancilla cfg draws p_err ;;
  reset_flag cfg draws p_err.

Definition canonicalise_1st_subround : M unit :=
  r <- gets syndrome_n_flag_1st_subround ;;
  s <- lift (array2string r) ;;
  modify (set_syndrome_n_flag_1st_subround (PyStr s)).

Definition canonicalise_2nd_subround : M unit :=
  r <- gets syndrome_2nd_subround ;;
  s <- lift (array2string r) ;;
  modify (set_syndrome_2nd_subround (PyStr s)).

(** The body of each [if DET_RAISED_FLAG or DET_NONZERO_SYNDROME] branch:
    [pad] sentinel rows are appended (none after the fourth generator). *)
Definition remeasure_and_return (pad : nat) (test_config : option error_spec)
    (p_err : Q) : M unit :=
  match pad with
  | 0 => ret tt
  | _ =>
      r <- gets syndrome_n_flag_1st_subround ;;
      r' <- lift (np_append_axis0 r (Arr2 (replicate pad None))) ;;
      modify (set_syndrome_n_flag_1st_subround r')
  end ;;
  modify (set_syndrome_ex_status MEAS_GEN_WITHOUT_FLAG) ;;
  measure_full_syndrome_without_flags test_config p_err ;;
  modify (set_syndrome_ex_status IDLE) ;;
  canonicalise_1st_subround ;;
  canonicalise_2nd_subround.

Definition is_detected (s : syn_ex_status) : bool :=
  bool_decide (s = DET_RAISED_FLAG) || bool_decide (s = DET_NONZERO_SYNDROME).

(** The decision after the first, second and third generator. *)
Definition decide_after (pad : nat) (test_config : option error_spec)
    (p_err : Q) (next : M unit) : M unit :=
  update_syn_ex_status ;;
  s <- gets syndrome_ex_status ;;
  if is_detected s then remeasure_and_return pad test_config p_err
  else if decide (s = DET_UNRAISED_FLAG_AND_ZERO_SYNDROME) then
    modify (set_syndrome_ex_status MEAS_GEN_WITH_FLAG) ;; next
  else raise (AssertionError "Invalid syndrome_ex_status").

(** [if self.syndrome_ex_status == MEAS_GEN_WITH_FLAG: ...] *)
Definition guarded_generator (g : generator) (p_err : Q)
    (test_config : option error_spec) : M unit :=
  s <- gets syndrome_ex_status ;;
  if decide (s = MEAS_GEN_WITH_FLAG)
  then measure_generator_with_flag g p_err test_config
  else ret tt.

(** The decision after the fourth generator. *)
Definition decide_last (test_config : option error_spec) (p_err : Q) : M unit :=
  update_syn_ex_status ;;
  s <- gets syndrome_ex_status ;;
  if is_detected s then remeasure_and_return 0 test_config p_err
  else
    modify (set_syndrome_ex_status IDLE) ;;
    canonicalise_1st_subround ;;
    r2 <- gets syndrome_2nd_subround ;;
    match r2 with
    | PyNone => ret tt
    | _ => canonicalise_2nd_subround
    end.

(** The override at location 0 calls [self.two_qubit_pauli_error], a method
    that only the circuit object has. *)
Definition inject_at_location_0 (test_config : option error_spec) : M unit :=
  match test_config with
  | Some tc =>
      if inject_error tc && bool_decide (error_loc tc = Some 0)
      then raise AttributeError
      else ret tt
  | None => ret tt
  end.

Definition syndrome_extraction (test_config : option error_spec) (p_err : Q)
    : M unit :=
  s <- gets syndrome_ex_status ;;
  if decide (s = IDLE) then
    modify (set_syndrome_n_flag_1st_subround PyNone) ;;
    modify (set_syndrome_2nd_subround PyNone) ;;
    modify (set_current_syndrome_n_flag PyNone) ;;
    modify (set_syndrome_ex_status MEAS_GEN_WITH_FLAG) ;;
    inject_at_location_0 test_config ;;
    measure_generator_with_flag G1 p_err test_config ;;
    decide_after 3 test_config p_err (
      guarded_generator G2 p_err test_config ;;
      decide_after 2 test_config p_err (
        guarded_generator G3 p_err test_config ;;
        decide_after 1 test_config p_err (
          guarded_generator G4 p_err test_config ;;
          decide_last test_config p_err)))
  else
    raise (AssertionError
      "Syndrome extraction status should be IDLE at the beginning.").

(** A record used as a dictionary key: [None] and strings are hashable,
    arrays are not.  (When the decoder runs the records are [None] or
    strings.) *)
Definition record_key (v : pyval) : res (option string) :=
  match v with
  | PyNone => Ok None
  | PyStr s => Ok (Some s)
  | Arr1 _ | Arr2 _ => Raise TypeError
  end.

(** [key in table] for a dictionary keyed by strings. *)
Definition dict_get {V} (t : gmap string V) (k : option string) : option V :=
  match k with
  | Some s => t !! s
  | None => None
  end.

(** [record2 in value] followed by [value[record2]].  For an inner table
    this is the dictionary lookup.  For a correction vector stored directly
    under the outer key, [in] compares [None] or a string with the integer
    entries, which is never true. *)
Definition inner_get (v : outer_value) (k : option string) : option (list bool) :=
  match v with
  | Inner t => dict_get t k
  | Terminal _ => None
  end.

(** Zero entries for the ancilla and flag qubits are spliced in after each
    half of the correction. *)
Definition zero_extend (correction : list bool) : list bool :=
  take (num_data_qubits cfg) correction
  ++ zeros (num_anc_qubits cfg + num_flag_qubits cfg)
  ++ take (num_data_qubits cfg) (drop (num_data_qubits cfg) correction)
  ++ zeros (num_anc_qubits cfg + num_flag_qubits cfg).

Definition syndrome_decoding : M unit :=
  r1 <- gets syndrome_n_flag_1st_subround ;;
  k1 <- lift (record_key r1) ;;
  match dict_get (syndrome_lookup_table cfg) k1 with
  | None => ret tt
  | Some v =>
      r2 <- gets syndrome_2nd_subround ;;
      k2 <- lift (record_key r2) ;;
      match inner_get v k2 with
      | None => ret tt
      | Some correction =>
          xor_into_accumulator (zero_extend correction)
      end
  end.

(** [create_circuit]: a new circuit object, whose accumulator is zero.  The
    random source is global and is not reset. *)
Definition create_circuit : M unit :=
  modify (set_pauli_accumulator (zeros (2 * N))).

(** Row [k] of [L @ logical_ops.T] for [L = [[0, I], [I, 0]]]: the two
    halves of the operator swapped. *)
Definition swap_halves (op : list Z) : list Z :=
  drop (num_data_qubits cfg) op ++ take (num_data_qubits cfg) op.

Definition dot (a : list bool) (v : list Z) : Z :=
  foldr Z.add 0%Z (zip_with (fun b x => (Z.b2z b * x)%Z) a v).

(** [(np.matmul(a, np.matmul(L, np.transpose(logical_ops))) % 2).astype(int)]
    for [logical_ops] given by its rows; a shape mismatch raises. *)
Definition commutation_vector (a : list bool) : res (list Z) :=
  if forallb (fun op => length op =? 2 * num_data_qubits cfg) (logical_ops cfg)
     && (length a =? 2 * num_data_qubits cfg)
  then Ok (map (fun op => (dot a (swap_halves op) mod 2)%Z) (logical_ops cfg))
  else Raise ValueError.

(** [np.any(commutation)] *)
Definition np_any (v : list Z) : bool := existsb (fun x => negb (x =? 0)%Z) v.

(** [self.logical_error_counts[j] += 1] *)
Definition increment_count (j : nat) : M unit :=
  counts <- gets logical_error_counts ;;
  c <- lift (getitem counts j) ;;
  match c with
  | None => raise TypeError
  | Some n => modify (set_logical_error_counts (<[j := Some (n + 1)%Z]> counts))
  end.

(** The error-free cycle of [logical_error_tracking]; the source passes
    the rate -1. *)
Definition resynchronisation : M unit :=
  syndrome_extraction None (-1) ;;
  syndrome_decoding.

Definition logical_error_tracking (j : nat) : M unit :=
  pauli_accumulator_before_noiseless_qec <- gets pauli_accumulator ;;
  resynchronisation ;;
  acc <- gets pauli_accumulator ;;
  let pauli_accumulator_data_qubits :=
    take (num_data_qubits cfg) acc
    ++ take (num_data_qubits cfg) (drop N acc) in
  commutation <- lift (commutation_vector pauli_accumulator_data_qubits) ;;
  if np_any commutation then
    increment_count j ;;
    create_circuit
  else
    modify (set_pauli_accumulator pauli_accumulator_before_noiseless_qec).

Definition cleanup : M unit :=
  modify (set_syndrome_ex_status IDLE) ;;
  modify (set_current_syndrome_n_flag PyNone) ;;
  modify (set_syndrome_n_flag_1st_subround PyNone) ;;
  modify (set_syndrome_2nd_subround PyNone).

(** The body of the sampling loops, for rate [p] stored at index [j]. *)
Definition sample_round (j : nat) (p : Q) : M unit :=
  init_state p ;;
  syndrome_extraction None p ;;
  syndrome_decoding ;;
  logical_error_tracking j ;;
  cleanup.

End Protocol.

(** The store of a freshly constructed protocol object for [n] rates. *)
Definition fresh_store (cfg : config) (n : nat) : store :=
  mkStore (zeros (2 * num_all_qubits cfg)) [] IDLE PyNone PyNone PyNone
    (replicate n None).

(** ** The lookup tables of the five-qubit code

    Integer entries of the correction vectors are read as truth values, as
    [np.logical_xor] does. *)
Definition vec (l : list nat) : list bool := map (fun x => negb (x =? 0)) l.

(** The weight-1 corrections, keyed by the four syndrome bits. *)
Definition five_qubit_code_no_flag_LUT : gmap string (list bool) :=
  list_to_map [
    ("[0 0 0 1]", vec [1;0;0;0;0;0;0;0;0;0]);
    ("[1 0 0 0]", vec [0;1;0;0;0;0;0;0;0;0]);
    ("[1 1 0 0]", vec [0;0;1;0;0;0;0;0;0;0]);
    ("[0 1 1 0]", vec [0;0;0;1;0;0;0;0;0;0]);
    ("[0 0 1 1]", vec [0;0;0;0;1;0;0;0;0;0]);
    ("[1 0 1 0]", vec [0;0;0;0;0;1;0;0;0;0]);
    ("[0 1 0 1]", vec [0;0;0;0;0;0;1;0;0;0]);
    ("[0 0 1 0]", vec [0;0;0;0;0;0;0;1;0;0]);
    ("[1 0 0 1]", vec [0;0;0;0;0;0;0;0;1;0]);
    ("[0 1 0 0]", vec [0;0;0;0;0;0;0;0;0;1]);
    ("[1 0 1 1]", vec [1;0;0;0;0;1;0;0;0;0]);
    ("[1 1 0 1]", vec [0;1;0;0;0;0;1;0;0;0]);
    ("[1 1 1 0]", vec [0;0;1;0;0;0;0;1;0;0]);
    ("[1 1 1 1]", vec [0;0;0;1;0;0;0;0;1;0]);
    ("[0 1 1 1]", vec [0;0;0;0;1;0;0;0;0;1])].


(** The table with minimal-weight corrections (the default). *)
Definition five_qubit_code_flag_min_wt_LUT : gmap string outer_value :=
  list_to_map [
    ("[[0 1] [None None] [None None] [None None]]",
     Inner (list_to_map [
       ("[0 1 0 0]", vec [0;0;0;1;0;0;0;1;0;0]);
       ("[1 1 0 0]", vec [1;1;0;0;0;0;1;0;0;0]);
       ("[1 0 0 1]", vec [1;1;0;0;0;0;0;0;0;0]);
       ("[0 0 0 1]", vec [1;0;0;0;0;0;0;0;0;0]);
       ("[0 1 1 0]", vec [0;0;0;1;0;0;0;0;0;0]);
       ("[1 0 1 0]", vec [0;0;1;1;0;0;0;0;0;0]);
       ("[1 0 0 0]", vec [0;0;1;1;0;0;0;1;0;0])]));
    ("[[1 1] [None None] [None None] [None None]]",
     Inner (list_to_map [
       ("[0 1 0 0]", vec [0;0;0;1;0;0;0;1;0;0]);
       ("[1 1 0 0]", vec [1;1;0;0;0;0;1;0;0;0]);
       ("[1 0 0 1]", vec [1;1;0;0;0;0;0;0;0;0]);
       ("[0 0 0 1]", vec [1;0;0;0;0;0;0;0;0;0]);
       ("[0 1 1 0]", vec [0;0;0;1;0;0;0;0;0;0]);
       ("[1 0 1 0]", vec [0;0;1;1;0;0;0;0;0;0]);
       ("[1 0 0 0]", vec [0;0;1;1;0;0;0;1;0;0])]));
    ("[[1 0] [None None] [None None] [None None]]",
     Inner five_qubit_code_no_flag_LUT);
    ("[[0 0] [0 1] [None None] [None None]]",
     Inner (list_to_map [
       ("[1 0 1 0]", vec [0;0;0;0;1;0;0;0;1;0]);
       ("[0 1 1 0]", vec [1;0;0;0;1;0;0;0;0;1]);
       ("[0 1 0 0]", vec [0;1;1;0;0;0;0;0;0;0]);
       ("[1 0 0 0]", vec [0;1;0;0;0;0;0;0;0;0]);
       ("[0 0 1 1]", vec [0;0;0;0;1;0;0;0;0;0]);
       ("[0 1 0 1]", vec [0;0;0;1;1;0;0;0;0;0]);
       ("[1 1 0 0]", vec [0;0;0;1;1;0;0;0;1;0])]));
    ("[[0 0] [1 1] [None None] [None None]]",
     Inner (list_to_map [
       ("[1 0 1 0]", vec [0;0;0;0;1;0;0;0;1;0]);
       ("[0 1 1 0]", vec [1;0;0;0;1;0;0;0;0;1]);
       ("[0 1 0 0]", vec [0;1;1;0;0;0;0;0;0;0]);
       ("[1 0 0 0]", vec [0;1;0;0;0;0;0;0;0;0]);
       ("[0 0 1 1]", vec [0;0;0;0;1;0;0;0;0;0]);
       ("[0 1 0 1]", vec [0;0;0;1;1;0;0;0;0;0]);
       ("[1 1 0 0]", vec [0;0;0;1;1;0;0;0;1;0])]));
    ("[[0 0] [1 0] [None None] [None None]]",
     Inner five_qubit_code_no_flag_LUT);
    ("[[0 0] [0 0] [0 1] [None None]]",
     Inner (list_to_map [
       ("[1 1 0 1]", vec [0;0;0;0;0;0;0;0;1;1]);
       ("[0 0 0 1]", vec [1;0;0;0;0;0;0;0;0;0]);
       ("[0 0 1 1]", vec [1;0;0;0;0;0;0;1;0;0]);
       ("[1 1 1 1]", vec [0;1;0;0;1;0;0;0;0;1]);
       ("[0 1 0 0]", vec [0;0;0;0;0;0;0;0;0;1]);
       ("[0 0 1 0]", vec [0;0;0;1;0;0;0;0;0;1]);
       ("[1 0 1 1]", vec [0;0;0;1;0;0;0;0;1;1])]));
    ("[[0 0] [0 0] [1 1] [None None]]",
     Inner (list_to_map [
       ("[1 1 0 1]", vec [0;0;0;0;0;0;0;0;1;1]);
       ("[0 0 0 1]", vec [1;0;0;0;0;0;0;0;0;0]);
       ("[0 0 1 1]", vec [1;0;0;0;0;0;0;1;0;0]);
       ("[1 1 1 1]", vec [0;1;0;0;1;0;0;0;0;1]);
       ("[0 1 0 0]", vec [0;0;0;0;0;0;0;0;0;1]);
       ("[0 0 1 0]", vec [0;0;0;1;0;0;0;0;0;1]);
       ("[1 0 1 1]", vec [0;0;0;1;0;0;0;0;1;1])]));
    ("[[0 0] [0 0] [1 0] [None None]]",
     Inner five_qubit_code_no_flag_LUT);
    ("[[0 0] [0 0] [0 0] [0 1]]",
     Inner (list_to_map [
       ("[0 0 1 0]", vec [0;0;0;1;0;0;0;0;0;1]);
       ("[1 0 1 0]", vec [0;0;0;0;0;1;0;0;0;0]);
       ("[1 1 1 1]", vec [0;0;0;0;0;1;1;0;0;0]);
       ("[0 1 1 1]", vec [0;1;0;0;0;1;1;0;0;0]);
       ("[0 1 0 0]", vec [0;0;0;0;0;0;0;0;0;1]);
       ("[1 0 1 1]", vec [0;0;0;1;0;0;0;0;0;1]);
       ("[1 1 0 1]", vec [0;0;0;0;0;0;0;0;1;1])]));
    ("[[0 0] [0 0] [0 0] [1 1]]",
     Inner (list_to_map [
       ("[0 0 1 0]", vec [0;0;0;1;0;0;0;0;0;1]);
       ("[1 0 1 0]", vec [0;0;0;0;0;1;0;0;0;0]);
       ("[1 1 1 1]", vec [0;0;0;0;0;1;1;0;0;0]);
       ("[0 1 1 1]", vec [0;1;0;0;0;1;1;0;0;0]);
       ("[0 1 0 0]", vec [0;0;0;0;0;0;0;0;0;1]);
       ("[1 0 1 1]", vec [0;0;0;1;0;0;0;0;0;1]);
       ("[1 1 0 1]", vec [0;0;0;0;0;0;0;0;1;1])]));
    ("[[0 0] [0 0] [0 0] [1 0]]",
     Inner five_qubit_code_no_flag_LUT)].

(** [five_qubit_code_flag_protocol.__init__] with its default arguments
    for the qubit counts, the table and the logical operators. *)
Definition five_qubit_code_flag_protocol (em : error_model_enum) : config :=
  qec_flag_stabilizer_base_init 5 1 1 five_qubit_code_flag_min_wt_LUT
    [[1; 1; 1; 1; 1; 0; 0; 0; 0; 0]; [0; 0; 0; 0; 0; 1; 1; 1; 1; 1]]%Z em.

(** ** The distributed driver, [p_phys_sweep_simulation_mpi]

    Rates are kept abstract: [str] is Python's [str] on a rate.  The
    dictionary [results_per_batch_per_p_phys] is keyed by
    "rank_<k>_p_phys_idx_<j>", one key per pair (k, j); it is modelled by the
    list of its values in insertion order, which is the order in which the
    final loop visits them. *)

(** [batch_size] of the worker [my_rank] among [num_cores] workers. *)
Definition batch_size (samples_per_point : Z) (num_cores my_rank : nat) : Z :=
  let batch_size := (samples_per_point / Z.of_nat num_cores)%Z in
  let remainder := (samples_per_point mod Z.of_nat num_cores)%Z in
  if (Z.of_nat my_rank <? remainder)%Z then (batch_size + 1)%Z else batch_size.

Definition Zsum (l : list Z) : Z := foldr Z.add 0%Z l.

Section Driver.

Context {rate : Type} (str : rate -> string).

(** [local_result_dict] *)
Record local_result : Type := {
  rank : nat;
  p_phys : rate;
  result_batch_size : Z;
  result_logical_error_counts : Z
}.

(** The dictionary that worker [k] builds for the rate at index [j], when
    its sampling loop has counted [count k j] logical errors. *)
Definition local_result_dict (samples_per_point : Z) (num_cores : nat)
    (count : nat -> nat -> Z) (k j : nat) (p : rate) : local_result :=
  {| rank := k; p_phys := p;
     result_batch_size := batch_size samples_per_point num_cores k;
     result_logical_error_counts := count k j |}.

(** The values of [results_per_batch_per_p_phys] on the coordinator: its
    own entries, then, for each k from 1 and each j, the message received
    from worker k (messages of one sender arrive in the order sent). *)
Definition results_per_batch_per_p_phys (samples_per_point : Z)
    (num_cores : nat) (rates : list rate) (count : nat -> nat -> Z)
    : list local_result :=
  flat_map
    (fun k => imap (local_result_dict samples_per_point num_cores count k) rates)
    (seq 0 num_cores).

(** One iteration of [for r in self.results_per_batch_per_p_phys].  The key
    "total_samples" is present from the start. *)
Definition aggregate_step (complete_results : gmap string Z) (r : local_result)
    : gmap string Z :=
  let key := str (p_phys r) in
  let complete_results :=
    match complete_results !! key with
    | Some v => <[key := (v + result_logical_error_counts r)%Z]> complete_results
    | None => <[key := result_logical_error_counts r]> complete_results
    end in
  <["total_samples" :=
      (default 0%Z (complete_results !! "total_samples") + result_batch_size r)%Z]>
    complete_results.

Definition complete_results (samples_per_point : Z) (num_cores : nat)
    (rates : list rate) (count : nat -> nat -> Z) : gmap string Z :=
  foldl aggregate_step {["total_samples" := 0%Z]}
    (results_per_batch_per_p_phys samples_per_point num_cores rates count).

End Driver.

(** * Reasoning principles *)

(** ** Weakest preconditions

    [wp E m Q w]: running [m] from [w] either returns a value and a world
    satisfying [Q], or raises an exception allowed by [E]. *)
Definition wp {A} (E : exn -> Prop) (m : M A) (Q : A -> world -> Prop)
    (w : world) : Prop :=
  match m w with
  | Ok (a, w') => Q a w'
  | Raise e => E e
  end.

Definition no_exn : exn -> Prop := fun _ => False.
Definition any_exn : exn -> Prop := fun _ => True.

Lemma wp_ret {A} E (a : A) Q w : Q a w -> wp E (ret a) Q w.
Proof. done. Qed.

Lemma wp_bind {A B} E (m : M A) (k : A -> M B) Q w :
  wp E m (fun a w' => wp E (k a) Q w') w <-> wp E (bind m k) Q w.
Proof. unfold wp, bind. destruct (m w) as [[a w']|e]; done. Qed.

Lemma wp_mono {A} E (m : M A) (Q Q' : A -> world -> Prop) w :
  (forall a w', Q a w' -> Q' a w') -> wp E m Q w -> wp E m Q' w.
Proof. unfold wp. destruct (m w) as [[a w']|e]; auto. Qed.

Lemma wp_weaken_exn {A} (m : M A) Q w E : wp no_exn m Q w -> wp E m Q w.
Proof. unfold wp. destruct (m w) as [[a w']|e]; [done | intros []]. Qed.

Lemma wp_total {A} (m : M A) Q w :
  wp no_exn m Q w <-> exists a w', m w = Ok (a, w') /\ Q a w'.
Proof.
  unfold wp. destruct (m w) as [[a w']|e]; split.
  - eauto.
  - intros (a0 & w0 & Heq & HQ). by simplify_eq.
  - intros [].
  - intros (a0 & w0 & Heq & HQ). done.
Qed.

Lemma wp_ok {A} E (m : M A) Q w a w' : m w = Ok (a, w') -> Q a w' -> wp E m Q w.
Proof. unfold wp. by intros ->. Qed.

Lemma wp_ok_inv {A} E (m : M A) Q w a w' :
  m w = Ok (a, w') -> wp E m Q w -> Q a w'.
Proof. unfold wp. by intros ->. Qed.

(** ** Two-state specifications

    [spec E P I R m]: from a store satisfying the invariant [P], [m] returns
    a value satisfying [R] and a store that satisfies [P] again and is
    related to the initial one by the preorder [I]. *)
Class SpecRel (P : store -> Prop) (I : store -> store -> Prop) : Prop := {
  spec_rel_refl : forall s, P s -> I s s;
  spec_rel_trans : forall s1 s2 s3, I s1 s2 -> I s2 s3 -> I s1 s3
}.

Definition spec {A} (E : exn -> Prop) (P : store -> Prop)
    (I : store -> store -> Prop) (R : A -> Prop) (m : M A) : Prop :=
  forall w, P (snd w) ->
    wp E m (fun a w' => R a /\ P (snd w') /\ I (snd w) (snd w')) w.

Section Spec.

Context (E : exn -> Prop) (P : store -> Prop) (I : store -> store -> Prop).
Context `{!SpecRel P I}.

Lemma spec_ret {A} (R : A -> Prop) (a : A) : R a -> spec E P I R (ret a).
Proof. intros HR w HP. apply wp_ret. split_and!; [done..|by apply spec_rel_refl]. Qed.

Lemma spec_bind {A B} (R1 : A -> Prop) (R2 : B -> Prop) (m : M A) (k : A -> M B) :
  spec E P I R1 m -> (forall a, R1 a -> spec E P I R2 (k a)) ->
  spec E P I R2 (bind m k).
Proof.
  intros Hm Hk w HP. apply wp_bind. eapply wp_mono; [|by apply Hm].
  intros a w' (HR & HP' & HI). eapply wp_mono; [|by apply Hk].
  intros b w'' (HR' & HP'' & HI'). split_and!; [done..|].
  by eapply spec_rel_trans.
Qed.

Lemma spec_mono {A} (R R' : A -> Prop) (m : M A) :
  (forall a, R a -> R' a) -> spec E P I R m -> spec E P I R' m.
Proof.
  intros HRR Hm w HP. eapply wp_mono; [|by apply Hm].
  intros a w' (? & ? & ?). auto.
Qed.

Lemma spec_gets {A} (f : store -> A) : spec E P I (fun _ => True) (gets f).
Proof. intros w HP. unfold wp, gets. split_and!; [done..|by apply spec_rel_refl]. Qed.

Lemma spec_lift {A} (R : A -> Prop) (r : res A) :
  match r with Ok a => R a | Raise e => E e end -> spec E P I R (lift r).
Proof.
  intros Hr w HP. unfold wp, lift.
  destruct r; [split_and!; [done..|by apply spec_rel_refl] | done].
Qed.

Lemma spec_raise {A} (R : A -> Prop) e : E e -> spec E P I R (raise e).
Proof. intros He w HP. done. Qed.

Lemma spec_modify (f : store -> store) :
  (forall s, P s -> P (f s) /\ I s (f s)) ->
  spec E P I (fun _ => True) (modify f).
Proof.
  intros Hf w HP. unfold wp, modify. simpl. destruct (Hf _ HP). auto.
Qed.

Lemma spec_uniform draws : spec E P I (fun _ => True) (uniform draws).
Proof.
  intros w HP. unfold wp, uniform. simpl.
  split_and!; [done..|by apply spec_rel_refl].
Qed.

Lemma spec_fires draws p : spec E P I (fun _ => True) (fires draws p).
Proof.
  eapply spec_bind; [apply spec_uniform|]. intros u _. by apply spec_ret.
Qed.

End Spec.

(** ** Fault-free thresholds *)

Definition nonneg_draws (draws : nat -> Q) : Prop := forall n, (0 <= draws n)%Q.

Lemma Qltb_nonpos u thr : (0 <= u)%Q -> (thr <= 0)%Q -> Qltb u thr = false.
Proof.
  intros Hu Ht. unfold Qltb.
  assert (Qle_bool thr u = true) as ->; [|done].
  apply Qle_bool_iff. by eapply Qle_trans.
Qed.

Lemma fires_nonpos draws thr w :
  nonneg_draws draws -> (thr <= 0)%Q ->
  fires draws thr w = Ok (false, (S (fst w), snd w)).
Proof.
  intros Hd Ht. unfold fires, bind, uniform, ret. by rewrite Qltb_nonpos.
Qed.

(** No threshold the engine computes from [p] is positive. *)
Definition noiseless (cfg : config) (p : Q) : Prop :=
  (p <= 0)%Q
  /\ (error_scale_factor_prep cfg * p <= 0)%Q
  /\ (error_scale_factor_meas cfg * p <= 0)%Q
  /\ (error_scale_factor_two_qubit_gate cfg * p <= 0)%Q
  /\ (error_scale_factor_single_qubit_gate cfg * p <= 0)%Q.

Lemma noiseless_zero cfg : noiseless cfg 0.
Proof. unfold noiseless. rewrite !Qmult_0_r. repeat split; apply Qle_refl. Qed.

(** The scale factors set by the constructor are not negative, so the rate
    -1 used by the resynchronisation is fault-free as well. *)
Lemma noiseless_minus_one nd na nf lut ops em :
  noiseless (qec_flag_stabilizer_base_init nd na nf lut ops em) (-1).
Proof. destruct em; repeat split; done. Qed.

(** ** Runs that inject no fault

    [quiet R m]: whenever [m] returns, the value satisfies [R] and the ghost
    fault log is the one [m] started with. *)
Definition same_log (s s' : store) : Prop := fault_log s' = fault_log s.

#[global] Instance same_log_rel : SpecRel (fun _ => True) same_log.
Proof. split; unfold same_log; [done | congruence]. Qed.

Definition quiet {A} (R : A -> Prop) (m : M A) : Prop :=
  spec any_exn (fun _ => True) same_log R m.

Lemma quiet_ret {A} (R : A -> Prop) (a : A) : R a -> quiet R (ret a).
Proof. apply (spec_ret any_exn _ same_log). Qed.

Lemma quiet_bind {A B} (R1 : A -> Prop) (R2 : B -> Prop) (m : M A) (k : A -> M B) :
  quiet R1 m -> (forall a, R1 a -> quiet R2 (k a)) -> quiet R2 (bind m k).
Proof. apply (spec_bind any_exn _ same_log). Qed.

Lemma quiet_ret_any {A} (a : A) : quiet (fun _ => True) (ret a).
Proof. by apply quiet_ret. Qed.

Lemma quiet_gets {A} (f : store -> A) : quiet (fun _ => True) (gets f).
Proof. apply (spec_gets any_exn _ same_log). Qed.

Lemma quiet_raise {A} (R : A -> Prop) e : quiet R (raise e).
Proof. by apply (spec_raise any_exn _ same_log). Qed.

Lemma quiet_lift {A} (r : res A) : quiet (fun _ => True) (lift r).
Proof. apply (spec_lift any_exn _ same_log). by destruct r. Qed.

Lemma quiet_modify f :
  (forall s, fault_log (f s) = fault_log s) -> quiet (fun _ => True) (modify f).
Proof.
  intros Hf. apply (spec_modify any_exn _ same_log).
  intros s _. split; [done | apply Hf].
Qed.

Lemma quiet_uniform draws : quiet (fun _ => True) (uniform draws).
Proof. apply (spec_uniform any_exn _ same_log). Qed.

Lemma quiet_fires draws thr :
  nonneg_draws draws -> (thr <= 0)%Q -> quiet (fun b => b = false) (fires draws thr).
Proof.
  intros Hd Ht w _. unfold wp. rewrite fires_nonpos by done. done.
Qed.

Create HintDb quiet discriminated.

#[local] Hint Resolve quiet_lift quiet_fires quiet_gets quiet_raise
  quiet_ret_any : quiet.
#[local] Hint Extern 1 (quiet _ (ret _)) => apply quiet_ret; done : quiet.
#[local] Hint Extern 1 (quiet _ (modify _)) => apply quiet_modify; done : quiet.

(** Walk through a computation, discharging its atomic steps from the
    hint database. *)
Ltac quiet_go :=
  lazymatch goal with
  | |- quiet _ (bind _ _) =>
      eapply quiet_bind; [ quiet_go | intros ? ?; simplify_eq/=; quiet_go ]
  | |- quiet _ (if ?b then _ else _) => destruct b; quiet_go
  | |- quiet _ (match ?x with _ => _ end) => destruct x; quiet_go
  | |- quiet _ _ => solve [eauto with quiet]
  end.

Lemma noiseless_p cfg p : noiseless cfg p -> (p <= 0)%Q.
Proof. by intros (? & ? & ? & ? & ?). Qed.
Lemma noiseless_prep cfg p :
  noiseless cfg p -> (error_scale_factor_prep cfg * p <= 0)%Q.
Proof. by intros (? & ? & ? & ? & ?). Qed.
Lemma noiseless_meas cfg p :
  noiseless cfg p -> (error_scale_factor_meas cfg * p <= 0)%Q.
Proof. by intros (? & ? & ? & ? & ?). Qed.
Lemma noiseless_two_qubit_gate cfg p :
  noiseless cfg p -> (error_scale_factor_two_qubit_gate cfg * p <= 0)%Q.
Proof. by intros (? & ? & ? & ? & ?). Qed.
Lemma noiseless_single_qubit_gate cfg p :
  noiseless cfg p -> (error_scale_factor_single_qubit_gate cfg * p <= 0)%Q.
Proof. by intros (? & ? & ? & ? & ?). Qed.

Create HintDb noiseless discriminated.
#[local] Hint Resolve noiseless_p noiseless_prep noiseless_meas
  noiseless_two_qubit_gate noiseless_single_qubit_gate : quiet noiseless.

Section QuietEngine.

Context (cfg : config) (draws : nat -> Q) (p : Q).
Hypothesis Hdraws : nonneg_draws draws.

Lemma quiet_xor_into_accumulator e :
  quiet (fun _ => True) (xor_into_accumulator e).
Proof. unfold xor_into_accumulator. quiet_go. Qed.

Lemma quiet_assign_accumulator i b :
  quiet (fun _ => True) (assign_accumulator i b).
Proof. unfold assign_accumulator. quiet_go. Qed.

Lemma quiet_read_accumulator i : quiet (fun _ => True) (read_accumulator i).
Proof. unfold read_accumulator. quiet_go. Qed.

#[local] Hint Resolve quiet_xor_into_accumulator quiet_assign_accumulator
  quiet_read_accumulator : quiet.

Lemma quiet_single_qubit_X_error q thr :
  (thr <= 0)%Q -> quiet (fun _ => True) (single_qubit_X_error cfg draws q thr).
Proof. intros Ht. unfold single_qubit_X_error. quiet_go. Qed.

Lemma quiet_single_qubit_Z_error q thr :
  (thr <= 0)%Q -> quiet (fun _ => True) (single_qubit_Z_error cfg draws q thr).
Proof. intros Ht. unfold single_qubit_Z_error. quiet_go. Qed.

Lemma quiet_single_qubit_Y_error q thr :
  (thr <= 0)%Q -> quiet (fun _ => True) (single_qubit_Y_error cfg draws q thr).
Proof. intros Ht. unfold single_qubit_Y_error. quiet_go. Qed.

Lemma quiet_single_qubit_depol_error q thr :
  (thr <= 0)%Q ->
  quiet (fun _ => True) (single_qubit_depol_error cfg draws q thr).
Proof. intros Ht. unfold single_qubit_depol_error. quiet_go. Qed.

Lemma quiet_one_stochastic_loop qs thr :
  (thr <= 0)%Q -> quiet (fun _ => True) (one_stochastic_loop cfg draws qs thr).
Proof. intros Ht. induction qs as [|q qs IH]; simpl; quiet_go. Qed.

Lemma quiet_two_qubit_gate_depol_error q1 q2 thr :
  (thr <= 0)%Q ->
  quiet (fun _ => True) (two_qubit_gate_depol_error cfg draws q1 q2 thr).
Proof. intros Ht. unfold two_qubit_gate_depol_error. quiet_go. Qed.

#[local] Hint Resolve quiet_single_qubit_X_error quiet_single_qubit_Z_error
  quiet_single_qubit_depol_error quiet_one_stochastic_loop
  quiet_two_qubit_gate_depol_error : quiet.

Hypothesis Hp : noiseless cfg p.

Lemma quiet_one_stochastic_pauli_error_data_qubits :
  quiet (fun _ => True) (one_stochastic_pauli_error_data_qubits cfg draws p).
Proof. unfold one_stochastic_pauli_error_data_qubits. quiet_go. Qed.

Lemma quiet_prepare_Z_basis q :
  quiet (fun _ => True) (prepare_Z_basis cfg draws q p).
Proof. unfold prepare_Z_basis. quiet_go. Qed.

Lemma quiet_prepare_X_basis q :
  quiet (fun _ => True) (prepare_X_basis cfg draws q p).
Proof. unfold prepare_X_basis. quiet_go. Qed.

Lemma quiet_reset_ancilla : quiet (fun _ => True) (reset_ancilla cfg draws p).
Proof.
  unfold reset_ancilla. induction (seq 0 (num_anc_qubits cfg)); simpl; quiet_go.
Qed.

Lemma quiet_reset_flag : quiet (fun _ => True) (reset_flag cfg draws p).
Proof.
  unfold reset_flag. induction (seq 0 (num_flag_qubits cfg)); simpl; quiet_go.
Qed.

Lemma quiet_h q tc loc : quiet (fun _ => True) (h cfg draws q p tc loc).
Proof. unfold h. quiet_go. Qed.

Lemma quiet_cnot c t tc loc : quiet (fun _ => True) (cnot cfg draws c t p tc loc).
Proof. unfold cnot, two_qubit_gate_error. quiet_go. Qed.

Lemma quiet_xnot a b tc loc : quiet (fun _ => True) (xnot cfg draws a b p tc loc).
Proof. unfold xnot, two_qubit_gate_error. quiet_go. Qed.

Lemma quiet_ynot a b tc loc : quiet (fun _ => True) (ynot cfg draws a b p tc loc).
Proof. unfold ynot, two_qubit_gate_error. quiet_go. Qed.

Lemma quiet_cz a b tc loc : quiet (fun _ => True) (cz cfg draws a b p tc loc).
Proof. unfold cz, two_qubit_gate_error. quiet_go. Qed.

Lemma quiet_measure_Z_basis q :
  quiet (fun _ => True) (measure_Z_basis cfg draws q p).
Proof. unfold measure_Z_basis. quiet_go. Qed.

Lemma quiet_measure_X_basis q :
  quiet (fun _ => True) (measure_X_basis cfg draws q p).
Proof. unfold measure_X_basis. quiet_go. Qed.

End QuietEngine.

(** ** Two runs on different random draws

    [rel R m1 m2]: started from the same store (and any two positions in
    the random sources), [m1] and [m2] raise the same exception or return
    the same value, satisfying [R], and the same store. *)
Definition rel {A} (R : A -> Prop) (m1 m2 : M A) : Prop :=
  forall n1 n2 s,
    match m1 (n1, s), m2 (n2, s) with
    | Ok (a1, w1), Ok (a2, w2) => a1 = a2 /\ snd w1 = snd w2 /\ R a1
    | Raise e1, Raise e2 => e1 = e2
    | _, _ => False
    end.

Lemma rel_ret {A} (R : A -> Prop) (a : A) : R a -> rel R (ret a) (ret a).
Proof. intros HR n1 n2 s. done. Qed.

Lemma rel_ret_any {A} (a : A) : rel (fun _ => True) (ret a) (ret a).
Proof. by apply rel_ret. Qed.

Lemma rel_bind {A B} (R1 : A -> Prop) (R2 : B -> Prop)
    (m1 m2 : M A) (k1 k2 : A -> M B) :
  rel R1 m1 m2 -> (forall a, R1 a -> rel R2 (k1 a) (k2 a)) ->
  rel R2 (bind m1 k1) (bind m2 k2).
Proof.
  intros Hm Hk n1 n2 s. specialize (Hm n1 n2 s). unfold bind.
  destruct (m1 (n1, s)) as [[a1 [n1' s1]]|e1], (m2 (n2, s)) as [[a2 [n2' s2]]|e2];
    try done.
  destruct Hm as (-> & Hs & HR). simpl in Hs. subst s2. by apply Hk.
Qed.

Lemma rel_gets {A} (f : store -> A) : rel (fun _ => True) (gets f) (gets f).
Proof. intros n1 n2 s. done. Qed.

Lemma rel_modify f : rel (fun _ => True) (modify f) (modify f).
Proof. intros n1 n2 s. done. Qed.

Lemma rel_lift {A} (r : res A) : rel (fun _ => True) (lift r) (lift r).
Proof. intros n1 n2 s. unfold lift. by destruct r. Qed.

Lemma rel_raise {A} (R : A -> Prop) e : rel R (raise e) (raise e).
Proof. intros n1 n2 s. done. Qed.

Lemma rel_fires d1 d2 thr1 thr2 :
  nonneg_draws d1 -> nonneg_draws d2 -> (thr1 <= 0)%Q -> (thr2 <= 0)%Q ->
  rel (fun b => b = false) (fires d1 thr1) (fires d2 thr2).
Proof. intros H1 H2 Ht1 Ht2 n1 n2 s. by rewrite !fires_nonpos. Qed.

Create HintDb rel discriminated.

#[local] Hint Resolve rel_lift rel_fires rel_gets rel_raise rel_ret_any
  rel_modify : rel.
#[local] Hint Resolve noiseless_p noiseless_prep noiseless_meas
  noiseless_two_qubit_gate noiseless_single_qubit_gate : rel.
#[local] Hint Extern 1 (rel _ (ret _) (ret _)) => apply rel_ret; done : rel.

Ltac rel_go :=
  lazymatch goal with
  | |- rel _ (bind _ _) (bind _ _) =>
      eapply rel_bind; [ rel_go | intros ? ?; simplify_eq/=; rel_go ]
  | |- rel _ (if ?b then _ else _) _ => destruct b; rel_go
  | |- rel _ (match ?x with _ => _ end) _ => destruct x; rel_go
  | |- rel _ _ _ => solve [eauto with rel]
  end.

Section RelEngine.

Context (cfg : config) (d1 d2 : nat -> Q) (p1 p2 : Q).
Hypothesis Hd1 : nonneg_draws d1.
Hypothesis Hd2 : nonneg_draws d2.

Lemma rel_xor_into_accumulator e :
  rel (fun _ => True) (xor_into_accumulator e) (xor_into_accumulator e).
Proof. unfold xor_into_accumulator. rel_go. Qed.

Lemma rel_assign_accumulator i b :
  rel (fun _ => True) (assign_accumulator i b) (assign_accumulator i b).
Proof. unfold assign_accumulator. rel_go. Qed.

Lemma rel_read_accumulator i :
  rel (fun _ => True) (read_accumulator i) (read_accumulator i).
Proof. unfold read_accumulator. rel_go. Qed.

#[local] Hint Resolve rel_xor_into_accumulator rel_assign_accumulator
  rel_read_accumulator : rel.

Lemma rel_single_qubit_X_error q thr1 thr2 :
  (thr1 <= 0)%Q -> (thr2 <= 0)%Q ->
  rel (fun _ => True) (single_qubit_X_error cfg d1 q thr1)
    (single_qubit_X_error cfg d2 q thr2).
Proof. intros Ht1 Ht2. unfold single_qubit_X_error. rel_go. Qed.

Lemma rel_single_qubit_Z_error q thr1 thr2 :
  (thr1 <= 0)%Q -> (thr2 <= 0)%Q ->
  rel (fun _ => True) (single_qubit_Z_error cfg d1 q thr1)
    (single_qubit_Z_error cfg d2 q thr2).
Proof. intros Ht1 Ht2. unfold single_qubit_Z_error. rel_go. Qed.

Lemma rel_single_qubit_depol_error q thr1 thr2 :
  (thr1 <= 0)%Q -> (thr2 <= 0)%Q ->
  rel (fun _ => True) (single_qubit_depol_error cfg d1 q thr1)
    (single_qubit_depol_error cfg d2 q thr2).
Proof. intros Ht1 Ht2. unfold single_qubit_depol_error. rel_go. Qed.

Lemma rel_one_stochastic_loop qs thr1 thr2 :
  (thr1 <= 0)%Q -> (thr2 <= 0)%Q ->
  rel (fun _ => True) (one_stochastic_loop cfg d1 qs thr1)
    (one_stochastic_loop cfg d2 qs thr2).
Proof. intros Ht1 Ht2. induction qs as [|q qs IH]; simpl; rel_go. Qed.

Lemma rel_two_qubit_gate_depol_error q1 q2 thr1 thr2 :
  (thr1 <= 0)%Q -> (thr2 <= 0)%Q ->
  rel (fun _ => True) (two_qubit_gate_depol_error cfg d1 q1 q2 thr1)
    (two_qubit_gate_depol_error cfg d2 q1 q2 thr2).
Proof. intros Ht1 Ht2. unfold two_qubit_gate_depol_error. rel_go. Qed.

#[local] Hint Resolve rel_single_qubit_X_error rel_single_qubit_Z_error
  rel_single_qubit_depol_error rel_one_stochastic_loop
  rel_two_qubit_gate_depol_error : rel.

Lemma rel_single_qubit_Y_error q thr1 thr2 :
  (thr1 <= 0)%Q -> (thr2 <= 0)%Q ->
  rel (fun _ => True) (single_qubit_Y_error cfg d1 q thr1)
    (single_qubit_Y_error cfg d2 q thr2).
Proof. intros Ht1 Ht2. unfold single_qubit_Y_error. rel_go. Qed.

Lemma rel_single_qubit_pauli_error i q :
  rel (fun _ => True) (single_qubit_pauli_error cfg i q)
    (single_qubit_pauli_error cfg i q).
Proof. unfold single_qubit_pauli_error. rel_go. Qed.

Lemma rel_two_qubit_pauli_error i1 i2 q1 q2 :
  rel (fun _ => True) (two_qubit_pauli_error cfg i1 i2 q1 q2)
    (two_qubit_pauli_error cfg i1 i2 q1 q2).
Proof. unfold two_qubit_pauli_error. rel_go. Qed.

Lemma rel_two_qubit_gate_error tc loc q1 q2 thr1 thr2 :
  (thr1 <= 0)%Q -> (thr2 <= 0)%Q ->
  rel (fun _ => True) (two_qubit_gate_error cfg d1 tc loc q1 q2 thr1)
    (two_qubit_gate_error cfg d2 tc loc q1 q2 thr2).
Proof.
  intros Ht1 Ht2. unfold two_qubit_gate_error.
  destruct tc as [t|]; [|by apply rel_two_qubit_gate_depol_error].
  destruct (_ && _); [apply rel_two_qubit_pauli_error | apply rel_ret_any].
Qed.

Hypothesis Hp1 : noiseless cfg p1.
Hypothesis Hp2 : noiseless cfg p2.

Lemma rel_one_stochastic_pauli_error_data_qubits :
  rel (fun _ => True) (one_stochastic_pauli_error_data_qubits cfg d1 p1)
    (one_stochastic_pauli_error_data_qubits cfg d2 p2).
Proof. unfold one_stochastic_pauli_error_data_qubits. rel_go. Qed.

Lemma rel_prepare_Z_basis q :
  rel (fun _ => True) (prepare_Z_basis cfg d1 q p1) (prepare_Z_basis cfg d2 q p2).
Proof. unfold prepare_Z_basis. rel_go. Qed.

Lemma rel_prepare_X_basis q :
  rel (fun _ => True) (prepare_X_basis cfg d1 q p1) (prepare_X_basis cfg d2 q p2).
Proof. unfold prepare_X_basis. rel_go. Qed.

Lemma rel_reset_ancilla :
  rel (fun _ => True) (reset_ancilla cfg d1 p1) (reset_ancilla cfg d2 p2).
Proof.
  unfold reset_ancilla. induction (seq 0 (num_anc_qubits cfg)); simpl; rel_go.
Qed.

Lemma rel_reset_flag :
  rel (fun _ => True) (reset_flag cfg d1 p1) (reset_flag cfg d2 p2).
Proof.
  unfold reset_flag. induction (seq 0 (num_flag_qubits cfg)); simpl; rel_go.
Qed.

Lemma rel_h q tc loc :
  rel (fun _ => True) (h cfg d1 q p1 tc loc) (h cfg d2 q p2 tc loc).
Proof. unfold h. rel_go. Qed.

Lemma rel_cnot c t tc loc :
  rel (fun _ => True) (cnot cfg d1 c t p1 tc loc) (cnot cfg d2 c t p2 tc loc).
Proof. unfold cnot, two_qubit_gate_error. rel_go. Qed.

Lemma rel_xnot a b tc loc :
  rel (fun _ => True) (xnot cfg d1 a b p1 tc loc) (xnot cfg d2 a b p2 tc loc).
Proof. unfold xnot, two_qubit_gate_error. rel_go. Qed.

Lemma rel_ynot a b tc loc :
  rel (fun _ => True) (ynot cfg d1 a b p1 tc loc) (ynot cfg d2 a b p2 tc loc).
Proof. unfold ynot, two_qubit_gate_error. rel_go. Qed.

Lemma rel_cz a b tc loc :
  rel (fun _ => True) (cz cfg d1 a b p1 tc loc) (cz cfg d2 a b p2 tc loc).
Proof. unfold cz, two_qubit_gate_error. rel_go. Qed.

Lemma rel_measure_Z_basis q :
  rel (fun _ => True) (measure_Z_basis cfg d1 q p1) (measure_Z_basis cfg d2 q p2).
Proof. unfold measure_Z_basis. rel_go. Qed.

Lemma rel_measure_X_basis q :
  rel (fun _ => True) (measure_X_basis cfg d1 q p1) (measure_X_basis cfg d2 q p2).
Proof. unfold measure_X_basis. rel_go. Qed.

Lemma rel_run_call c :
  rel (fun _ => True) (run_call cfg d1 p1 c) (run_call cfg d2 p2 c).
Proof.
  pose proof rel_prepare_Z_basis. pose proof rel_prepare_X_basis.
  pose proof rel_reset_ancilla. pose proof rel_reset_flag.
  pose proof rel_h. pose proof rel_cnot. pose proof rel_xnot.
  pose proof rel_ynot. pose proof rel_cz.
  pose proof rel_one_stochastic_pauli_error_data_qubits.
  pose proof rel_measure_Z_basis. pose proof rel_measure_X_basis.
  pose proof rel_single_qubit_Y_error. pose proof rel_single_qubit_pauli_error.
  pose proof rel_two_qubit_pauli_error. pose proof rel_two_qubit_gate_error.
  destruct c; simpl; rel_go.
Qed.

Lemma rel_run_calls cs :
  rel (fun _ => True) (run_calls cfg d1 p1 cs) (run_calls cfg d2 p2 cs).
Proof.
  pose proof rel_run_call. induction cs as [|c cs IH]; simpl; rel_go.
Qed.

End RelEngine.

Section QuietProtocol.

Context (cfg : config) (draws : nat -> Q) (p : Q).
Hypothesis Hdraws : nonneg_draws draws.
Hypothesis Hp : noiseless cfg p.

#[local] Hint Resolve quiet_xor_into_accumulator
  quiet_one_stochastic_pauli_error_data_qubits quiet_prepare_Z_basis
  quiet_prepare_X_basis quiet_reset_ancilla quiet_reset_flag quiet_cnot
  quiet_xnot quiet_measure_Z_basis quiet_measure_X_basis : quiet.

Lemma quiet_apply_gate g tc :
  quiet (fun _ => True) (apply_gate cfg draws g p tc).
Proof. unfold apply_gate. quiet_go. Qed.

#[local] Hint Resolve quiet_apply_gate : quiet.

Lemma quiet_apply_gates gs tc :
  quiet (fun _ => True) (apply_gates cfg draws gs p tc).
Proof. induction gs as [|g gs IH]; simpl; quiet_go. Qed.

Lemma quiet_for_each qs body :
  (forall q, quiet (fun _ => True) (body q)) ->
  quiet (fun _ => True) (for_each qs body).
Proof. intros Hb. induction qs as [|q qs IH]; simpl; quiet_go. Qed.

Lemma quiet_init_state : quiet (fun _ => True) (init_state cfg draws p).
Proof.
  unfold init_state. eapply quiet_bind.
  - apply quiet_for_each. intros q. apply quiet_prepare_Z_basis; done.
  - intros _ _. apply quiet_for_each. intros q.
    apply quiet_prepare_X_basis; done.
Qed.

Lemma quiet_measure_ancilla_and_flag b :
  quiet (fun _ => True) (measure_ancilla_and_flag cfg draws b p).
Proof. unfold measure_ancilla_and_flag. quiet_go. Qed.

Lemma quiet_code_capacity_noise :
  quiet (fun _ => True) (code_capacity_noise cfg draws p).
Proof. unfold code_capacity_noise. quiet_go. Qed.

#[local] Hint Resolve quiet_apply_gates quiet_measure_ancilla_and_flag
  quiet_code_capacity_noise : quiet.

Lemma quiet_measure_generator_without_flag g tc :
  quiet (fun _ => True) (measure_generator_without_flag cfg draws g p tc).
Proof. unfold measure_generator_without_flag. quiet_go. Qed.

#[local] Hint Resolve quiet_measure_generator_without_flag : quiet.

Lemma quiet_measure_full_syndrome_without_flags tc :
  quiet (fun _ => True) (measure_full_syndrome_without_flags cfg draws tc p).
Proof. unfold measure_full_syndrome_without_flags. quiet_go. Qed.

Lemma quiet_update_syn_ex_status : quiet (fun _ => True) update_syn_ex_status.
Proof. unfold update_syn_ex_status. quiet_go. Qed.

Lemma quiet_measure_generator_with_flag g tc :
  quiet (fun _ => True) (measure_generator_with_flag cfg draws g p tc).
Proof. unfold measure_generator_with_flag. quiet_go. Qed.

Lemma quiet_canonicalise_1st_subround :
  quiet (fun _ => True) canonicalise_1st_subround.
Proof. unfold canonicalise_1st_subround. quiet_go. Qed.

Lemma quiet_canonicalise_2nd_subround :
  quiet (fun _ => True) canonicalise_2nd_subround.
Proof. unfold canonicalise_2nd_subround. quiet_go. Qed.

#[local] Hint Resolve quiet_measure_full_syndrome_without_flags
  quiet_update_syn_ex_status quiet_measure_generator_with_flag
  quiet_canonicalise_1st_subround quiet_canonicalise_2nd_subround : quiet.

Lemma quiet_remeasure_and_return pad tc :
  quiet (fun _ => True) (remeasure_and_return cfg draws pad tc p).
Proof. unfold remeasure_and_return. quiet_go. Qed.

#[local] Hint Resolve quiet_remeasure_and_return : quiet.

Lemma quiet_decide_after pad tc next :
  quiet (fun _ => True) next ->
  quiet (fun _ => True) (decide_after cfg draws pad tc p next).
Proof. intros Hn. unfold decide_after. quiet_go. Qed.

Lemma quiet_guarded_generator g tc :
  quiet (fun _ => True) (guarded_generator cfg draws g p tc).
Proof. unfold guarded_generator. quiet_go. Qed.

Lemma quiet_decide_last tc : quiet (fun _ => True) (decide_last cfg draws tc p).
Proof. unfold decide_last. quiet_go. Qed.

Lemma quiet_inject_at_location_0 tc :
  quiet (fun _ => True) (inject_at_location_0 tc).
Proof. unfold inject_at_location_0. quiet_go. Qed.

#[local] Hint Resolve quiet_guarded_generator quiet_decide_last
  quiet_inject_at_location_0 : quiet.

Lemma quiet_syndrome_extraction tc :
  quiet (fun _ => True) (syndrome_extraction cfg draws tc p).
Proof.
  unfold syndrome_extraction.
  eapply quiet_bind; [quiet_go|]. intros s _.
  destruct (decide (s = IDLE)); [|quiet_go].
  do 6 (eapply quiet_bind; [quiet_go|intros _ _]).
  apply quiet_decide_after.
  eapply quiet_bind; [quiet_go|intros _ _]. apply quiet_decide_after.
  eapply quiet_bind; [quiet_go|intros _ _]. apply quiet_decide_after.
  quiet_go.
Qed.

Lemma quiet_syndrome_decoding : quiet (fun _ => True) (syndrome_decoding cfg).
Proof. unfold syndrome_decoding. quiet_go. Qed.

End QuietProtocol.

Section RelProtocol.

Context (cfg : config) (d1 d2 : nat -> Q) (p1 p2 : Q).
Hypothesis Hd1 : nonneg_draws d1.
Hypothesis Hd2 : nonneg_draws d2.
Hypothesis Hp1 : noiseless cfg p1.
Hypothesis Hp2 : noiseless cfg p2.

#[local] Hint Resolve rel_xor_into_accumulator
  rel_one_stochastic_pauli_error_data_qubits rel_prepare_Z_basis
  rel_prepare_X_basis rel_reset_ancilla rel_reset_flag rel_cnot
  rel_xnot rel_measure_Z_basis rel_measure_X_basis : rel.

Lemma rel_apply_gate g tc :
  rel (fun _ => True) (apply_gate cfg d1 g p1 tc) (apply_gate cfg d2 g p2 tc).
Proof. unfold apply_gate. rel_go. Qed.

#[local] Hint Resolve rel_apply_gate : rel.

Lemma rel_apply_gates gs tc :
  rel (fun _ => True) (apply_gates cfg d1 gs p1 tc) (apply_gates cfg d2 gs p2 tc).
Proof. induction gs as [|g gs IH]; simpl; rel_go. Qed.

Lemma rel_for_each qs body1 body2 :
  (forall q, rel (fun _ => True) (body1 q) (body2 q)) ->
  rel (fun _ => True) (for_each qs body1) (for_each qs body2).
Proof. intros Hb. induction qs as [|q qs IH]; simpl; rel_go. Qed.

Lemma rel_init_state :
  rel (fun _ => True) (init_state cfg d1 p1) (init_state cfg d2 p2).
Proof.
  unfold init_state. eapply rel_bind.
  - apply rel_for_each. intros q. apply rel_prepare_Z_basis; done.
  - intros _ _. apply rel_for_each. intros q. apply rel_prepare_X_basis; done.
Qed.

Lemma rel_measure_ancilla_and_flag b :
  rel (fun _ => True) (measure_ancilla_and_flag cfg d1 b p1)
    (measure_ancilla_and_flag cfg d2 b p2).
Proof. unfold measure_ancilla_and_flag. rel_go. Qed.

Lemma rel_code_capacity_noise :
  rel (fun _ => True) (code_capacity_noise cfg d1 p1) (code_capacity_noise cfg d2 p2).
Proof. unfold code_capacity_noise. rel_go. Qed.

#[local] Hint Resolve rel_apply_gates rel_measure_ancilla_and_flag
  rel_code_capacity_noise : rel.

Lemma rel_measure_generator_without_flag g tc :
  rel (fun _ => True) (measure_generator_without_flag cfg d1 g p1 tc)
    (measure_generator_without_flag cfg d2 g p2 tc).
Proof. unfold measure_generator_without_flag. rel_go. Qed.

#[local] Hint Resolve rel_measure_generator_without_flag : rel.

Lemma rel_measure_full_syndrome_without_flags tc :
  rel (fun _ => True) (measure_full_syndrome_without_flags cfg d1 tc p1)
    (measure_full_syndrome_without_flags cfg d2 tc p2).
Proof. unfold measure_full_syndrome_without_flags. rel_go. Qed.

Lemma rel_update_syn_ex_status :
  rel (fun _ => True) update_syn_ex_status update_syn_ex_status.
Proof. unfold update_syn_ex_status. rel_go. Qed.

Lemma rel_measure_generator_with_flag g tc :
  rel (fun _ => True) (measure_generator_with_flag cfg d1 g p1 tc)
    (measure_generator_with_flag cfg d2 g p2 tc).
Proof. unfold measure_generator_with_flag. rel_go. Qed.

Lemma rel_canonicalise_1st_subround :
  rel (fun _ => True) canonicalise_1st_subround canonicalise_1st_subround.
Proof. unfold canonicalise_1st_subround. rel_go. Qed.

Lemma rel_canonicalise_2nd_subround :
  rel (fun _ => True) canonicalise_2nd_subround canonicalise_2nd_subround.
Proof. unfold canonicalise_2nd_subround. rel_go. Qed.

#[local] Hint Resolve rel_measure_full_syndrome_without_flags
  rel_update_syn_ex_status rel_measure_generator_with_flag
  rel_canonicalise_1st_subround rel_canonicalise_2nd_subround : rel.

Lemma rel_remeasure_and_return pad tc :
  rel (fun _ => True) (remeasure_and_return cfg d1 pad tc p1)
    (remeasure_and_return cfg d2 pad tc p2).
Proof. unfold remeasure_and_return. rel_go. Qed.

#[local] Hint Resolve rel_remeasure_and_return : rel.

Lemma rel_decide_after pad tc next1 next2 :
  rel (fun _ => True) next1 next2 ->
  rel (fun _ => True) (decide_after cfg d1 pad tc p1 next1)
    (decide_after cfg d2 pad tc p2 next2).
Proof. intros Hn. unfold decide_after. rel_go. Qed.

Lemma rel_guarded_generator g tc :
  rel (fun _ => True) (guarded_generator cfg d1 g p1 tc)
    (guarded_generator cfg d2 g p2 tc).
Proof. unfold guarded_generator. rel_go. Qed.

Lemma rel_decide_last tc :
  rel (fun _ => True) (decide_last cfg d1 tc p1) (decide_last cfg d2 tc p2).
Proof. unfold decide_last. rel_go. Qed.

Lemma rel_inject_at_location_0 tc :
  rel (fun _ => True) (inject_at_location_0 tc) (inject_at_location_0 tc).
Proof. unfold inject_at_location_0. rel_go. Qed.

#[local] Hint Resolve rel_guarded_generator rel_decide_last
  rel_inject_at_location_0 : rel.

Lemma rel_syndrome_extraction tc :
  rel (fun _ => True) (syndrome_extraction cfg d1 tc p1)
    (syndrome_extraction cfg d2 tc p2).
Proof.
  unfold syndrome_extraction.
  eapply rel_bind; [rel_go|]. intros s _.
  destruct (decide (s = IDLE)); [|rel_go].
  do 6 (eapply rel_bind; [rel_go|intros _ _]).
  apply rel_decide_after.
  eapply rel_bind; [rel_go|intros _ _]. apply rel_decide_after.
  eapply rel_bind; [rel_go|intros _ _]. apply rel_decide_after.
  rel_go.
Qed.

Lemma rel_syndrome_decoding :
  rel (fun _ => True) (syndrome_decoding cfg) (syndrome_decoding cfg).
Proof. unfold syndrome_decoding. rel_go. Qed.

End RelProtocol.

(** ** Safe runs

    [safe cfg R m]: from a store whose accumulator has 2N entries, [m]
    raises nothing, keeps that length and changes no attribute of the
    protocol object. *)
Definition wf (cfg : config) (s : store) : Prop :=
  length (pauli_accumulator s) = 2 * num_all_qubits cfg.

Definition frame (s s' : store) : Prop :=
  syndrome_ex_status s' = syndrome_ex_status s
  /\ current_syndrome_n_flag s' = current_syndrome_n_flag s
  /\ syndrome_n_flag_1st_subround s' = syndrome_n_flag_1st_subround s
  /\ syndrome_2nd_subround s' = syndrome_2nd_subround s
  /\ logical_error_counts s' = logical_error_counts s.

#[global] Instance frame_rel cfg : SpecRel (wf cfg) frame.
Proof.
  split; unfold frame.
  - done.
  - intros s1 s2 s3 (? & ? & ? & ? & ?) (? & ? & ? & ? & ?).
    split_and!; congruence.
Qed.

Definition safe {A} (cfg : config) (R : A -> Prop) (m : M A) : Prop :=
  spec no_exn (wf cfg) frame R m.

Lemma length_zeros n : length (zeros n) = n.
Proof. apply length_replicate. Qed.

Lemma setitem_ok {A} (l : list A) i x :
  i < length l -> setitem l i x = Ok (<[i:=x]> l).
Proof. intros Hi. unfold setitem. by rewrite decide_True. Qed.

Lemma getitem_ok {A} (l : list A) i :
  i < length l -> exists x, l !! i = Some x /\ getitem l i = Ok x.
Proof.
  intros Hi. destruct (lookup_lt_is_Some_2 l i Hi) as [x Hx].
  exists x. unfold getitem. by rewrite Hx.
Qed.

Lemma np_logical_xor_ok a b :
  length a = length b -> np_logical_xor a b = Ok (zip_with xorb a b).
Proof. intros Hab. unfold np_logical_xor. by rewrite decide_True. Qed.

Section SafeEngine.

Context (cfg : config) (draws : nat -> Q).

Local Abbreviation N := (num_all_qubits cfg).

Lemma safe_ret {A} (R : A -> Prop) (a : A) : R a -> safe cfg R (ret a).
Proof. apply (spec_ret no_exn _ frame). Qed.

Lemma safe_ret_any {A} (a : A) : safe cfg (fun _ => True) (ret a).
Proof. by apply safe_ret. Qed.

Lemma safe_bind {A B} (R1 : A -> Prop) (R2 : B -> Prop) (m : M A) (k : A -> M B) :
  safe cfg R1 m -> (forall a, R1 a -> safe cfg R2 (k a)) -> safe cfg R2 (bind m k).
Proof. apply (spec_bind no_exn _ frame). Qed.

Lemma safe_mono {A} (R R' : A -> Prop) (m : M A) :
  (forall a, R a -> R' a) -> safe cfg R m -> safe cfg R' m.
Proof. apply (spec_mono no_exn _ frame). Qed.

Lemma safe_gets {A} (f : store -> A) : safe cfg (fun _ => True) (gets f).
Proof. apply (spec_gets no_exn _ frame). Qed.

Lemma safe_uniform : safe cfg (fun _ => True) (uniform draws).
Proof. apply (spec_uniform no_exn _ frame). Qed.

Lemma safe_fires thr : safe cfg (fun _ => True) (fires draws thr).
Proof. apply (spec_fires no_exn _ frame). Qed.

Lemma safe_log_fault f : safe cfg (fun _ => True) (modify (log_fault f)).
Proof. apply (spec_modify no_exn _ frame). intros s Hs. by split. Qed.

Lemma safe_setitem (e : list bool) i b :
  length e = 2 * N -> i < 2 * N ->
  safe cfg (fun e' => length e' = 2 * N) (lift (setitem e i b)).
Proof.
  intros He Hi. apply (spec_lift no_exn _ frame).
  rewrite setitem_ok by lia. by rewrite length_insert.
Qed.

Lemma safe_set_if c (e : list bool) i :
  length e = 2 * N -> i < 2 * N ->
  safe cfg (fun e' => length e' = 2 * N) (lift (set_if c e i)).
Proof.
  intros He Hi. destruct c; simpl; [by apply safe_setitem|].
  by apply (spec_lift no_exn _ frame).
Qed.

Lemma safe_xor_into_accumulator e :
  length e = 2 * N -> safe cfg (fun _ => True) (xor_into_accumulator e).
Proof.
  intros He [n s] Hs. unfold wf in Hs. cbn [snd] in Hs.
  unfold wp, xor_into_accumulator, bind, gets, lift, modify. simpl.
  rewrite np_logical_xor_ok by lia. simpl.
  split_and!; [done| |done].
  unfold wf. simpl. rewrite length_zip_with. lia.
Qed.

Lemma safe_assign_accumulator i b :
  i < 2 * N -> safe cfg (fun _ => True) (assign_accumulator i b).
Proof.
  intros Hi [n s] Hs. unfold wf in Hs. cbn [snd] in Hs.
  unfold wp, assign_accumulator, bind, gets, lift, modify. simpl.
  rewrite setitem_ok by lia. simpl.
  split_and!; [done| |done].
  unfold wf. simpl. by rewrite length_insert.
Qed.

Lemma safe_read_accumulator i :
  i < 2 * N -> safe cfg (fun _ => True) (read_accumulator i).
Proof.
  intros Hi [n s] Hs. unfold wf in Hs. cbn [snd] in Hs.
  unfold wp, read_accumulator, bind, gets, lift. simpl.
  destruct (getitem_ok (pauli_accumulator s) i) as (x & _ & ->); [lia|].
  done.
Qed.

Lemma safe_pauli_string pauli_idx q :
  q < N ->
  safe cfg (fun e => length e = 2 * N) (lift (pauli_string cfg pauli_idx q)).
Proof.
  intros Hq. apply (spec_lift no_exn _ frame). unfold pauli_string.
  destruct pauli_idx as [|[|[|[|?]]]];
    rewrite ?setitem_ok by (rewrite ?length_insert, length_zeros; lia);
    by rewrite ?length_insert, length_zeros.
Qed.

End SafeEngine.

Create HintDb safe discriminated.

#[local] Hint Resolve safe_ret_any safe_gets safe_uniform safe_fires
  safe_log_fault safe_setitem safe_set_if safe_xor_into_accumulator
  safe_assign_accumulator safe_read_accumulator safe_pauli_string
  length_zeros : safe.
#[local] Hint Extern 2 (_ < _) => unfold num_all_qubits in *; lia : safe.
#[local] Hint Extern 2 (_ = _ :> nat) => unfold num_all_qubits in *; lia : safe.

Ltac safe_go :=
  lazymatch goal with
  | |- safe _ _ (bind _ _) =>
      eapply safe_bind; [ safe_go | intros ? ?; simplify_eq/=; safe_go ]
  | |- safe _ _ (if ?b then _ else _) => destruct b; safe_go
  | |- safe _ _ (match ?x with _ => _ end) => destruct x; safe_go
  | |- safe _ _ _ => solve [eauto with safe]
  end.

Section SafeEngineOps.

Context (cfg : config) (draws : nat -> Q) (p : Q).

Local Abbreviation N := (num_all_qubits cfg).

Lemma safe_single_qubit_X_error q thr :
  q < 2 * N -> safe cfg (fun _ => True) (single_qubit_X_error cfg draws q thr).
Proof. intros Hq. unfold single_qubit_X_error. safe_go. Qed.

Lemma safe_single_qubit_Z_error q thr :
  q < N -> safe cfg (fun _ => True) (single_qubit_Z_error cfg draws q thr).
Proof. intros Hq. unfold single_qubit_Z_error. safe_go. Qed.

Lemma safe_single_qubit_Y_error q thr :
  q < N -> safe cfg (fun _ => True) (single_qubit_Y_error cfg draws q thr).
Proof. intros Hq. unfold single_qubit_Y_error. safe_go. Qed.

Lemma safe_single_qubit_pauli_error pauli_idx q :
  q < N -> safe cfg (fun _ => True) (single_qubit_pauli_error cfg pauli_idx q).
Proof. intros Hq. unfold single_qubit_pauli_error. safe_go. Qed.

#[local] Hint Resolve safe_single_qubit_pauli_error : safe.

Lemma safe_single_qubit_depol_error q thr :
  q < N -> safe cfg (fun _ => True) (single_qubit_depol_error cfg draws q thr).
Proof. intros Hq. unfold single_qubit_depol_error. safe_go. Qed.

Lemma safe_one_stochastic_loop qs thr :
  Forall (fun q => q < N) qs ->
  safe cfg (fun _ => True) (one_stochastic_loop cfg draws qs thr).
Proof.
  induction 1 as [|q qs Hq Hqs IH]; simpl; safe_go.
Qed.

Lemma safe_one_stochastic_pauli_error_data_qubits thr :
  safe cfg (fun _ => True) (one_stochastic_pauli_error_data_qubits cfg draws thr).
Proof.
  apply safe_one_stochastic_loop. apply Forall_forall. intros q Hq.
  apply list_elem_of_In, in_seq in Hq. unfold num_all_qubits. lia.
Qed.

Lemma safe_two_qubit_pauli_error i1 i2 q1 q2 :
  q1 < N -> q2 < N ->
  safe cfg (fun _ => True) (two_qubit_pauli_error cfg i1 i2 q1 q2).
Proof. intros H1 H2. unfold two_qubit_pauli_error. safe_go. Qed.

#[local] Hint Resolve safe_two_qubit_pauli_error : safe.

Lemma safe_two_qubit_gate_depol_error q1 q2 thr :
  q1 < N -> q2 < N ->
  safe cfg (fun _ => True) (two_qubit_gate_depol_error cfg draws q1 q2 thr).
Proof. intros H1 H2. unfold two_qubit_gate_depol_error. safe_go. Qed.

#[local] Hint Resolve safe_single_qubit_X_error safe_single_qubit_Z_error
  safe_single_qubit_depol_error safe_two_qubit_gate_depol_error : safe.

Lemma safe_prepare_Z_basis q :
  q < N -> safe cfg (fun _ => True) (prepare_Z_basis cfg draws q p).
Proof. intros Hq. unfold prepare_Z_basis. safe_go. Qed.

Lemma safe_prepare_X_basis q :
  q < N -> safe cfg (fun _ => True) (prepare_X_basis cfg draws q p).
Proof. intros Hq. unfold prepare_X_basis. safe_go. Qed.

Lemma safe_reset_ancilla_loop idxs :
  Forall (fun i => i < num_anc_qubits cfg) idxs ->
  safe cfg (fun _ => True) (reset_ancilla_loop cfg draws idxs p).
Proof. induction 1 as [|i idxs Hi His IH]; simpl; safe_go. Qed.

Lemma safe_reset_ancilla : safe cfg (fun _ => True) (reset_ancilla cfg draws p).
Proof.
  apply safe_reset_ancilla_loop. apply Forall_forall. intros q Hq.
  apply list_elem_of_In, in_seq in Hq. lia.
Qed.

Lemma safe_reset_flag_loop idxs :
  Forall (fun i => i < num_flag_qubits cfg) idxs ->
  safe cfg (fun _ => True) (reset_flag_loop cfg draws idxs p).
Proof. induction 1 as [|i idxs Hi His IH]; simpl; safe_go. Qed.

Lemma safe_reset_flag : safe cfg (fun _ => True) (reset_flag cfg draws p).
Proof.
  apply safe_reset_flag_loop. apply Forall_forall. intros q Hq.
  apply list_elem_of_In, in_seq in Hq. lia.
Qed.

Lemma safe_h q tc loc :
  q < N -> safe cfg (fun _ => True) (h cfg draws q p tc loc).
Proof. intros Hq. unfold h. safe_go. Qed.

Lemma safe_cnot c t tc loc :
  c < N -> t < N -> safe cfg (fun _ => True) (cnot cfg draws c t p tc loc).
Proof. intros Hc Ht. unfold cnot, two_qubit_gate_error. safe_go. Qed.

Lemma safe_xnot a b tc loc :
  a < N -> b < N -> safe cfg (fun _ => True) (xnot cfg draws a b p tc loc).
Proof. intros Ha Hb. unfold xnot, two_qubit_gate_error. safe_go. Qed.

Lemma safe_cz a b tc loc :
  a < N -> b < N -> safe cfg (fun _ => True) (cz cfg draws a b p tc loc).
Proof. intros Ha Hb. unfold cz, two_qubit_gate_error. safe_go. Qed.

Lemma safe_measure_Z_basis q :
  q < N -> safe cfg (fun _ => True) (measure_Z_basis cfg draws q p).
Proof. intros Hq. unfold measure_Z_basis. safe_go. Qed.

Lemma safe_measure_X_basis q :
  q < N -> safe cfg (fun _ => True) (measure_X_basis cfg draws q p).
Proof. intros Hq. unfold measure_X_basis. safe_go. Qed.

End SafeEngineOps.

(** ** Stepping through a computation at a given world *)

Lemma wp_bind_gets {A B} E (f : store -> A) (k : A -> M B) Q w :
  wp E (k (f (snd w))) Q w -> wp E (bind (gets f) k) Q w.
Proof. intros H. by apply wp_bind. Qed.

Lemma wp_bind_modify {B} E (f : store -> store) (k : unit -> M B) Q w :
  wp E (k tt) Q (fst w, f (snd w)) -> wp E (bind (modify f) k) Q w.
Proof. intros H. by apply wp_bind. Qed.

Lemma wp_bind_lift {A B} E (r : res A) (a : A) (k : A -> M B) Q w :
  r = Ok a -> wp E (k a) Q w -> wp E (bind (lift r) k) Q w.
Proof. intros -> H. by apply wp_bind. Qed.

Lemma wp_bind_ret {A B} E (a : A) (k : A -> M B) Q w :
  wp E (k a) Q w -> wp E (bind (ret a) k) Q w.
Proof. intros H. by apply wp_bind. Qed.

Lemma wp_bind_ok {A B} E (m : M A) (k : A -> M B) Q w a w' :
  m w = Ok (a, w') -> wp E (k a) Q w' -> wp E (bind m k) Q w.
Proof. intros Hm H. apply wp_bind. unfold wp at 1. by rewrite Hm. Qed.

Lemma wp_modify E (f : store -> store) (Q : unit -> world -> Prop) w :
  Q tt (fst w, f (snd w)) -> wp E (modify f) Q w.
Proof. done. Qed.

Lemma wp_safe {A} cfg (R : A -> Prop) (m : M A) (Q : A -> world -> Prop) w :
  safe cfg R m -> wf cfg (snd w) ->
  (forall a w', R a -> wf cfg (snd w') -> frame (snd w) (snd w') -> Q a w') ->
  wp no_exn m Q w.
Proof.
  intros Hm Hw HQ. eapply wp_mono; [|by apply Hm].
  intros a w' (? & ? & ?). by apply HQ.
Qed.

Lemma wp_bind_safe {A B} cfg (R : A -> Prop) (m : M A) (k : A -> M B) Q w :
  safe cfg R m -> wf cfg (snd w) ->
  (forall a w', R a -> wf cfg (snd w') -> frame (snd w) (snd w') ->
     wp no_exn (k a) Q w') ->
  wp no_exn (bind m k) Q w.
Proof. intros Hm Hw HQ. apply wp_bind. by eapply wp_safe. Qed.

(** ** Safe runs of the protocol's circuit fragments *)

(** The protocol addresses five data qubits, one ancilla and one flag. *)
Definition valid_config (cfg : config) : Prop :=
  5 <= num_data_qubits cfg /\ 1 <= num_anc_qubits cfg /\ 1 <= num_flag_qubits cfg.

Definition qref_ok (q : qref) : Prop :=
  match q with Data i => i < 5 | _ => True end.

Definition gate_ok (g : gate) : Prop :=
  match g with
  | XNOT a b _ => qref_ok a /\ qref_ok b
  | CNOT c t _ => qref_ok c /\ qref_ok t
  end.

Lemma flag_circuit_ok g : Forall gate_ok (flag_circuit g).
Proof. destruct g; repeat constructor; simpl; lia. Qed.

Lemma noflag_circuit_ok g : Forall gate_ok (noflag_circuit g).
Proof. destruct g; repeat constructor; simpl; lia. Qed.

Section SafeProtocol.

Context (cfg : config) (draws : nat -> Q) (p : Q).
Hypothesis Hcfg : valid_config cfg.

Local Abbreviation N := (num_all_qubits cfg).

Lemma anc_qubits_0 : getitem (anc_qubits cfg) 0 = Ok (num_data_qubits cfg).
Proof.
  destruct Hcfg as (? & ? & ?). unfold getitem, anc_qubits.
  rewrite lookup_seq_lt by lia. f_equal. lia.
Qed.

Lemma flag_qubits_0 :
  getitem (flag_qubits cfg) 0 = Ok (num_data_qubits cfg + num_anc_qubits cfg).
Proof.
  destruct Hcfg as (? & ? & ?). unfold getitem, flag_qubits.
  rewrite lookup_seq_lt by lia. f_equal. lia.
Qed.

Lemma resolve_ok q :
  qref_ok q -> exists i, resolve cfg q = Ok i /\ i < N.
Proof.
  destruct Hcfg as (? & ? & ?). unfold num_all_qubits.
  destruct q as [i| |]; simpl; intros Hq.
  - exists i. unfold getitem, data_qubits. rewrite lookup_seq_lt by lia.
    split; [done | lia].
  - rewrite anc_qubits_0. eexists; split; [done | lia].
  - rewrite flag_qubits_0. eexists; split; [done | lia].
Qed.

Lemma safe_resolve q :
  qref_ok q -> safe cfg (fun i => i < N) (lift (resolve cfg q)).
Proof.
  intros Hq. destruct (resolve_ok q Hq) as (i & -> & Hi).
  by apply (spec_lift no_exn _ frame).
Qed.

#[local] Hint Resolve safe_resolve safe_cnot safe_xnot : safe.

Lemma safe_apply_gate g tc :
  gate_ok g -> safe cfg (fun _ => True) (apply_gate cfg draws g p tc).
Proof. destruct g; intros [? ?]; unfold apply_gate; safe_go. Qed.

#[local] Hint Resolve safe_apply_gate : safe.

Lemma safe_apply_gates gs tc :
  Forall gate_ok gs -> safe cfg (fun _ => True) (apply_gates cfg draws gs p tc).
Proof. induction 1 as [|g gs Hg Hgs IH]; simpl; safe_go. Qed.

Lemma safe_code_capacity_noise :
  safe cfg (fun _ => True) (code_capacity_noise cfg draws p).
Proof.
  unfold code_capacity_noise. destruct (decide _).
  - apply safe_one_stochastic_pauli_error_data_qubits.
  - apply safe_ret_any.
Qed.

End SafeProtocol.

Section Blocks.

Context (cfg : config) (draws : nat -> Q) (p : Q).
Hypothesis Hcfg : valid_config cfg.

Local Abbreviation N := (num_all_qubits cfg).

Lemma anc_lt : num_data_qubits cfg < N.
Proof. destruct Hcfg as (? & ? & ?). unfold num_all_qubits. lia. Qed.

Lemma flag_lt : num_data_qubits cfg + num_anc_qubits cfg < N.
Proof. destruct Hcfg as (? & ? & ?). unfold num_all_qubits. lia. Qed.

(** What a block leaves alone: the status and the counts, and one or both
    records. *)
Definition keeps_1st (s s' : store) : Prop :=
  syndrome_ex_status s' = syndrome_ex_status s
  /\ syndrome_n_flag_1st_subround s' = syndrome_n_flag_1st_subround s
  /\ logical_error_counts s' = logical_error_counts s.

Definition keeps_2nd (s s' : store) : Prop :=
  syndrome_ex_status s' = syndrome_ex_status s
  /\ syndrome_2nd_subround s' = syndrome_2nd_subround s
  /\ logical_error_counts s' = logical_error_counts s.

Lemma measure_ancilla_and_flag_with_flag w :
  wf cfg (snd w) ->
  wp no_exn (measure_ancilla_and_flag cfg draws true p)
    (fun _ w' =>
       wf cfg (snd w') /\ keeps_1st (snd w) (snd w') /\ keeps_2nd (snd w) (snd w')
       /\ exists sy fl, current_syndrome_n_flag (snd w') = Arr2 [Some (sy, fl)]) w.
Proof.
  intros Hw. unfold measure_ancilla_and_flag.
  eapply wp_bind_lift; [apply anc_qubits_0; done|].
  eapply wp_bind_safe; [apply safe_measure_Z_basis, anc_lt | done |].
  intros sy w1 _ Hw1 (? & ? & ? & ? & ?).
  eapply wp_bind_lift; [apply flag_qubits_0; done|].
  eapply wp_bind_safe; [apply safe_measure_X_basis, flag_lt | done |].
  intros fl w2 _ Hw2 (? & ? & ? & ? & ?).
  apply wp_modify. unfold keeps_1st, keeps_2nd. simpl.
  split_and!; [done | congruence.. | eauto].
Qed.

Lemma measure_ancilla_and_flag_without_flag w :
  wf cfg (snd w) ->
  wp no_exn (measure_ancilla_and_flag cfg draws false p)
    (fun _ w' =>
       wf cfg (snd w') /\ keeps_1st (snd w) (snd w') /\ keeps_2nd (snd w) (snd w')
       /\ exists sy, current_syndrome_n_flag (snd w') = Arr1 [sy]) w.
Proof.
  intros Hw. unfold measure_ancilla_and_flag.
  eapply wp_bind_lift; [apply anc_qubits_0; done|].
  eapply wp_bind_safe; [apply safe_measure_Z_basis, anc_lt | done |].
  intros sy w1 _ Hw1 (? & ? & ? & ? & ?).
  apply wp_modify. unfold keeps_1st, keeps_2nd. simpl.
  split_and!; [done | congruence.. | eauto].
Qed.

(** The rows of the 1st-subround record before generator [g] is measured:
    none before the first one. *)
Definition rows_before (g : generator) (s : store) (rows : list (option (bool * bool)))
    : Prop :=
  match g with
  | G1 => rows = []
  | _ => syndrome_n_flag_1st_subround s = Arr2 rows
  end.

Lemma safe_resets :
  safe cfg (fun _ => True)
    (bind (reset_ancilla cfg draws p) (fun _ => reset_flag cfg draws p)).
Proof.
  eapply safe_bind; [apply safe_reset_ancilla|].
  intros _ _. apply safe_reset_flag.
Qed.

Lemma measure_generator_with_flag_spec g tc rows w :
  wf cfg (snd w) -> rows_before g (snd w) rows ->
  wp no_exn (measure_generator_with_flag cfg draws g p tc)
    (fun _ w' =>
       wf cfg (snd w') /\ keeps_2nd (snd w) (snd w')
       /\ exists sy fl,
            current_syndrome_n_flag (snd w') = Arr2 [Some (sy, fl)]
            /\ syndrome_n_flag_1st_subround (snd w') = Arr2 (rows ++ [Some (sy, fl)])) w.
Proof.
  intros Hw Hrows. unfold measure_generator_with_flag.
  eapply (wp_bind_safe cfg (fun _ => True)); [|done|].
  { destruct g; [destruct (decide _); [|apply safe_ret_any]|..];
      first [ by apply safe_one_stochastic_pauli_error_data_qubits
            | by apply safe_code_capacity_noise ]. }
  intros _ w1 _ Hw1 (? & ? & ? & ? & ?).
  eapply wp_bind_safe;
    [by apply safe_apply_gates, flag_circuit_ok | done |].
  intros _ w2 _ Hw2 (? & ? & ? & ? & ?).
  apply wp_bind. eapply wp_mono;
    [|by apply measure_ancilla_and_flag_with_flag].
  intros _ w3 (Hw3 & (? & ? & ?) & (? & ? & ?) & sy & fl & Hcur).
  apply wp_bind_gets. rewrite Hcur.
  assert (syndrome_n_flag_1st_subround (snd w3)
          = syndrome_n_flag_1st_subround (snd w)) as Hr1 by congruence.
  apply wp_bind.
  destruct g; simpl in Hrows;
    [ subst rows
    | apply wp_bind_gets; rewrite Hr1, Hrows;
      eapply wp_bind_lift; [done|].. ];
    apply wp_modify;
    (eapply wp_safe; [apply safe_resets | done |]);
    intros _ w' _ Hw' (? & ? & ? & ? & ?); simpl in *;
    (split_and!; [done | split_and!; congruence |]);
    exists sy, fl; split; congruence.
Qed.

(** The bits of the 2nd-subround record before generator [g] is measured
    without flag. *)
Definition bits_before (g : generator) (s : store) (bits : list bool) : Prop :=
  match g with
  | G1 => bits = []
  | _ => syndrome_2nd_subround s = Arr1 bits
  end.

Lemma measure_generator_without_flag_spec g tc bits w :
  wf cfg (snd w) -> bits_before g (snd w) bits ->
  wp no_exn (measure_generator_without_flag cfg draws g p tc)
    (fun _ w' =>
       wf cfg (snd w') /\ keeps_1st (snd w) (snd w')
       /\ exists sy, syndrome_2nd_subround (snd w') = Arr1 (bits ++ [sy])) w.
Proof.
  intros Hw Hbits. unfold measure_generator_without_flag.
  eapply wp_bind_safe; [by apply safe_code_capacity_noise | done |].
  intros _ w1 _ Hw1 (? & ? & ? & ? & ?).
  eapply wp_bind_safe;
    [by apply safe_apply_gates, noflag_circuit_ok | done |].
  intros _ w2 _ Hw2 (? & ? & ? & ? & ?).
  apply wp_bind. eapply wp_mono;
    [|by apply measure_ancilla_and_flag_without_flag].
  intros _ w3 (Hw3 & (? & ? & ?) & (? & ? & ?) & sy & Hcur).
  apply wp_bind_gets. rewrite Hcur.
  assert (syndrome_2nd_subround (snd w3) = syndrome_2nd_subround (snd w))
    as Hr2 by congruence.
  apply wp_bind.
  destruct g; simpl in Hbits;
    [ subst bits
    | apply wp_bind_gets; rewrite Hr2, Hbits;
      eapply wp_bind_lift; [done|].. ];
    apply wp_modify;
    (eapply wp_safe; [apply safe_reset_ancilla | done |]);
    intros _ w' _ Hw' (? & ? & ? & ? & ?); simpl in *;
    (split_and!; [done | split_and!; congruence |]);
    exists sy; congruence.
Qed.

Lemma measure_full_syndrome_without_flags_spec tc w :
  wf cfg (snd w) -> syndrome_ex_status (snd w) = MEAS_GEN_WITHOUT_FLAG ->
  wp no_exn (measure_full_syndrome_without_flags cfg draws tc p)
    (fun _ w' =>
       wf cfg (snd w') /\ keeps_1st (snd w) (snd w')
       /\ exists b1 b2 b3 b4,
            syndrome_2nd_subround (snd w') = Arr1 [b1; b2; b3; b4]) w.
Proof.
  intros Hw Hst. unfold measure_full_syndrome_without_flags.
  apply wp_bind_gets. rewrite Hst. rewrite decide_True by done.
  apply wp_bind. eapply wp_mono;
    [|by apply (measure_generator_without_flag_spec G1 tc [])].
  intros _ w1 (Hw1 & (? & ? & ?) & b1 & Hb1).
  apply wp_bind. eapply wp_mono;
    [|by apply (measure_generator_without_flag_spec G2 tc [b1])].
  intros _ w2 (Hw2 & (? & ? & ?) & b2 & Hb2).
  apply wp_bind. eapply wp_mono;
    [|by apply (measure_generator_without_flag_spec G3 tc [b1; b2])].
  intros _ w3 (Hw3 & (? & ? & ?) & b3 & Hb3).
  eapply wp_mono;
    [|by apply (measure_generator_without_flag_spec G4 tc [b1; b2; b3])].
  intros _ w4 (Hw4 & (? & ? & ?) & b4 & Hb4).
  split_and!; [done | split_and!; congruence | by exists b1, b2, b3, b4].
Qed.

End Blocks.

(** ** Canonical record strings *)

(** The key printed for a 1st-subround record with the given rows. *)
Definition key_1st (rows : list (option (bool * bool))) : string :=
  "[" +:+ join_sp (map row_str rows) +:+ "]".

(** The key printed for a 2nd-subround record with the given bits. *)
Definition key_2nd (bits : list bool) : string :=
  "[" +:+ join_sp (map bit_str bits) +:+ "]".

(** The store in which the first generator is measured: the assignments at
    the head of [syndrome_extraction]. *)
Definition begin_round (s : store) : store :=
  set_syndrome_ex_status MEAS_GEN_WITH_FLAG
    (set_current_syndrome_n_flag PyNone
       (set_syndrome_2nd_subround PyNone
          (set_syndrome_n_flag_1st_subround PyNone s))).

(** The store in which the next generator is measured after a clear
    outcome. *)
Definition next_generator (s : store) : store :=
  set_syndrome_ex_status MEAS_GEN_WITH_FLAG s.

(** The override does not name location 0. *)
Definition no_override_at_0 (tc : option error_spec) : Prop :=
  match tc with
  | Some t => inject_error t && bool_decide (error_loc t = Some 0) = false
  | None => True
  end.

Section Paths.

Context (cfg : config) (draws : nat -> Q) (p : Q) (tc : option error_spec).
Hypothesis Hcfg : valid_config cfg.

(** Measuring generator [g] with its flag circuit from [w] returns the
    syndrome [sy] and the flag [fl], and leaves the world [w']. *)
Definition flagged_outcome (g : generator) (w w' : world) (sy fl : bool) : Prop :=
  measure_generator_with_flag cfg draws g p tc w = Ok (tt, w')
  /\ current_syndrome_n_flag (snd w') = Arr2 [Some (sy, fl)].

Lemma flagged_outcome_inv g w w' sy fl rows :
  wf cfg (snd w) -> rows_before g (snd w) rows ->
  flagged_outcome g w w' sy fl ->
  wf cfg (snd w') /\ keeps_2nd (snd w) (snd w')
  /\ syndrome_n_flag_1st_subround (snd w') = Arr2 (rows ++ [Some (sy, fl)]).
Proof.
  intros Hw Hrows [Hrun Hcur].
  pose proof (measure_generator_with_flag_spec cfg draws p Hcfg g tc rows w
                Hw Hrows) as Hspec.
  eapply wp_ok_inv in Hspec; [|exact Hrun].
  destruct Hspec as (Hw' & Hk & sy' & fl' & Hcur' & Hrec).
  split_and!; [done..|]. congruence.
Qed.

Lemma update_syn_ex_status_eq w sy fl :
  current_syndrome_n_flag (snd w) = Arr2 [Some (sy, fl)] ->
  update_syn_ex_status w
  = Ok (tt, (fst w,
             set_syndrome_ex_status
               (if fl then DET_RAISED_FLAG
                else if sy then DET_NONZERO_SYNDROME
                else DET_UNRAISED_FLAG_AND_ZERO_SYNDROME) (snd w))).
Proof.
  intros Hcur. unfold update_syn_ex_status, bind, gets. rewrite Hcur.
  by destruct fl, sy.
Qed.

Lemma decide_after_clear pad next w :
  current_syndrome_n_flag (snd w) = Arr2 [Some (false, false)] ->
  decide_after cfg draws pad tc p next w
  = next (fst w, next_generator (snd w)).
Proof.
  intros Hcur. unfold decide_after, bind at 1.
  by rewrite (update_syn_ex_status_eq w false false).
Qed.

Lemma decide_after_detected pad next w sy fl :
  current_syndrome_n_flag (snd w) = Arr2 [Some (sy, fl)] ->
  sy || fl = true ->
  decide_after cfg draws pad tc p next w
  = remeasure_and_return cfg draws pad tc p
      (fst w, set_syndrome_ex_status
                (if fl then DET_RAISED_FLAG else DET_NONZERO_SYNDROME) (snd w)).
Proof.
  intros Hcur Hdet. unfold decide_after, bind at 1.
  rewrite (update_syn_ex_status_eq w sy fl) by done.
  by destruct fl, sy.
Qed.

Lemma decide_last_detected w sy fl :
  current_syndrome_n_flag (snd w) = Arr2 [Some (sy, fl)] ->
  sy || fl = true ->
  decide_last cfg draws tc p w
  = remeasure_and_return cfg draws 0 tc p
      (fst w, set_syndrome_ex_status
                (if fl then DET_RAISED_FLAG else DET_NONZERO_SYNDROME) (snd w)).
Proof.
  intros Hcur Hdet. unfold decide_last, bind at 1.
  rewrite (update_syn_ex_status_eq w sy fl) by done.
  by destruct fl, sy.
Qed.

Lemma decide_last_clear w rows :
  current_syndrome_n_flag (snd w) = Arr2 [Some (false, false)] ->
  syndrome_n_flag_1st_subround (snd w) = Arr2 rows ->
  syndrome_2nd_subround (snd w) = PyNone ->
  decide_last cfg draws tc p w
  = Ok (tt, (fst w,
             set_syndrome_n_flag_1st_subround (PyStr (key_1st rows))
               (set_syndrome_ex_status IDLE (snd w)))).
Proof.
  intros Hcur Hr1 Hr2. unfold decide_last, bind at 1.
  rewrite (update_syn_ex_status_eq w false false) by done.
  unfold bind, gets, modify, canonicalise_1st_subround, bind, gets, lift,
    modify. simpl.
  rewrite Hr1. simpl. rewrite Hr2. done.
Qed.

Lemma guarded_generator_eq g w :
  syndrome_ex_status (snd w) = MEAS_GEN_WITH_FLAG ->
  guarded_generator cfg draws g p tc w
  = measure_generator_with_flag cfg draws g p tc w.
Proof.
  intros Hst. unfold guarded_generator, bind, gets. rewrite Hst.
  by rewrite decide_True.
Qed.

Lemma remeasure_and_return_spec pad w rows :
  wf cfg (snd w) -> syndrome_n_flag_1st_subround (snd w) = Arr2 rows ->
  wp no_exn (remeasure_and_return cfg draws pad tc p)
    (fun _ w' =>
       wf cfg (snd w')
       /\ syndrome_ex_status (snd w') = IDLE
       /\ logical_error_counts (snd w') = logical_error_counts (snd w)
       /\ syndrome_n_flag_1st_subround (snd w')
          = PyStr (key_1st (rows ++ replicate pad None))
       /\ exists b1 b2 b3 b4,
            syndrome_2nd_subround (snd w') = PyStr (key_2nd [b1; b2; b3; b4])) w.
Proof.
  intros Hw Hr1. unfold remeasure_and_return.
  set (w0 := (fst w, set_syndrome_n_flag_1st_subround
                        (Arr2 (rows ++ replicate pad None)) (snd w))).
  assert (wp no_exn
    (bind (modify (set_syndrome_ex_status MEAS_GEN_WITHOUT_FLAG))
       (fun _ => bind (measure_full_syndrome_without_flags cfg draws tc p)
          (fun _ => bind (modify (set_syndrome_ex_status IDLE))
             (fun _ => bind canonicalise_1st_subround
                (fun _ => canonicalise_2nd_subround)))))
    (fun _ w' =>
       wf cfg (snd w')
       /\ syndrome_ex_status (snd w') = IDLE
       /\ logical_error_counts (snd w') = logical_error_counts (snd w)
       /\ syndrome_n_flag_1st_subround (snd w')
          = PyStr (key_1st (rows ++ replicate pad None))
       /\ exists b1 b2 b3 b4,
            syndrome_2nd_subround (snd w') = PyStr (key_2nd [b1; b2; b3; b4]))
    w0) as Hrest.
  { apply wp_bind_modify. apply wp_bind. eapply wp_mono;
      [|by apply measure_full_syndrome_without_flags_spec].
    intros _ w1 (Hw1 & (? & Hrec & ?) & b1 & b2 & b3 & b4 & Hbits).
    apply wp_bind_modify.
    unfold canonicalise_1st_subround, canonicalise_2nd_subround.
    apply wp_bind. apply wp_bind_gets. simpl. rewrite Hrec. simpl.
    eapply wp_bind_lift; [done|]. apply wp_modify.
    apply wp_bind_gets. simpl. rewrite Hbits.
    eapply wp_bind_lift; [done|]. apply wp_modify. simpl.
    split_and!; [done.. | by exists b1, b2, b3, b4]. }
  apply wp_bind. destruct pad as [|pad'].
  - apply wp_ret. replace w with w0; [done|].
    unfold w0. rewrite app_nil_r. destruct w as [n s]. simpl in *.
    f_equal. destruct s. simpl in *. by subst.
  - apply wp_bind_gets. rewrite Hr1. eapply wp_bind_lift; [done|].
    apply wp_modify. done.
Qed.

Lemma wf_set_status x s : wf cfg s -> wf cfg (set_syndrome_ex_status x s).
Proof. done. Qed.

Lemma wf_begin_round s : wf cfg s -> wf cfg (begin_round s).
Proof. done. Qed.

Lemma syndrome_extraction_not_idle n s :
  syndrome_ex_status s <> IDLE ->
  syndrome_extraction cfg draws tc p (n, s)
  = Raise (AssertionError
             "Syndrome extraction status should be IDLE at the beginning.").
Proof.
  intros Hst. unfold syndrome_extraction, bind at 1, gets. simpl.
  by rewrite decide_False.
Qed.

Lemma syndrome_extraction_entry n s :
  syndrome_ex_status s = IDLE -> no_override_at_0 tc ->
  syndrome_extraction cfg draws tc p (n, s)
  = bind (measure_generator_with_flag cfg draws G1 p tc)
      (fun _ => decide_after cfg draws 3 tc p
         (bind (guarded_generator cfg draws G2 p tc)
            (fun _ => decide_after cfg draws 2 tc p
               (bind (guarded_generator cfg draws G3 p tc)
                  (fun _ => decide_after cfg draws 1 tc p
                     (bind (guarded_generator cfg draws G4 p tc)
                        (fun _ => decide_last cfg draws tc p)))))))
      (n, begin_round s).
Proof.
  intros Hst Htc. unfold syndrome_extraction, bind at 1, gets. simpl.
  rewrite Hst. rewrite decide_True by done.
  unfold bind at 1, modify at 1. simpl.
  unfold bind at 1, modify at 1. simpl.
  unfold bind at 1, modify at 1. simpl.
  unfold bind at 1, modify at 1. simpl.
  unfold bind at 1.
  assert (inject_at_location_0 tc (n, begin_round s)
          = Ok (tt, (n, begin_round s))) as Hinj.
  { unfold inject_at_location_0. destruct tc as [t|]; [|done].
    simpl in Htc. by rewrite Htc. }
  unfold begin_round in Hinj. simpl in Hinj. rewrite Hinj. done.
Qed.

(** One clear outcome: the next generator is measured, from a store whose
    1st-subround record has gained the row [[0 0]]. *)
Lemma clear_step g rows w w' :
  wf cfg (snd w) -> rows_before g (snd w) rows ->
  syndrome_2nd_subround (snd w) = PyNone ->
  flagged_outcome g w w' false false ->
  wf cfg (next_generator (snd w'))
  /\ syndrome_n_flag_1st_subround (next_generator (snd w'))
     = Arr2 (rows ++ [Some (false, false)])
  /\ syndrome_2nd_subround (next_generator (snd w')) = PyNone
  /\ logical_error_counts (next_generator (snd w'))
     = logical_error_counts (snd w)
  /\ syndrome_ex_status (next_generator (snd w')) = MEAS_GEN_WITH_FLAG.
Proof.
  intros Hw Hrows Hr2 Hout.
  destruct (flagged_outcome_inv g w w' false false rows Hw Hrows Hout)
    as (Hw' & (? & ? & ?) & Hrec).
  split_and!; simpl; [done | done | congruence | done | done].
Qed.

End Paths.

Section Rounds.

Context (cfg : config) (draws : nat -> Q) (p : Q) (tc : option error_spec).
Hypothesis Hcfg : valid_config cfg.

(** All four flagged measurements return syndrome 0 and flag 0. *)
Definition all_clear (n : nat) (s : store) (w4 : world) : Prop :=
  exists w1 w2 w3,
    flagged_outcome cfg draws p tc G1 (n, begin_round s) w1 false false
    /\ flagged_outcome cfg draws p tc G2 (fst w1, next_generator (snd w1)) w2
         false false
    /\ flagged_outcome cfg draws p tc G3 (fst w2, next_generator (snd w2)) w3
         false false
    /\ flagged_outcome cfg draws p tc G4 (fst w3, next_generator (snd w3)) w4
         false false.

Definition clear_row : option (bool * bool) := Some (false, false).

Lemma extraction_all_clear n s w4 :
  wf cfg s -> syndrome_ex_status s = IDLE -> no_override_at_0 tc ->
  all_clear n s w4 ->
  syndrome_extraction cfg draws tc p (n, s)
  = Ok (tt, (fst w4,
             set_syndrome_n_flag_1st_subround
               (PyStr "[[0 0] [0 0] [0 0] [0 0]]")
               (set_syndrome_ex_status IDLE (snd w4))))
  /\ syndrome_2nd_subround (snd w4) = PyNone
  /\ wf cfg (snd w4)
  /\ logical_error_counts (snd w4) = logical_error_counts s.
Proof.
  intros Hw Hst Htc (w1 & w2 & w3 & F1 & F2 & F3 & F4).
  rewrite syndrome_extraction_entry by done.
  destruct (clear_step cfg draws p tc Hcfg G1 [] (n, begin_round s) w1
              (wf_begin_round cfg s Hw) eq_refl eq_refl F1)
    as (Hw1 & Hr1 & Hs1 & Hc1 & Hst1).
  destruct (clear_step cfg draws p tc Hcfg G2 _ (fst w1, _) w2
              Hw1 Hr1 Hs1 F2)
    as (Hw2 & Hr2 & Hs2 & Hc2 & Hst2).
  destruct (clear_step cfg draws p tc Hcfg G3 _ (fst w2, _) w3
              Hw2 Hr2 Hs2 F3)
    as (Hw3 & Hr3 & Hs3 & Hc3 & Hst3).
  destruct (flagged_outcome_inv cfg draws p tc Hcfg G4 (fst w3, _) w4
              false false _ Hw3 Hr3 F4)
    as (Hw4 & (? & Hs4 & Hc4) & Hr4).
  unfold bind at 1. rewrite (proj1 F1).
  rewrite decide_after_clear by apply F1.
  unfold bind at 1. rewrite guarded_generator_eq by done. rewrite (proj1 F2).
  rewrite decide_after_clear by apply F2.
  unfold bind at 1. rewrite guarded_generator_eq by done. rewrite (proj1 F3).
  rewrite decide_after_clear by apply F3.
  unfold bind at 1. rewrite guarded_generator_eq by done. rewrite (proj1 F4).
  assert (syndrome_2nd_subround (snd w4) = PyNone) as Hnone.
  { simpl in *. congruence. }
  erewrite decide_last_clear; [|apply F4|exact Hr4|exact Hnone].
  split_and!; [done | done | done |].
  simpl in *. congruence.
Qed.

(** The flag is raised on generator 2 after a clear generator 1. *)
Lemma extraction_flag_on_generator_2 n s w1 w2 sy :
  wf cfg s -> syndrome_ex_status s = IDLE -> no_override_at_0 tc ->
  flagged_outcome cfg draws p tc G1 (n, begin_round s) w1 false false ->
  flagged_outcome cfg draws p tc G2 (fst w1, next_generator (snd w1)) w2
    sy true ->
  exists w' b1 b2 b3 b4,
    syndrome_extraction cfg draws tc p (n, s) = Ok (tt, w')
    /\ syndrome_ex_status (snd w') = IDLE
    /\ syndrome_n_flag_1st_subround (snd w')
       = PyStr (key_1st [clear_row; Some (sy, true); None; None])
    /\ syndrome_2nd_subround (snd w') = PyStr (key_2nd [b1; b2; b3; b4]).
Proof.
  intros Hw Hst Htc F1 F2.
  rewrite syndrome_extraction_entry by done.
  destruct (clear_step cfg draws p tc Hcfg G1 [] (n, begin_round s) w1
              (wf_begin_round cfg s Hw) eq_refl eq_refl F1)
    as (Hw1 & Hr1 & Hs1 & Hc1 & Hst1).
  destruct (flagged_outcome_inv cfg draws p tc Hcfg G2 (fst w1, _) w2
              sy true _ Hw1 Hr1 F2)
    as (Hw2 & (? & Hs2 & Hc2) & Hr2).
  unfold bind at 1. rewrite (proj1 F1).
  rewrite decide_after_clear by apply F1.
  unfold bind at 1. rewrite guarded_generator_eq by done. rewrite (proj1 F2).
  rewrite (decide_after_detected cfg draws p tc 2 _ w2 sy true);
    [|apply F2|apply orb_true_r].
  pose proof (remeasure_and_return_spec cfg draws p tc Hcfg 2
                (fst w2, set_syndrome_ex_status DET_RAISED_FLAG (snd w2))
                _ (wf_set_status cfg _ _ Hw2) Hr2) as Hspec.
  apply wp_total in Hspec.
  destruct Hspec as ([] & w' & Hrun & _ & Hidle & _ & Hrec1 & b1 & b2 & b3 & b4 & Hrec2).
  exists w', b1, b2, b3, b4. done.
Qed.

End Rounds.

(** * Concrete inputs used by the examples *)

Definition zero_draws : nat -> Q := fun _ => 0%Q.
Definition half_draws : nat -> Q := fun _ => (1 # 2)%Q.

(** Every draw is 99/100 except draw number 9, which is 0: at the rate
    1/10 the only fault that fires is the preparation fault of the flag
    reset that follows the first generator. *)
Definition flag_draws : nat -> Q :=
  fun n => if n =? 9 then 0%Q else (99 # 100)%Q.

Definition chao_protocol : config :=
  five_qubit_code_flag_protocol CHAO_CKT_LVL_NOISE_WITHOUT_IDLING.

(** An X error on data qubit 0 in an otherwise fresh store. *)
Definition store_with_X0 : store :=
  set_pauli_accumulator (<[0 := true]> (zeros 14)) (fresh_store chao_protocol 1).

(** * The claims *)

(** C6: at fault probability 0 the accumulator after any sequence of
    engine calls does not depend on the random draws: two runs from the
    same store on any two sources of draws (values of [np.random.uniform]
    are not negative), started anywhere in them, raise the same exception
    or return the same accumulator and the same measurement outcomes. *)
Theorem accumulator_deterministic_at_rate_zero
    (cfg : config) (calls : list engine_call) (d1 d2 : nat -> Q)
    (n1 n2 : nat) (s : store) :
  nonneg_draws d1 -> nonneg_draws d2 ->
  match run_calls cfg d1 0 calls (n1, s), run_calls cfg d2 0 calls (n2, s) with
  | Ok (o1, w1), Ok (o2, w2) =>
      pauli_accumulator (snd w1) = pauli_accumulator (snd w2) /\ o1 = o2
  | Raise e1, Raise e2 => e1 = e2
  | _, _ => False
  end.
Proof.
  intros H1 H2.
  pose proof (rel_run_calls cfg d1 d2 0 0 H1 H2 (noiseless_zero cfg)
                (noiseless_zero cfg) calls n1 n2 s) as Hrel.
  destruct (run_calls cfg d1 0 calls (n1, s)) as [[o1 w1]|e1],
    (run_calls cfg d2 0 calls (n2, s)) as [[o2 w2]|e2]; try done.
  destruct Hrel as (-> & -> & _). done.
Qed.

Lemma accumulator_deterministic_at_rate_zero_witness :
  match
    run_calls chao_protocol zero_draws 0
      [Prepare_Z_basis 5; Prepare_X_basis 6; Xnot 0 5 None 1; Cnot 6 5 None 2;
       H 0 None 0; Cz 0 1 None 3; Ynot 1 2 None 4; Measure_Z_basis 5;
       Measure_X_basis 6] (0, store_with_X0),
    run_calls chao_protocol half_draws 0
      [Prepare_Z_basis 5; Prepare_X_basis 6; Xnot 0 5 None 1; Cnot 6 5 None 2;
       H 0 None 0; Cz 0 1 None 3; Ynot 1 2 None 4; Measure_Z_basis 5;
       Measure_X_basis 6] (7, store_with_X0)
  with
  | Ok (o1, w1), Ok (o2, w2) =>
      pauli_accumulator (snd w1) = pauli_accumulator (snd w2) /\ o1 = o2
  | Raise e1, Raise e2 => e1 = e2
  | _, _ => False
  end.
Proof.
  apply (accumulator_deterministic_at_rate_zero chao_protocol).
  - intros n. unfold zero_draws, Qle. simpl. lia.
  - intros n. unfold half_draws, Qle. simpl. lia.
Defined.

(** C2: the extraction and decoding cycle that [logical_error_tracking]
    runs is error-free.  The source passes the rate -1; for every source of
    draws no preparation, gate or measurement fault fires during the cycle
    (the ghost fault log is unchanged), the result does not depend on the
    draws, and it is the result of the same cycle run at rate 0. *)
Theorem resynchronisation_is_error_free
    (nd na nf : nat) (lut : gmap string outer_value) (ops : list (list Z))
    (em : error_model_enum) (d1 d2 : nat -> Q) (n1 n2 : nat) (s : store) :
  let cfg := qec_flag_stabilizer_base_init nd na nf lut ops em in
  nonneg_draws d1 -> nonneg_draws d2 ->
  (forall w', resynchronisation cfg d1 (n1, s) = Ok (tt, w') ->
     fault_log (snd w') = fault_log s)
  /\ match resynchronisation cfg d1 (n1, s),
           resynchronisation cfg d2 (n2, s) with
     | Ok (_, w1), Ok (_, w2) => snd w1 = snd w2
     | Raise e1, Raise e2 => e1 = e2
     | _, _ => False
     end
  /\ match resynchronisation cfg d1 (n1, s),
           bind (syndrome_extraction cfg d2 None 0)
             (fun _ => syndrome_decoding cfg) (n2, s) with
     | Ok (_, w1), Ok (_, w2) => snd w1 = snd w2
     | Raise e1, Raise e2 => e1 = e2
     | _, _ => False
     end.
Proof.
  intros cfg H1 H2.
  pose proof (noiseless_minus_one nd na nf lut ops em) as Hm.
  fold cfg in Hm. pose proof (noiseless_zero cfg) as Hz.
  split_and!.
  - intros w' Hrun.
    assert (quiet (fun _ => True) (resynchronisation cfg d1)) as Hq.
    { unfold resynchronisation. eapply quiet_bind.
      - by apply quiet_syndrome_extraction.
      - intros _ _. apply quiet_syndrome_decoding. }
    specialize (Hq (n1, s) Logic.I). unfold wp in Hq. rewrite Hrun in Hq.
    by destruct Hq as (_ & _ & Hlog).
  - assert (rel (fun _ => True) (resynchronisation cfg d1)
              (resynchronisation cfg d2)) as Hr.
    { unfold resynchronisation. eapply rel_bind.
      - by apply rel_syndrome_extraction.
      - intros _ _. apply rel_syndrome_decoding. }
    specialize (Hr n1 n2 s).
    destruct (resynchronisation cfg d1 (n1, s)) as [[[] w1]|e1],
      (resynchronisation cfg d2 (n2, s)) as [[[] w2]|e2]; try done.
    by destruct Hr as (_ & ? & _).
  - assert (rel (fun _ => True) (resynchronisation cfg d1)
              (bind (syndrome_extraction cfg d2 None 0)
                 (fun _ => syndrome_decoding cfg))) as Hr.
    { unfold resynchronisation. eapply rel_bind.
      - by apply rel_syndrome_extraction.
      - intros _ _. apply rel_syndrome_decoding. }
    specialize (Hr n1 n2 s).
    destruct (resynchronisation cfg d1 (n1, s)) as [[[] w1]|e1],
      (bind _ _ (n2, s)) as [[[] w2]|e2]; try done.
    by destruct Hr as (_ & ? & _).
Qed.

Lemma resynchronisation_is_error_free_witness :
  exists w',
    resynchronisation chao_protocol half_draws (3, store_with_X0) = Ok (tt, w')
    /\ pauli_accumulator (snd w') = zeros 14
    /\ fault_log (snd w') = fault_log store_with_X0.
Proof.
  eexists. split; [vm_compute; reflexivity|]. split; [reflexivity|].
  refine (proj1 (resynchronisation_is_error_free 5 1 1
            five_qubit_code_flag_min_wt_LUT
            [[1; 1; 1; 1; 1; 0; 0; 0; 0; 0]; [0; 0; 0; 0; 0; 1; 1; 1; 1; 1]]%Z
            CHAO_CKT_LVL_NOISE_WITHOUT_IDLING half_draws zero_draws 3 0
            store_with_X0 _ _) _ _).
  - intros n. unfold half_draws, Qle. simpl. lia.
  - intros n. unfold zero_draws, Qle. simpl. lia.
  - vm_compute. reflexivity.
Defined.

(** C4: record shapes of [syndrome_extraction].  In a run started IDLE in
    which generator 1 returns syndrome 0 and flag 0 and generator 2 returns
    flag 1, the extraction returns with the 1st-subround record holding the
    key of exactly four rows, two measured pairs followed by two
    [[None None]] sentinels, and the 2nd-subround record holding the key of
    exactly four syndrome bits.  In a run in which all four flagged
    measurements return syndrome 0 and flag 0, it returns with status IDLE,
    the key of four measured [[0 0]] pairs, and no 2nd-subround record. *)
Theorem syndrome_extraction_record_shapes
    (cfg : config) (draws : nat -> Q) (p : Q) (tc : option error_spec)
    (n : nat) (s : store) :
  valid_config cfg -> wf cfg s -> syndrome_ex_status s = IDLE ->
  no_override_at_0 tc ->
  (forall w1 w2 sy,
     flagged_outcome cfg draws p tc G1 (n, begin_round s) w1 false false ->
     flagged_outcome cfg draws p tc G2 (fst w1, next_generator (snd w1)) w2
       sy true ->
     exists w' b1 b2 b3 b4,
       syndrome_extraction cfg draws tc p (n, s) = Ok (tt, w')
       /\ syndrome_ex_status (snd w') = IDLE
       /\ syndrome_n_flag_1st_subround (snd w')
          = PyStr (key_1st [Some (false, false); Some (sy, true); None; None])
       /\ syndrome_2nd_subround (snd w') = PyStr (key_2nd [b1; b2; b3; b4]))
  /\ (forall w4,
        all_clear cfg draws p tc n s w4 ->
        exists w',
          syndrome_extraction cfg draws tc p (n, s) = Ok (tt, w')
          /\ syndrome_ex_status (snd w') = IDLE
          /\ syndrome_n_flag_1st_subround (snd w')
             = PyStr (key_1st [Some (false, false); Some (false, false);
                               Some (false, false); Some (false, false)])
          /\ syndrome_2nd_subround (snd w') = PyNone).
Proof.
  intros Hcfg Hw Hst Htc. split.
  - intros w1 w2 sy F1 F2.
    by apply (extraction_flag_on_generator_2 cfg draws p tc Hcfg n s w1 w2 sy).
  - intros w4 Hclear.
    destruct (extraction_all_clear cfg draws p tc Hcfg n s w4 Hw Hst Htc Hclear)
      as (Hrun & Hnone & _ & _).
    eexists. split; [exact Hrun|]. simpl. done.
Qed.

Lemma syndrome_extraction_record_shapes_witness :
  (exists w' b1 b2 b3 b4,
     syndrome_extraction chao_protocol flag_draws None (1 # 10)
       (0, fresh_store chao_protocol 1) = Ok (tt, w')
     /\ syndrome_ex_status (snd w') = IDLE
     /\ syndrome_n_flag_1st_subround (snd w')
        = PyStr "[[0 0] [0 1] [None None] [None None]]"
     /\ syndrome_2nd_subround (snd w') = PyStr (key_2nd [b1; b2; b3; b4]))
  /\ (exists w',
        syndrome_extraction chao_protocol zero_draws None 0
          (0, fresh_store chao_protocol 1) = Ok (tt, w')
        /\ syndrome_ex_status (snd w') = IDLE
        /\ syndrome_n_flag_1st_subround (snd w')
           = PyStr "[[0 0] [0 0] [0 0] [0 0]]"
        /\ syndrome_2nd_subround (snd w') = PyNone).
Proof.
  assert (valid_config chao_protocol) as Hcfg
    by (unfold valid_config; simpl; lia).
  split.
  - eapply (proj1 (syndrome_extraction_record_shapes chao_protocol flag_draws
              (1 # 10) None 0 (fresh_store chao_protocol 1) Hcfg eq_refl
              eq_refl Logic.I) _ _ false).
    + split; [vm_compute; reflexivity | reflexivity].
    + split; [vm_compute; reflexivity | reflexivity].
  - eapply (proj2 (syndrome_extraction_record_shapes chao_protocol zero_draws
              0 None 0 (fresh_store chao_protocol 1) Hcfg eq_refl eq_refl
              Logic.I)).
    eexists _, _, _.
    split_and!; (split; [vm_compute; reflexivity | reflexivity]).
Defined.




(** The override that names location 0 of the protocol. *)
Definition override_at_0 : error_spec :=
  {| inject_error := true; error_loc := Some 0; qubit_idx1 := 0;
     qubit_idx2 := 5; pauli_idx1 := 1; pauli_idx2 := 1 |}.

(** C5, at the failing input: started IDLE on a fresh protocol object with
    a directed override at location 0, [syndrome_extraction] raises an
    AttributeError, which is neither of the two entry-state assertions. *)
Theorem syndrome_extraction_override_at_0_raises :
  syndrome_ex_status (fresh_store chao_protocol 1) = IDLE
  /\ syndrome_extraction chao_protocol zero_draws (Some override_at_0) 0
       (0, fresh_store chao_protocol 1) = Raise AttributeError.
Proof. split; reflexivity. Qed.

(** ** Batch sizes and aggregation *)

Lemma Zsum_app l1 l2 : Zsum (l1 ++ l2) = (Zsum l1 + Zsum l2)%Z.
Proof. induction l1 as [|x l1 IH]; simpl; lia. Qed.

Lemma batch_size_prefix_sum (q r : Z) (n : nat) :
  (0 <= r)%Z ->
  Zsum (map (fun k => if (Z.of_nat k <? r)%Z then (q + 1)%Z else q) (seq 0 n))
  = (Z.of_nat n * q + Z.min (Z.of_nat n) r)%Z.
Proof.
  intros Hr. induction n as [|n IH].
  - simpl. lia.
  - rewrite seq_S, map_app, Zsum_app, IH. simpl.
    destruct (Z.ltb_spec (Z.of_nat n) r); lia.
Qed.

Lemma batch_size_sum (samples_per_point : Z) (num_cores : nat) :
  1 <= num_cores -> (0 <= samples_per_point)%Z ->
  Zsum (map (batch_size samples_per_point num_cores) (seq 0 num_cores))
  = samples_per_point.
Proof.
  intros HW HS. unfold batch_size.
  pose proof (Z.mod_pos_bound samples_per_point (Z.of_nat num_cores)) as Hm.
  rewrite batch_size_prefix_sum by lia.
  pose proof (Z.div_mod samples_per_point (Z.of_nat num_cores)). lia.
Qed.

Section Aggregation.

Context {rate : Type} (str : rate -> string).

(** The counts of the entries of [l] whose rate prints as [key]. *)
Definition matching_sum (key : string) (l : list (@local_result rate)) : Z :=
  Zsum (map (fun r => if decide (str (p_phys r) = key)
                      then result_logical_error_counts r else 0%Z) l).

(** What worker [k] counted for the rates that print as [key]. *)
Definition worker_total (count : nat -> nat -> Z) (key : string)
    (rates : list rate) (k : nat) : Z :=
  Zsum (imap (fun j p => if decide (str p = key) then count k j else 0%Z) rates).

Lemma aggregate_step_lookup cr r key :
  key <> "total_samples" ->
  aggregate_step str cr r !! key
  = if decide (str (p_phys r) = key)
    then Some (default 0%Z (cr !! key) + result_logical_error_counts r)%Z
    else cr !! key.
Proof.
  intros Hkey. unfold aggregate_step.
  rewrite lookup_insert_ne by done.
  destruct (decide (str (p_phys r) = key)) as [Heq|Hne].
  - rewrite Heq. destruct (cr !! key) as [v|] eqn:Hv;
      by rewrite lookup_insert_eq.
  - destruct (cr !! str (p_phys r)); by rewrite lookup_insert_ne.
Qed.

Lemma aggregate_lookup_some l : forall cr key v,
  key <> "total_samples" -> cr !! key = Some v ->
  foldl (aggregate_step str) cr l !! key = Some (v + matching_sum key l)%Z.
Proof.
  induction l as [|r l IH]; intros cr key v Hkey Hv; simpl.
  - rewrite Hv. f_equal. unfold matching_sum. simpl. lia.
  - unfold matching_sum. simpl. fold (matching_sum key l).
    pose proof (aggregate_step_lookup cr r key Hkey) as Hstep.
    destruct (decide (str (p_phys r) = key)).
    + rewrite Hv in Hstep. simpl in Hstep.
      rewrite (IH _ key _ Hkey Hstep). f_equal; lia.
    + rewrite Hv in Hstep. rewrite (IH _ key _ Hkey Hstep). f_equal; lia.
Qed.

Lemma aggregate_lookup_none l : forall cr key,
  key <> "total_samples" -> cr !! key = None ->
  Exists (fun r => str (p_phys r) = key) l ->
  foldl (aggregate_step str) cr l !! key = Some (matching_sum key l).
Proof.
  induction l as [|r l IH]; intros cr key Hkey Hnone Hex; simpl.
  - by apply Exists_nil in Hex.
  - unfold matching_sum. simpl. fold (matching_sum key l).
    pose proof (aggregate_step_lookup cr r key Hkey) as Hstep.
    destruct (decide (str (p_phys r) = key)) as [Heq|Hne].
    + rewrite Hnone in Hstep. simpl in Hstep.
      by rewrite (aggregate_lookup_some l _ key _ Hkey Hstep).
    + rewrite Hnone in Hstep. apply Exists_cons in Hex as [?|Hex]; [done|].
      rewrite (IH _ key Hkey Hstep Hex). f_equal; lia.
Qed.

Lemma matching_sum_app key l1 l2 :
  matching_sum key (l1 ++ l2) = (matching_sum key l1 + matching_sum key l2)%Z.
Proof. unfold matching_sum. by rewrite map_app, Zsum_app. Qed.

Lemma matching_sum_worker spp W count key rates k :
  matching_sum key (imap (local_result_dict spp W count k) rates)
  = worker_total count key rates k.
Proof.
  unfold matching_sum, worker_total, local_result_dict.
  generalize (count k). intros c. revert c.
  induction rates as [|p rates IH]; intros c; [done|].
  simpl. f_equal. apply (IH (c ∘ S)).
Qed.

Lemma matching_sum_results spp W count key rates :
  matching_sum key (results_per_batch_per_p_phys spp W rates count)
  = Zsum (map (worker_total count key rates) (seq 0 W)).
Proof.
  unfold results_per_batch_per_p_phys.
  induction (seq 0 W) as [|k ks IH]; simpl; [done|].
  by rewrite matching_sum_app, IH, matching_sum_worker.
Qed.

Lemma worker_total_nodup count rates k j p :
  NoDup (map str rates) -> rates !! j = Some p ->
  worker_total count (str p) rates k = count k j.
Proof.
  unfold worker_total. revert j count.
  induction rates as [|p0 rates IH]; intros j count Hnd Hj; [done|].
  simpl in Hnd. apply NoDup_cons in Hnd as [Hnotin Hnd].
  simpl. destruct j as [|j]; simpl in Hj.
  - simplify_eq. rewrite decide_True by done.
    assert (forall (f : nat -> nat) l,
      (forall p', p' ∈ l -> str p' <> str p) ->
      Zsum (imap (fun j p' => if decide (str p' = str p)
                              then count k (f j) else 0%Z) l) = 0%Z) as Hzero.
    { intros f l. revert f. induction l as [|p' l IHl]; intros f Hl; [done|].
      simpl. rewrite decide_False by (apply Hl; left).
      transitivity (0 + 0)%Z; [|done]. f_equal.
      apply (IHl (f ∘ S)). intros p'' Hin. apply Hl. by right. }
    rewrite (Hzero S); [lia|].
    intros p' Hin Heq. apply Hnotin. rewrite <- Heq.
    by apply list_elem_of_fmap_2.
  - rewrite decide_False.
    + transitivity (0 + count k (S j))%Z; [|done]. f_equal.
      apply (IH j (fun k' j' => count k' (S j')) Hnd Hj).
    + intros Heq. apply Hnotin. rewrite Heq.
      apply list_elem_of_fmap_2. by eapply list_elem_of_lookup_2.
Qed.

End Aggregation.

(** C8: for W >= 1 workers and samples_per_point >= 0 the batch sizes of the
    W ranks sum to samples_per_point; each rank receives
    samples_per_point // W rounds, plus one when its rank is below
    samples_per_point mod W; and the count that the coordinator stores under
    a rate is the sum, over all workers, of the counts they report for the
    rates printed as that key (for pairwise distinct rates: for that rate). *)
Theorem batches_sum_and_counts_aggregate
    {rate : Type} (str : rate -> string) (samples_per_point : Z)
    (num_cores : nat) (rates : list rate) (count : nat -> nat -> Z) :
  1 <= num_cores -> (0 <= samples_per_point)%Z ->
  Zsum (map (batch_size samples_per_point num_cores) (seq 0 num_cores))
  = samples_per_point
  /\ (forall k,
        batch_size samples_per_point num_cores k
        = (samples_per_point / Z.of_nat num_cores
           + (if (Z.of_nat k <? samples_per_point mod Z.of_nat num_cores)%Z
              then 1 else 0))%Z)
  /\ (forall j p,
        rates !! j = Some p -> str p <> "total_samples" ->
        complete_results str samples_per_point num_cores rates count !! str p
        = Some (Zsum (map (worker_total str count (str p) rates)
                        (seq 0 num_cores)))
        /\ (NoDup (map str rates) ->
            complete_results str samples_per_point num_cores rates count
              !! str p
            = Some (Zsum (map (fun k => count k j) (seq 0 num_cores))))).
Proof.
  intros HW HS. split_and!.
  - by apply batch_size_sum.
  - intros k. unfold batch_size. destruct (_ <? _)%Z; lia.
  - intros j p Hj Hp.
    assert (complete_results str samples_per_point num_cores rates count
              !! str p
            = Some (Zsum (map (worker_total str count (str p) rates)
                            (seq 0 num_cores)))) as Hgen.
    { unfold complete_results.
      rewrite aggregate_lookup_none.
      - by rewrite matching_sum_results.
      - done.
      - by rewrite lookup_singleton_ne.
      - apply Exists_exists.
        exists (local_result_dict samples_per_point num_cores count 0 j p).
        split; [|done].
        apply list_elem_of_In. unfold results_per_batch_per_p_phys.
        apply in_flat_map. exists 0. split.
        + apply in_seq. lia.
        + apply list_elem_of_In, elem_of_lookup_imap. by exists j, p. }
    split; [done|]. intros Hnd. rewrite Hgen. do 2 f_equal.
    apply map_ext. intros k. by apply worker_total_nodup.
Qed.

Lemma batches_sum_and_counts_aggregate_witness :
  Zsum (map (batch_size 10 3) (seq 0 3)) = 10%Z
  /\ batch_size 10 3 0 = 4%Z /\ batch_size 10 3 1 = 3%Z
  /\ complete_results (fun r : string => r) 10 3 ["0.001"; "0.002"]
       (fun k j => Z.of_nat (k + 10 * j)) !! "0.002"
     = Some 33%Z.
Proof.
  destruct (batches_sum_and_counts_aggregate (fun r : string => r) 10 3
              ["0.001"; "0.002"] (fun k j => Z.of_nat (k + 10 * j)))
    as (Hsum & Hbatch & Hcount).
  - lia.
  - lia.
  - split; [exact Hsum|]. split; [exact (Hbatch 0)|].
    split; [exact (Hbatch 1)|].
    destruct (Hcount 1 "0.002") as [_ Hnd].
    + reflexivity.
    + discriminate.
    + apply Hnd. vm_compute. repeat constructor; set_solver.
Defined.





(** ** The decoder *)

Lemma zero_extend_length cfg c :
  2 * num_data_qubits cfg <= length c ->
  length (zero_extend cfg c) = 2 * num_all_qubits cfg.
Proof.
  intros Hc. unfold zero_extend, num_all_qubits.
  rewrite !length_app, !length_take, length_drop, !length_zeros. lia.
Qed.

Lemma zero_extend_data cfg c i :
  2 * num_data_qubits cfg <= length c -> i < num_data_qubits cfg ->
  zero_extend cfg c !! i = c !! i
  /\ zero_extend cfg c !! (num_all_qubits cfg + i) = c !! (num_data_qubits cfg + i).
Proof.
  intros Hc Hi. unfold zero_extend, num_all_qubits. split.
  - rewrite lookup_app_l by (rewrite length_take; lia).
    by rewrite lookup_take_lt.
  - rewrite lookup_app_r by (rewrite length_take; lia).
    rewrite lookup_app_r by (rewrite length_take, length_zeros; lia).
    rewrite length_take, length_zeros.
    rewrite lookup_app_l by (rewrite length_take, length_drop; lia).
    rewrite lookup_take_lt by lia. rewrite lookup_drop. f_equal. lia.
Qed.

Lemma zero_extend_ancilla_flag cfg c i :
  2 * num_data_qubits cfg <= length c ->
  num_data_qubits cfg <= i < num_all_qubits cfg ->
  zero_extend cfg c !! i = Some false
  /\ zero_extend cfg c !! (num_all_qubits cfg + i) = Some false.
Proof.
  intros Hc Hi. unfold zero_extend, num_all_qubits in *. split.
  - rewrite lookup_app_r by (rewrite length_take; lia).
    rewrite lookup_app_l by (rewrite length_take, length_zeros; lia).
    apply lookup_replicate_2. rewrite length_take. lia.
  - rewrite lookup_app_r by (rewrite length_take; lia).
    rewrite lookup_app_r by (rewrite length_take, length_zeros; lia).
    rewrite lookup_app_r
      by (rewrite !length_take, length_drop, length_zeros; lia).
    apply lookup_replicate_2.
    rewrite !length_take, length_drop, length_zeros. lia.
Qed.

(** The five-qubit weight-1 table used as a one-level table: the
    correction is stored directly under the 1st-subround key. *)
Definition one_level_protocol : config :=
  qec_flag_stabilizer_base_init 5 1 1 (Terminal <$> five_qubit_code_no_flag_LUT)
    [[1; 1; 1; 1; 1; 0; 0; 0; 0; 0]; [0; 0; 0; 0; 0; 1; 1; 1; 1; 1]]%Z
    CHAO_CKT_LVL_NOISE_WITHOUT_IDLING.

(** The 1st-subround key "[0 0 0 1]", no 2nd-subround record, and an X
    error on the first data qubit. *)
Definition store_one_level : store :=
  set_syndrome_n_flag_1st_subround (PyStr "[0 0 0 1]") store_with_X0.

(** What C1 says of an outer value that is itself terminal: the decoder
    applies that correction. *)
Definition applies_terminal_correction (cfg : config) (w : world) : Prop :=
  forall k c,
    syndrome_n_flag_1st_subround (snd w) = PyStr k ->
    syndrome_lookup_table cfg !! k = Some (Terminal c) ->
    exists w',
      syndrome_decoding cfg w = Ok (tt, w')
      /\ pauli_accumulator (snd w')
         = zip_with xorb (pauli_accumulator (snd w)) (zero_extend cfg c).

(** C1 as stated fails: with the correction for "[0 0 0 1]" stored directly
    under the outer key, and an accumulator carrying exactly that error,
    the decoder leaves the accumulator as it is. *)
Lemma terminal_value_counterexample :
  syndrome_decoding one_level_protocol (0, store_one_level)
  = Ok (tt, (0, store_one_level))
  /\ ~ applies_terminal_correction one_level_protocol (0, store_one_level).
Proof.
  split; [vm_compute; reflexivity|].
  intros Happ.
  destruct (Happ "[0 0 0 1]" (vec [1; 0; 0; 0; 0; 0; 0; 0; 0; 0]))
    as (w' & Hrun & Hacc).
  - reflexivity.
  - vm_compute. reflexivity.
  - vm_compute in Hrun. injection Hrun as <-. vm_compute in Hacc.
    discriminate Hacc.
Qed.

(** C1, amended: let the two records be [None] or strings.  When the
    1st-subround record is a key of the outer table, the value under it is
    an inner table, and the 2nd-subround record is a key of that inner
    table, [syndrome_decoding] replaces the accumulator (of length 2N) by
    its XOR with the correction found there (at least 2k entries for k data
    qubits), zero-extended over the ancilla and flag positions.  In every
    other case, a miss at either level or a value stored directly under the
    outer key, it changes nothing. *)
Theorem syndrome_decoding_two_level_lookup
    (cfg : config) (n : nat) (s : store) (k1 k2 : option string) :
  record_key (syndrome_n_flag_1st_subround s) = Ok k1 ->
  record_key (syndrome_2nd_subround s) = Ok k2 ->
  (forall s1 s2 t c,
     k1 = Some s1 -> k2 = Some s2 ->
     syndrome_lookup_table cfg !! s1 = Some (Inner t) -> t !! s2 = Some c ->
     wf cfg s -> 2 * num_data_qubits cfg <= length c ->
     syndrome_decoding cfg (n, s)
     = Ok (tt, (n, set_pauli_accumulator
                     (zip_with xorb (pauli_accumulator s) (zero_extend cfg c)) s))
     /\ (forall i, i < num_data_qubits cfg ->
           zero_extend cfg c !! i = c !! i
           /\ zero_extend cfg c !! (num_all_qubits cfg + i)
              = c !! (num_data_qubits cfg + i))
     /\ (forall i, num_data_qubits cfg <= i < num_all_qubits cfg ->
           zero_extend cfg c !! i = Some false
           /\ zero_extend cfg c !! (num_all_qubits cfg + i) = Some false))
  /\ ((forall s1 s2 t c,
         k1 = Some s1 -> k2 = Some s2 ->
         syndrome_lookup_table cfg !! s1 = Some (Inner t) -> t !! s2 = Some c ->
         False) ->
      syndrome_decoding cfg (n, s) = Ok (tt, (n, s))).
Proof.
  intros Hk1 Hk2. split.
  - intros s1 s2 t c -> -> Hlut Ht Hw Hc. split_and!.
    + unfold syndrome_decoding, bind, gets, lift. simpl.
      rewrite Hk1. simpl. rewrite Hlut. simpl. rewrite Hk2. simpl. rewrite Ht.
      unfold xor_into_accumulator, bind, gets, lift, modify. simpl.
      rewrite np_logical_xor_ok; [done|].
      rewrite zero_extend_length by done. exact Hw.
    + intros i Hi. by apply zero_extend_data.
    + intros i Hi. by apply zero_extend_ancilla_flag.
  - intros Hmiss. unfold syndrome_decoding, bind, gets, lift. simpl.
    rewrite Hk1. simpl.
    destruct k1 as [s1|]; simpl; [|done].
    destruct (syndrome_lookup_table cfg !! s1) as [v|] eqn:Hlut; [|done].
    simpl. rewrite Hk2. simpl.
    destruct v as [t|c]; simpl; [|done].
    destruct k2 as [s2|]; simpl; [|done].
    destruct (t !! s2) as [c|] eqn:Ht; [|done].
    destruct (Hmiss s1 s2 t c eq_refl eq_refl Hlut Ht).
Qed.

(** The records after a nonzero syndrome on generator 1 and the remeasured
    syndrome "[0 0 0 1]", with an X error on the first data qubit. *)
Definition store_hit : store :=
  set_syndrome_2nd_subround (PyStr "[0 0 0 1]")
    (set_syndrome_n_flag_1st_subround
       (PyStr "[[1 0] [None None] [None None] [None None]]") store_with_X0).

Lemma syndrome_decoding_two_level_lookup_witness :
  syndrome_decoding chao_protocol (0, store_hit)
  = Ok (tt, (0, set_pauli_accumulator (zeros 14) store_hit))
  /\ syndrome_decoding chao_protocol (0, fresh_store chao_protocol 1)
     = Ok (tt, (0, fresh_store chao_protocol 1)).
Proof.
  split.
  - destruct (syndrome_decoding_two_level_lookup chao_protocol 0 store_hit
                (Some "[[1 0] [None None] [None None] [None None]]")
                (Some "[0 0 0 1]") eq_refl eq_refl) as [Hhit _].
    destruct (Hhit "[[1 0] [None None] [None None] [None None]]" "[0 0 0 1]"
                five_qubit_code_no_flag_LUT
                (vec [1; 0; 0; 0; 0; 0; 0; 0; 0; 0]) eq_refl eq_refl)
      as (Hrun & _).
    + vm_compute. reflexivity.
    + vm_compute. reflexivity.
    + reflexivity.
    + simpl. lia.
    + exact Hrun.
  - destruct (syndrome_decoding_two_level_lookup chao_protocol 0
                (fresh_store chao_protocol 1) None None eq_refl eq_refl)
      as [_ Hmiss].
    apply Hmiss. intros s1 s2 t c Hk. discriminate Hk.
Defined.

(** ** Logical-error tracking *)

(** The accumulator restricted to the data qubits: X bits, then Z bits. *)
Definition data_projection (cfg : config) (acc : list bool) : list bool :=
  take (num_data_qubits cfg) acc
  ++ take (num_data_qubits cfg) (drop (num_all_qubits cfg) acc).

(** The symplectic inner product mod 2 of a binary vector (x | z) and an
    operator (x' | z') on k qubits: x.z' + z.x'. *)
Definition symplectic_product (cfg : config) (a : list bool) (op : list Z) : Z :=
  ((dot (take (num_data_qubits cfg) a) (drop (num_data_qubits cfg) op)
    + dot (drop (num_data_qubits cfg) a) (take (num_data_qubits cfg) op))
   mod 2)%Z.

Lemma dot_app a1 a2 v1 v2 :
  length a1 = length v1 ->
  dot (a1 ++ a2) (v1 ++ v2) = (dot a1 v1 + dot a2 v2)%Z.
Proof.
  revert v1. induction a1 as [|x a1 IH]; intros [|y v1] Hlen; try done.
  simpl in Hlen. unfold dot in *. simpl. rewrite IH by lia. lia.
Qed.

Lemma dot_swap_halves cfg a op :
  length a = 2 * num_data_qubits cfg -> length op = 2 * num_data_qubits cfg ->
  (dot a (swap_halves cfg op) mod 2)%Z = symplectic_product cfg a op.
Proof.
  intros Ha Hop. unfold symplectic_product, swap_halves.
  rewrite <- (take_drop (num_data_qubits cfg) a) at 1.
  rewrite dot_app; [done|]. rewrite length_take, length_drop. lia.
Qed.

Lemma data_projection_length cfg acc :
  length acc = 2 * num_all_qubits cfg ->
  length (data_projection cfg acc) = 2 * num_data_qubits cfg.
Proof.
  intros Hacc. unfold data_projection, num_all_qubits in *.
  rewrite length_app, !length_take, length_drop. lia.
Qed.

Lemma commutation_vector_ok cfg a :
  Forall (fun op => length op = 2 * num_data_qubits cfg) (logical_ops cfg) ->
  length a = 2 * num_data_qubits cfg ->
  commutation_vector cfg a
  = Ok (map (symplectic_product cfg a) (logical_ops cfg)).
Proof.
  intros Hops Ha. unfold commutation_vector.
  assert (forallb (fun op => length op =? 2 * num_data_qubits cfg)
            (logical_ops cfg) = true) as ->.
  { apply forallb_forall. intros op Hin. apply Nat.eqb_eq.
    rewrite Forall_forall in Hops. by apply Hops, list_elem_of_In. }
  rewrite (proj2 (Nat.eqb_eq _ _) Ha). simpl. f_equal.
  apply map_ext_in. intros op Hin. apply dot_swap_halves; [done|].
  rewrite Forall_forall in Hops. by apply Hops, list_elem_of_In.
Qed.








(** * The accumulator is updated by XOR *)

(** ** Bit strings under XOR *)

Definition xor_strings (a b : list bool) : list bool := zip_with xorb a b.

(** [acc[i]] as a bit; an index past the end reads as 0 here, the engine
    raises there. *)
Definition bit (acc : list bool) (i : nat) : bool := default false (acc !! i).

Lemma xor_strings_assoc a b c :
  xor_strings (xor_strings a b) c = xor_strings a (xor_strings b c).
Proof.
  revert b c. induction a as [|x a IH]; intros [|y b] [|z c]; simpl; try done.
  unfold xor_strings in *. simpl. by rewrite IH, xorb_assoc_reverse.
Qed.

Lemma xor_strings_zeros_r a n : length a <= n -> xor_strings a (zeros n) = a.
Proof.
  revert n. induction a as [|x a IH]; intros [|n] Hn; simpl in *; try done; try lia.
  unfold xor_strings, zeros in *. simpl. rewrite xorb_false_r. f_equal.
  apply IH. lia.
Qed.

Lemma xor_strings_zeros_l a n : length a <= n -> xor_strings (zeros n) a = a.
Proof.
  revert n. induction a as [|x a IH]; intros [|n] Hn; simpl in *; try done; try lia.
  unfold xor_strings, zeros in *. simpl. f_equal. apply IH. lia.
Qed.

Lemma length_xor_strings a b n :
  length a = n -> length b = n -> length (xor_strings a b) = n.
Proof. intros Ha Hb. unfold xor_strings. rewrite length_zip_with. lia. Qed.

(** Clearing a position commutes with XOR by a string that is 0 there. *)
Lemma insert_false_xor_strings a e i :
  <[i:=false]> e = e ->
  <[i:=false]> (xor_strings a e) = xor_strings (<[i:=false]> a) e.
Proof.
  intros He. rewrite <- He at 2. unfold xor_strings.
  by rewrite <- insert_zip_with.
Qed.

Lemma bit_lookup acc i : i < length acc -> acc !! i = Some (bit acc i).
Proof.
  intros Hi. unfold bit.
  by destruct (lookup_lt_is_Some_2 acc i Hi) as [x ->].
Qed.

Section XorUpdate.

Context (cfg : config).

Local Abbreviation N := (num_all_qubits cfg).

(** The string of a directed Pauli, as [single_qubit_pauli_error] builds
    it. *)
Definition pauli_vec (pauli_idx qubit_idx : nat) : list bool :=
  match pauli_idx with
  | 1 => <[qubit_idx := true]> (zeros (2 * N))
  | 2 => <[qubit_idx + N := true]> (<[qubit_idx := true]> (zeros (2 * N)))
  | 3 => <[qubit_idx + N := true]> (zeros (2 * N))
  | _ => zeros (2 * N)
  end.

(** The string that a logged fault contributes; a measurement fault flips
    the reported bit only. *)
Definition fault_string (f : fault) : list bool :=
  match f with
  | Fault1 p q => pauli_vec p q
  | Fault2 p1 p2 q1 q2 => xor_strings (pauli_vec p1 q1) (pauli_vec p2 q2)
  | FaultMeas _ => zeros (2 * N)
  end.

Definition faults_string (l : list fault) : list bool :=
  foldr (fun f a => xor_strings (fault_string f) a) (zeros (2 * N)) l.

(** (Re)preparation of a qubit: both of its bits become 0. *)
Definition clear_qubit (q : nat) (acc : list bool) : list bool :=
  <[q + N := false]> (<[q := false]> acc).

Definition clear_qubits (qs : list nat) (acc : list bool) : list bool :=
  foldl (fun a q => clear_qubit q a) acc qs.

(** [if cond: error_string[i] = 1] on a fresh string. *)
Definition unit_if (cond : bool) (i : nat) : list bool :=
  if cond then <[i := true]> (zeros (2 * N)) else zeros (2 * N).

(** The qubits that a call prepares. *)
Definition prepared (c : engine_call) : list nat :=
  match c with
  | Prepare_Z_basis q | Prepare_X_basis q => [q]
  | Reset_ancilla => anc_qubits cfg
  | Reset_flag => flag_qubits cfg
  | _ => []
  end.

(** The string by which a gate propagates the accumulator [acc]: the
    strings that the gate builds from the bits it reads, composed.  For
    [h], exchanging the two bits of the qubit is XOR by a Y on it when
    they differ. *)
Definition propagation_string (c : engine_call) (acc : list bool) : list bool :=
  match c with
  | H q _ _ =>
      if xorb (bit acc q) (bit acc (q + N)) then pauli_vec 2 q else zeros (2 * N)
  | Cnot c t _ _ =>
      xor_strings (unit_if (bit acc c) t) (unit_if (bit acc (t + N)) (c + N))
  | Xnot a b _ _ =>
      xor_strings (unit_if (bit acc (a + N)) b) (unit_if (bit acc (b + N)) a)
  | Ynot o y _ _ =>
      xor_strings
        (xor_strings (if bit acc (o + N) then pauli_vec 2 y else zeros (2 * N))
           (unit_if (bit acc y) o))
        (unit_if (bit acc (y + N)) o)
  | Cz a b _ _ =>
      xor_strings (unit_if (bit acc a) (b + N)) (unit_if (bit acc b) (a + N))
  | _ => zeros (2 * N)
  end.

(** The accumulator before the faults of the call are composed in. *)
Definition propagated (c : engine_call) (acc : list bool) : list bool :=
  xor_strings (clear_qubits (prepared c) acc) (propagation_string c acc).

Definition is_measurement (c : engine_call) : bool :=
  match c with
  | Measure_Z_basis _ | Measure_X_basis _ => true
  | _ => false
  end.

(** The qubits that a call names exist. *)
Definition valid_call (c : engine_call) : Prop :=
  match c with
  | Prepare_Z_basis q | Prepare_X_basis q | H q _ _
  | Single_qubit_X_error q | Single_qubit_Z_error q | Single_qubit_Y_error q
  | Single_qubit_pauli_error _ q | Single_qubit_depol_error q
  | Measure_Z_basis q | Measure_X_basis q => q < N
  | Cnot a b _ _ | Xnot a b _ _ | Ynot a b _ _ | Cz a b _ _
  | Two_qubit_pauli_error _ _ a b | Two_qubit_gate_depol_error a b =>
      a < N /\ b < N
  | Two_qubit_gate_error tc _ a b =>
      a < N /\ b < N
      /\ match tc with
         | Some t => qubit_idx1 t < N /\ qubit_idx2 t < N
         | None => True
         end
  | Reset_ancilla | Reset_flag | One_stochastic_pauli_error_data_qubits => True
  end.

Lemma length_pauli_vec p q : length (pauli_vec p q) = 2 * N.
Proof.
  destruct p as [|[|[|[|?]]]]; unfold pauli_vec;
    by rewrite ?length_insert, length_zeros.
Qed.

Lemma length_unit_if b i : length (unit_if b i) = 2 * N.
Proof. destruct b; unfold unit_if; by rewrite ?length_insert, length_zeros. Qed.

Lemma length_fault_string f : length (fault_string f) = 2 * N.
Proof.
  destruct f; simpl; [apply length_pauli_vec| |apply length_zeros].
  apply length_xor_strings; apply length_pauli_vec.
Qed.

Lemma length_faults_string l : length (faults_string l) = 2 * N.
Proof.
  induction l as [|f l IH]; simpl; [apply length_zeros|].
  apply length_xor_strings; [apply length_fault_string | done].
Qed.

Lemma faults_string_app l1 l2 :
  faults_string (l1 ++ l2) = xor_strings (faults_string l1) (faults_string l2).
Proof.
  induction l1 as [|f l1 IH]; simpl.
  - rewrite xor_strings_zeros_l; [done|]. by rewrite length_faults_string.
  - by rewrite IH, xor_strings_assoc.
Qed.

Lemma faults_string_one f : faults_string [f] = fault_string f.
Proof.
  simpl. apply xor_strings_zeros_r. by rewrite length_fault_string.
Qed.

Lemma length_clear_qubit q acc : length (clear_qubit q acc) = length acc.
Proof. unfold clear_qubit. by rewrite !length_insert. Qed.

Lemma length_clear_qubits qs acc : length (clear_qubits qs acc) = length acc.
Proof.
  revert acc. induction qs as [|q qs IH]; intros acc; [done|].
  change (length (clear_qubits qs (clear_qubit q acc)) = length acc).
  by rewrite IH, length_clear_qubit.
Qed.

Lemma length_propagation_string c acc : length (propagation_string c acc) = 2 * N.
Proof.
  destruct c; cbn [propagation_string];
    repeat first
      [ apply length_zeros | apply length_pauli_vec | apply length_unit_if
      | apply length_xor_strings
      | match goal with |- context [if ?b then _ else _] => destruct b end ].
Qed.

Lemma length_propagated c acc :
  length acc = 2 * N -> length (propagated c acc) = 2 * N.
Proof.
  intros Hacc. apply length_xor_strings.
  - by rewrite length_clear_qubits.
  - apply length_propagation_string.
Qed.

Lemma pauli_string_ok p q : q < N -> pauli_string cfg p q = Ok (pauli_vec p q).
Proof.
  intros Hq. unfold pauli_string, pauli_vec.
  destruct p as [|[|[|[|?]]]]; try done;
    by rewrite ?setitem_ok by (rewrite ?length_insert, length_zeros; lia).
Qed.

(** Clearing qubits commutes with XOR by a string that is 0 on them. *)
Lemma clear_qubit_xor_strings q a e :
  <[q:=false]> e = e -> <[q + N:=false]> e = e ->
  clear_qubit q (xor_strings a e) = xor_strings (clear_qubit q a) e.
Proof.
  intros H1 H2. unfold clear_qubit.
  by rewrite (insert_false_xor_strings _ _ _ H1), (insert_false_xor_strings _ _ _ H2).
Qed.

Lemma clear_qubits_xor_strings qs a e :
  Forall (fun q => <[q:=false]> e = e /\ <[q + N:=false]> e = e) qs ->
  clear_qubits qs (xor_strings a e) = xor_strings (clear_qubits qs a) e.
Proof.
  intros Hqs. revert a. induction Hqs as [|q qs [H1 H2] _ IH]; intros a; [done|].
  change (clear_qubits qs (clear_qubit q (xor_strings a e))
          = xor_strings (clear_qubits qs (clear_qubit q a)) e).
  rewrite clear_qubit_xor_strings by done. apply IH.
Qed.

Lemma insert_false_unit i j :
  i <> j -> <[i:=false]> (<[j:=true]> (zeros (2 * N))) = <[j:=true]> (zeros (2 * N)).
Proof.
  intros Hij. rewrite list_insert_insert_ne by done.
  unfold zeros. by rewrite insert_replicate.
Qed.

(** [h] exchanges the two bits of its qubit. *)
Lemma swap_is_xor q tc loc acc :
  length acc = 2 * N -> q < N ->
  <[q + N := bit acc q]> (<[q := bit acc (q + N)]> acc)
  = xor_strings acc (propagation_string (H q tc loc) acc).
Proof.
  intros Hacc Hq. cbn [propagation_string].
  assert (acc !! q = Some (bit acc q)) as Hx by (apply bit_lookup; lia).
  assert (acc !! (q + N) = Some (bit acc (q + N))) as Hz by (apply bit_lookup; lia).
  revert Hx Hz. generalize (bit acc q) (bit acc (q + N)). intros x z Hx Hz.
  assert (<[q + N := z]> (<[q := x]> acc) = acc) as Hid.
  { rewrite (list_insert_id acc q) by done. by apply list_insert_id. }
  destruct (xorb x z) eqn:Exz.
  - rewrite <- Hid at 2. unfold xor_strings, pauli_vec.
    rewrite <- !insert_zip_with.
    fold (xor_strings acc (zeros (2 * N))). rewrite xor_strings_zeros_r by lia.
    by destruct x, z.
  - rewrite xor_strings_zeros_r by lia. rewrite <- Hid at 2.
    by destruct x, z.
Qed.

End XorUpdate.

(** ** Faults compose by XOR *)

Section XorEngine.

Context (cfg : config) (draws : nat -> Q).

Local Abbreviation N := (num_all_qubits cfg).

(** [injected s s']: between [s] and [s'] faults were logged and their
    strings composed into the accumulator; nothing else touched it. *)
Definition injected (s s' : store) : Prop :=
  exists new,
    fault_log s' = fault_log s ++ new
    /\ pauli_accumulator s'
       = xor_strings (pauli_accumulator s) (faults_string cfg new).

#[global] Instance injected_rel : SpecRel (wf cfg) injected.
Proof.
  split.
  - intros s Hs. exists []. split; [by rewrite app_nil_r|].
    unfold wf in Hs. cbn [faults_string foldr].
    by rewrite xor_strings_zeros_r by lia.
  - intros s1 s2 s3 (new1 & Hl1 & Ha1) (new2 & Hl2 & Ha2).
    exists (new1 ++ new2). split.
    + by rewrite Hl2, Hl1, app_assoc.
    + by rewrite Ha2, Ha1, xor_strings_assoc, faults_string_app.
Qed.

Definition injects {A} (R : A -> Prop) (m : M A) : Prop :=
  spec no_exn (wf cfg) injected R m.

Lemma injects_ret_any {A} (a : A) : injects (fun _ => True) (ret a).
Proof. by apply (spec_ret no_exn _ injected). Qed.

Lemma injects_bind {A B} (R1 : A -> Prop) (R2 : B -> Prop) (m : M A) (k : A -> M B) :
  injects R1 m -> (forall a, R1 a -> injects R2 (k a)) -> injects R2 (bind m k).
Proof. apply (spec_bind no_exn _ injected). Qed.

Lemma injects_uniform : injects (fun _ => True) (uniform draws).
Proof. apply (spec_uniform no_exn _ injected). Qed.

Lemma injects_fires thr : injects (fun _ => True) (fires draws thr).
Proof. apply (spec_fires no_exn _ injected). Qed.

Lemma injects_lift_ok {A B} (R : B -> Prop) (r : res A) (a : A) (k : A -> M B) :
  r = Ok a -> injects R (k a) -> injects R (bind (lift r) k).
Proof. intros -> Hk w Hw. apply wp_bind. exact (Hk w Hw). Qed.

(** A fault: its string goes into the accumulator, its name into the
    log. *)
Lemma injects_fault e f :
  e = fault_string cfg f ->
  injects (fun _ => True) (xor_into_accumulator e ;; modify (log_fault f)).
Proof.
  intros -> [n s] Hs. unfold wf in Hs. cbn [snd] in Hs.
  unfold wp, xor_into_accumulator, bind, gets, lift, modify.
  cbn [snd fst].
  rewrite np_logical_xor_ok by (rewrite length_fault_string; lia).
  cbn [snd fst]. split_and!; [done| |].
  - unfold wf. cbn. apply length_xor_strings; [done|apply length_fault_string].
  - exists [f]. split; [done|]. cbn [log_fault set_pauli_accumulator pauli_accumulator].
    by rewrite faults_string_one.
Qed.

Lemma injects_single_qubit_X_error q thr :
  q < N -> injects (fun _ => True) (single_qubit_X_error cfg draws q thr).
Proof.
  intros Hq. unfold single_qubit_X_error.
  eapply injects_bind; [apply injects_fires|]. intros [] _; [|apply injects_ret_any].
  eapply injects_lift_ok; [apply setitem_ok; rewrite length_zeros; lia|].
  by apply injects_fault.
Qed.

Lemma injects_single_qubit_Z_error q thr :
  q < N -> injects (fun _ => True) (single_qubit_Z_error cfg draws q thr).
Proof.
  intros Hq. unfold single_qubit_Z_error.
  eapply injects_bind; [apply injects_fires|]. intros [] _; [|apply injects_ret_any].
  eapply injects_lift_ok; [apply setitem_ok; rewrite length_zeros; lia|].
  by apply injects_fault.
Qed.

Lemma injects_single_qubit_Y_error q thr :
  q < N -> injects (fun _ => True) (single_qubit_Y_error cfg draws q thr).
Proof.
  intros Hq. unfold single_qubit_Y_error.
  eapply injects_bind; [apply injects_fires|]. intros [] _; [|apply injects_ret_any].
  eapply injects_lift_ok; [apply setitem_ok; rewrite length_zeros; lia|].
  eapply injects_lift_ok;
    [apply setitem_ok; rewrite length_insert, length_zeros; lia|].
  by apply injects_fault.
Qed.

Lemma injects_single_qubit_pauli_error i q :
  q < N -> injects (fun _ => True) (single_qubit_pauli_error cfg i q).
Proof.
  intros Hq. unfold single_qubit_pauli_error.
  eapply injects_lift_ok; [by apply pauli_string_ok|].
  by apply injects_fault.
Qed.

Lemma injects_single_qubit_depol_error q thr :
  q < N -> injects (fun _ => True) (single_qubit_depol_error cfg draws q thr).
Proof.
  intros Hq. unfold single_qubit_depol_error.
  eapply injects_bind; [apply injects_fires|]. intros [] _; [|apply injects_ret_any].
  eapply injects_bind; [apply injects_uniform|]. intros dec _.
  by apply injects_single_qubit_pauli_error.
Qed.

Lemma injects_one_stochastic_loop qs thr :
  Forall (fun q => q < N) qs ->
  injects (fun _ => True) (one_stochastic_loop cfg draws qs thr).
Proof.
  induction 1 as [|q qs Hq Hqs IH]; simpl; [apply injects_ret_any|].
  eapply injects_bind; [apply injects_fires|]. intros b _.
  eapply injects_bind with (R1 := fun _ => True); [|by intros].
  destruct b; [|apply injects_ret_any].
  eapply injects_bind; [apply injects_uniform|]. intros dec _.
  by apply injects_single_qubit_pauli_error.
Qed.

Lemma injects_one_stochastic_pauli_error_data_qubits thr :
  injects (fun _ => True) (one_stochastic_pauli_error_data_qubits cfg draws thr).
Proof.
  apply injects_one_stochastic_loop. apply Forall_forall. intros q Hq.
  apply list_elem_of_In, in_seq in Hq. unfold num_all_qubits. lia.
Qed.

Lemma injects_two_qubit_pauli_error i1 i2 q1 q2 :
  q1 < N -> q2 < N ->
  injects (fun _ => True) (two_qubit_pauli_error cfg i1 i2 q1 q2).
Proof.
  intros H1 H2. unfold two_qubit_pauli_error.
  eapply injects_lift_ok; [by apply pauli_string_ok|].
  eapply injects_lift_ok; [by apply pauli_string_ok|].
  intros [n s] Hs. unfold wf in Hs. cbn [snd] in Hs.
  unfold wp, xor_into_accumulator, bind, gets, lift, modify.
  cbn [snd fst].
  rewrite np_logical_xor_ok by (rewrite length_pauli_vec; lia).
  cbn [snd fst set_pauli_accumulator pauli_accumulator].
  rewrite np_logical_xor_ok
    by (rewrite length_zip_with, !length_pauli_vec; lia).
  cbn [snd fst]. split_and!; [done| |].
  - unfold wf. cbn.
    repeat apply length_xor_strings; done || apply length_pauli_vec.
  - exists [Fault2 i1 i2 q1 q2]. split; [done|].
    cbn [log_fault set_pauli_accumulator pauli_accumulator].
    rewrite faults_string_one. cbn [fault_string].
    apply xor_strings_assoc.
Qed.

Lemma injects_two_qubit_gate_depol_error q1 q2 thr :
  q1 < N -> q2 < N ->
  injects (fun _ => True) (two_qubit_gate_depol_error cfg draws q1 q2 thr).
Proof.
  intros H1 H2. unfold two_qubit_gate_depol_error.
  eapply injects_bind; [apply injects_fires|]. intros [] _; [|apply injects_ret_any].
  eapply injects_bind; [apply injects_uniform|]. intros dec _.
  by apply injects_two_qubit_pauli_error.
Qed.

Lemma injects_two_qubit_gate_error tc loc q1 q2 thr :
  q1 < N -> q2 < N ->
  match tc with
  | Some t => qubit_idx1 t < N /\ qubit_idx2 t < N
  | None => True
  end ->
  injects (fun _ => True) (two_qubit_gate_error cfg draws tc loc q1 q2 thr).
Proof.
  intros H1 H2 Htc. unfold two_qubit_gate_error. destruct tc as [t|].
  - destruct Htc. destruct (_ && _); [|apply injects_ret_any].
    by apply injects_two_qubit_pauli_error.
  - by apply injects_two_qubit_gate_depol_error.
Qed.

End XorEngine.

(** ** The calls of the engine, one by one *)

Section XorCalls.

Context (cfg : config) (draws : nat -> Q) (p : Q).

Local Abbreviation N := (num_all_qubits cfg).

(** What a call does to the store [s] it starts from: it logs faults, and
    the accumulator becomes the propagated one composed with the strings of
    those faults. *)
Definition xor_update (c : engine_call) (s s' : store) : Prop :=
  exists new,
    fault_log s' = fault_log s ++ new
    /\ pauli_accumulator s'
       = xor_strings (propagated cfg c (pauli_accumulator s))
           (faults_string cfg new).

Definition updated (c : engine_call) (s : store) (w' : world) : Prop :=
  wf cfg (snd w') /\ xor_update c s (snd w').

Lemma wp_read {B} E i (k : bool -> M B) Q n s :
  i < length (pauli_accumulator s) ->
  wp E (k (bit (pauli_accumulator s) i)) Q (n, s) ->
  wp E (bind (read_accumulator i) k) Q (n, s).
Proof.
  intros Hi Hk. apply wp_bind.
  unfold wp at 1, read_accumulator, bind, gets, lift, getitem. cbn [snd fst].
  by rewrite (bit_lookup _ _ Hi).
Qed.

Lemma wp_assign {B} E i b (k : unit -> M B) Q n s :
  i < length (pauli_accumulator s) ->
  wp E (k tt) Q (n, set_pauli_accumulator (<[i:=b]> (pauli_accumulator s)) s) ->
  wp E (bind (assign_accumulator i b) k) Q (n, s).
Proof.
  intros Hi Hk. apply wp_bind.
  unfold wp at 1, assign_accumulator, bind, gets, lift, modify. cbn [snd fst].
  by rewrite setitem_ok.
Qed.

Lemma wp_xor {B} E e (k : unit -> M B) Q n s :
  length (pauli_accumulator s) = length e ->
  wp E (k tt) Q (n, set_pauli_accumulator (xor_strings (pauli_accumulator s) e) s) ->
  wp E (bind (xor_into_accumulator e) k) Q (n, s).
Proof.
  intros He Hk. apply wp_bind.
  unfold wp at 1, xor_into_accumulator, bind, gets, lift, modify. cbn [snd fst].
  by rewrite np_logical_xor_ok.
Qed.

Lemma wp_set_if {B} E b i (k : list bool -> M B) Q w :
  i < 2 * N ->
  wp E (k (unit_if cfg b i)) Q w ->
  wp E (bind (lift (set_if b (zeros (2 * N)) i)) k) Q w.
Proof.
  intros Hi Hk. eapply wp_bind_lift; [|exact Hk].
  unfold set_if, unit_if. destruct b; [|done].
  apply setitem_ok. by rewrite length_zeros.
Qed.

(** The faults of a call, from the store [s1] that its propagation
    reached. *)
Lemma wp_injects {A} (R : A -> Prop) (m : M A) c n s s1 :
  injects cfg R m -> wf cfg s ->
  fault_log s1 = fault_log s ->
  pauli_accumulator s1 = propagated cfg c (pauli_accumulator s) ->
  wp no_exn m (fun _ w' => updated c s w') (n, s1).
Proof.
  intros Hm Hs Hl Ha. eapply wp_mono; [|apply Hm].
  - intros a w' (_ & Hwf & new & Hl' & Ha'). split; [done|].
    exists new. cbn [snd] in *. by rewrite Hl', Hl, Ha', Ha.
  - unfold wf. cbn [snd]. rewrite Ha. by apply length_propagated.
Qed.

Lemma propagated_id c acc :
  prepared cfg c = [] -> propagation_string cfg c acc = zeros (2 * N) ->
  length acc = 2 * N -> propagated cfg c acc = acc.
Proof.
  intros Hp He Hacc. unfold propagated. rewrite Hp, He.
  cbn [clear_qubits foldl]. apply xor_strings_zeros_r. lia.
Qed.

Lemma propagated_gate c acc :
  prepared cfg c = [] ->
  propagated cfg c acc = xor_strings acc (propagation_string cfg c acc).
Proof. intros Hp. unfold propagated. by rewrite Hp. Qed.

Lemma propagated_preparation c acc :
  propagation_string cfg c acc = zeros (2 * N) -> length acc = 2 * N ->
  propagated cfg c acc = clear_qubits cfg (prepared cfg c) acc.
Proof.
  intros He Hacc. unfold propagated. rewrite He.
  apply xor_strings_zeros_r. rewrite length_clear_qubits. lia.
Qed.

(** *** Preparations *)

Lemma wp_clear_qubit {B} E q (k : M B) Q n s :
  wf cfg s -> q < N ->
  wp E k Q (n, set_pauli_accumulator (clear_qubit cfg q (pauli_accumulator s)) s) ->
  wp E (assign_accumulator q false ;; assign_accumulator (q + N) false ;; k)
    Q (n, s).
Proof.
  intros Hs Hq Hk. unfold wf in Hs.
  apply wp_assign; [lia|]. apply wp_assign; [|exact Hk].
  cbn [pauli_accumulator set_pauli_accumulator]. rewrite length_insert. lia.
Qed.

Lemma prepare_Z_basis_updated q n s :
  wf cfg s -> q < N ->
  wp no_exn (prepare_Z_basis cfg draws q p)
    (fun _ w' => updated (Prepare_Z_basis q) s w') (n, s).
Proof.
  intros Hs Hq. unfold prepare_Z_basis. apply wp_clear_qubit; [done..|].
  eapply wp_injects; [by apply injects_single_qubit_X_error|done|done|].
  by rewrite propagated_preparation.
Qed.

Lemma prepare_X_basis_updated q n s :
  wf cfg s -> q < N ->
  wp no_exn (prepare_X_basis cfg draws q p)
    (fun _ w' => updated (Prepare_X_basis q) s w') (n, s).
Proof.
  intros Hs Hq. unfold prepare_X_basis. apply wp_clear_qubit; [done..|].
  eapply wp_injects; [by apply injects_single_qubit_Z_error|done|done|].
  by rewrite propagated_preparation.
Qed.

(** *** Resets

    A reset prepares one qubit after the other; the fault of an earlier
    qubit is on none of the later ones, so that clearing those leaves it
    in place. *)
Definition reset_outcome (qs : list nat) (s : store) (w' : world) : Prop :=
  wf cfg (snd w')
  /\ exists new,
       fault_log (snd w') = fault_log s ++ new
       /\ pauli_accumulator (snd w')
          = xor_strings (clear_qubits cfg qs (pauli_accumulator s))
              (faults_string cfg new).

(** [e] is 0 on both bits of qubit [q]. *)
Definition zero_on (e : list bool) (q : nat) : Prop :=
  <[q:=false]> e = e /\ <[q + N:=false]> e = e.

Lemma zero_on_no_fault q : zero_on (faults_string cfg []) q.
Proof. split; apply insert_replicate. Qed.

Lemma zero_on_X_fault q q' :
  q < N -> q' <> q -> zero_on (faults_string cfg [Fault1 1 q]) q'.
Proof.
  intros Hq Hne. rewrite faults_string_one. cbn [fault_string pauli_vec].
  split; apply insert_false_unit; lia.
Qed.

Lemma zero_on_Z_fault q q' :
  q' < N -> q' <> q -> zero_on (faults_string cfg [Fault1 3 q]) q'.
Proof.
  intros Hq Hne. rewrite faults_string_one. cbn [fault_string pauli_vec].
  split; apply insert_false_unit; lia.
Qed.

Lemma reset_outcome_nil s n : wf cfg s -> reset_outcome [] s (n, s).
Proof.
  intros Hs. split; [done|]. exists []. split; [by rewrite app_nil_r|].
  unfold wf in Hs. cbn [snd clear_qubits foldl faults_string foldr].
  by rewrite xor_strings_zeros_r by lia.
Qed.

Lemma reset_outcome_cons q qs s s2 new1 w' :
  fault_log s2 = fault_log s ++ new1 ->
  pauli_accumulator s2
  = xor_strings (clear_qubit cfg q (pauli_accumulator s)) (faults_string cfg new1) ->
  Forall (zero_on (faults_string cfg new1)) qs ->
  reset_outcome qs s2 w' -> reset_outcome (q :: qs) s w'.
Proof.
  intros Hl Ha Hz (Hwf & new & Hl' & Ha'). split; [done|].
  exists (new1 ++ new). split; [by rewrite Hl', Hl, app_assoc|].
  rewrite Ha', Ha, clear_qubits_xor_strings by done.
  by rewrite xor_strings_assoc, faults_string_app.
Qed.

(** The two ways in which a preparation fault ends. *)
Lemma wp_single_qubit_X_error q thr (Q : unit -> world -> Prop) n s :
  wf cfg s -> q < N ->
  (forall n', Q tt (n', s)) ->
  (forall n', Q tt (n', log_fault (Fault1 1 q)
                          (set_pauli_accumulator
                             (xor_strings (pauli_accumulator s) (pauli_vec cfg 1 q))
                             s))) ->
  wp no_exn (single_qubit_X_error cfg draws q thr) Q (n, s).
Proof.
  intros Hs Hq H0 H1. unfold wf in Hs.
  unfold single_qubit_X_error, fires, uniform. unfold wp, bind at 1 2, ret.
  cbn [fst snd]. destruct (Qltb _ _); [|apply H0].
  unfold bind at 1, lift. rewrite setitem_ok by (rewrite length_zeros; lia).
  unfold xor_into_accumulator, bind, gets, lift, modify. cbn [fst snd].
  rewrite np_logical_xor_ok by (rewrite length_insert, length_zeros; lia).
  apply H1.
Qed.

Lemma wp_single_qubit_Z_error q thr (Q : unit -> world -> Prop) n s :
  wf cfg s -> q < N ->
  (forall n', Q tt (n', s)) ->
  (forall n', Q tt (n', log_fault (Fault1 3 q)
                          (set_pauli_accumulator
                             (xor_strings (pauli_accumulator s) (pauli_vec cfg 3 q))
                             s))) ->
  wp no_exn (single_qubit_Z_error cfg draws q thr) Q (n, s).
Proof.
  intros Hs Hq H0 H1. unfold wf in Hs.
  unfold single_qubit_Z_error, fires, uniform. unfold wp, bind at 1 2, ret.
  cbn [fst snd]. destruct (Qltb _ _); [|apply H0].
  unfold bind at 1, lift. rewrite setitem_ok by (rewrite length_zeros; lia).
  unfold xor_into_accumulator, bind, gets, lift, modify. cbn [fst snd].
  rewrite np_logical_xor_ok by (rewrite length_insert, length_zeros; lia).
  apply H1.
Qed.

Lemma wf_clear_qubit q s :
  wf cfg s ->
  wf cfg (set_pauli_accumulator (clear_qubit cfg q (pauli_accumulator s)) s).
Proof. unfold wf. cbn. by rewrite length_clear_qubit. Qed.

Lemma reset_ancilla_loop_updated idxs :
  NoDup idxs -> Forall (fun i => i < num_anc_qubits cfg) idxs ->
  forall n s, wf cfg s ->
    wp no_exn (reset_ancilla_loop cfg draws idxs p)
      (fun _ w' => reset_outcome (Nat.add (num_data_qubits cfg) <$> idxs) s w')
      (n, s).
Proof.
  induction 1 as [|i idxs Hi Hnd IH]; intros Hlt n s Hs.
  { by apply reset_outcome_nil. }
  apply Forall_cons in Hlt as [Hi_lt Hlt].
  assert (num_data_qubits cfg + i < N) as Hq by (unfold num_all_qubits; lia).
  cbn [reset_ancilla_loop fmap list_fmap].
  apply wp_clear_qubit; [done..|]. apply wp_bind.
  pose proof (wf_clear_qubit (num_data_qubits cfg + i) s Hs) as Hs1.
  apply wp_single_qubit_X_error; [done..| |]; intros n'.
  - eapply wp_mono; [|by apply IH]. intros ? w'; cbv beta.
    apply (reset_outcome_cons _ _ _ _ []); [by rewrite app_nil_r| |].
    + cbn [pauli_accumulator set_pauli_accumulator faults_string foldr].
      unfold wf in Hs1. cbn in Hs1. by rewrite xor_strings_zeros_r by lia.
    + apply Forall_forall. intros q' _. apply zero_on_no_fault.
  - eapply wp_mono; [|apply IH; [done|]].
    + intros ? w'; cbv beta.
      apply (reset_outcome_cons _ _ _ _ [Fault1 1 (num_data_qubits cfg + i)]);
        [done| |].
      * by rewrite faults_string_one.
      * apply Forall_forall. intros q' Hq'.
        apply list_elem_of_fmap in Hq' as (i' & -> & Hi').
        apply zero_on_X_fault; [done|]. intros Heq.
        apply Hi. by replace i with i' by lia.
    + unfold wf. cbn [pauli_accumulator log_fault set_pauli_accumulator].
      apply length_xor_strings; [apply Hs1|apply length_pauli_vec].
Qed.

Lemma reset_flag_loop_updated idxs :
  NoDup idxs -> Forall (fun i => i < num_flag_qubits cfg) idxs ->
  forall n s, wf cfg s ->
    wp no_exn (reset_flag_loop cfg draws idxs p)
      (fun _ w' =>
         reset_outcome
           (Nat.add (num_data_qubits cfg + num_anc_qubits cfg) <$> idxs) s w')
      (n, s).
Proof.
  induction 1 as [|i idxs Hi Hnd IH]; intros Hlt n s Hs.
  { by apply reset_outcome_nil. }
  apply Forall_cons in Hlt as [Hi_lt Hlt].
  assert (num_data_qubits cfg + num_anc_qubits cfg + i < N) as Hq
    by (unfold num_all_qubits; lia).
  cbn [reset_flag_loop fmap list_fmap].
  apply wp_clear_qubit; [done..|]. apply wp_bind.
  pose proof (wf_clear_qubit (num_data_qubits cfg + num_anc_qubits cfg + i) s Hs)
    as Hs1.
  apply wp_single_qubit_Z_error; [done..| |]; intros n'.
  - eapply wp_mono; [|by apply IH]. intros ? w'; cbv beta.
    apply (reset_outcome_cons _ _ _ _ []); [by rewrite app_nil_r| |].
    + cbn [pauli_accumulator set_pauli_accumulator faults_string foldr].
      unfold wf in Hs1. cbn in Hs1. by rewrite xor_strings_zeros_r by lia.
    + apply Forall_forall. intros q' _. apply zero_on_no_fault.
  - eapply wp_mono; [|apply IH; [done|]].
    + intros ? w'; cbv beta.
      apply (reset_outcome_cons _ _ _ _
               [Fault1 3 (num_data_qubits cfg + num_anc_qubits cfg + i)]);
        [done| |].
      * by rewrite faults_string_one.
      * apply Forall_forall. intros q' Hq'.
        apply list_elem_of_fmap in Hq' as (i' & -> & Hi').
        rewrite Forall_forall in Hlt. specialize (Hlt i' Hi').
        apply zero_on_Z_fault; [unfold num_all_qubits; lia|]. intros Heq.
        apply Hi. by replace i with i' by lia.
    + unfold wf. cbn [pauli_accumulator log_fault set_pauli_accumulator].
      apply length_xor_strings; [apply Hs1|apply length_pauli_vec].
Qed.

Lemma reset_outcome_updated c s w' :
  propagation_string cfg c (pauli_accumulator s) = zeros (2 * N) ->
  wf cfg s ->
  reset_outcome (prepared cfg c) s w' -> updated c s w'.
Proof.
  intros He Hs (Hwf & new & Hl & Ha). split; [done|]. exists new.
  split; [done|]. by rewrite propagated_preparation.
Qed.

Lemma reset_ancilla_updated n s :
  wf cfg s ->
  wp no_exn (reset_ancilla cfg draws p)
    (fun _ w' => updated Reset_ancilla s w') (n, s).
Proof.
  intros Hs. unfold reset_ancilla.
  eapply wp_mono; [|apply reset_ancilla_loop_updated; [apply NoDup_seq| |done]].
  - intros ? w' Hw. cbv beta in *. apply reset_outcome_updated; [done..|].
    cbn [prepared]. unfold anc_qubits.
    by rewrite fmap_add_seq, Nat.add_0_r in Hw.
  - apply Forall_forall. intros i Hi. apply list_elem_of_In, in_seq in Hi. lia.
Qed.

Lemma reset_flag_updated n s :
  wf cfg s ->
  wp no_exn (reset_flag cfg draws p)
    (fun _ w' => updated Reset_flag s w') (n, s).
Proof.
  intros Hs. unfold reset_flag.
  eapply wp_mono; [|apply reset_flag_loop_updated; [apply NoDup_seq| |done]].
  - intros ? w' Hw. cbv beta in *. apply reset_outcome_updated; [done..|].
    cbn [prepared]. unfold flag_qubits.
    by rewrite fmap_add_seq, Nat.add_0_r in Hw.
  - apply Forall_forall. intros i Hi. apply list_elem_of_In, in_seq in Hi. lia.
Qed.

(** *** Gates *)

Lemma wp_ynot_string {B} E (b : bool) y (k : list bool -> M B) Q w :
  y < N ->
  wp E (k (if b then pauli_vec cfg 2 y else zeros (2 * N))) Q w ->
  wp E (bind (lift (if b then
                      match setitem (zeros (2 * N)) y true with
                      | Ok e => setitem e (y + N) true
                      | Raise e => Raise e
                      end
                    else Ok (zeros (2 * N)))) k) Q w.
Proof.
  intros Hy Hk. eapply wp_bind_lift; [|exact Hk].
  destruct b; [|done].
  rewrite setitem_ok by (rewrite length_zeros; lia).
  by rewrite setitem_ok by (rewrite length_insert, length_zeros; lia).
Qed.

Lemma length_ynot_string (b : bool) y :
  length (if b then pauli_vec cfg 2 y else zeros (2 * N)) = 2 * N.
Proof. destruct b; [apply length_pauli_vec|apply length_zeros]. Qed.

Ltac gate_step :=
  cbv beta;
  first
    [ apply wp_read; [lia|]
    | apply wp_set_if; [lia|]
    | apply wp_ynot_string; [lia|]
    | apply wp_assign;
      [cbn [pauli_accumulator set_pauli_accumulator];
       rewrite ?length_insert; lia|]
    | apply wp_xor;
      [cbn [pauli_accumulator set_pauli_accumulator];
       repeat first
         [ rewrite length_unit_if | rewrite length_ynot_string
         | rewrite length_zeros
         | rewrite (length_xor_strings _ _ (2 * N)) ];
       lia|] ].

Lemma h_updated q tc loc n s :
  wf cfg s -> q < N ->
  wp no_exn (h cfg draws q p tc loc) (fun _ w' => updated (H q tc loc) s w') (n, s).
Proof.
  intros Hs Hq. pose proof Hs as Hlen. unfold wf in Hlen. unfold h.
  do 4 gate_step.
  eapply wp_injects; [by apply injects_single_qubit_depol_error|done|done|].
  cbn [pauli_accumulator set_pauli_accumulator].
  rewrite propagated_gate by done. by apply swap_is_xor.
Qed.

Lemma gate_faults_updated c a b loc n s s1 :
  wf cfg s -> a < N -> b < N -> prepared cfg c = [] ->
  fault_log s1 = fault_log s ->
  pauli_accumulator s1
  = xor_strings (pauli_accumulator s)
      (propagation_string cfg c (pauli_accumulator s)) ->
  wp no_exn
    (two_qubit_gate_error cfg draws None loc a b
       (error_scale_factor_two_qubit_gate cfg * p))
    (fun _ w' => updated c s w') (n, s1).
Proof.
  intros Hs Ha Hb Hc Hl Hacc.
  eapply wp_injects; [by apply injects_two_qubit_gate_error|done|done|].
  by rewrite propagated_gate.
Qed.

Lemma cnot_updated a b tc loc n s :
  wf cfg s -> a < N -> b < N ->
  wp no_exn (cnot cfg draws a b p tc loc)
    (fun _ w' => updated (Cnot a b tc loc) s w') (n, s).
Proof.
  intros Hs Ha Hb. pose proof Hs as Hlen. unfold wf in Hlen. unfold cnot.
  do 6 gate_step.
  apply gate_faults_updated; [done..|].
  cbn [pauli_accumulator set_pauli_accumulator propagation_string].
  apply xor_strings_assoc.
Qed.

Lemma xnot_updated a b tc loc n s :
  wf cfg s -> a < N -> b < N ->
  wp no_exn (xnot cfg draws a b p tc loc)
    (fun _ w' => updated (Xnot a b tc loc) s w') (n, s).
Proof.
  intros Hs Ha Hb. pose proof Hs as Hlen. unfold wf in Hlen. unfold xnot.
  do 6 gate_step.
  apply gate_faults_updated; [done..|].
  cbn [pauli_accumulator set_pauli_accumulator propagation_string].
  apply xor_strings_assoc.
Qed.

Lemma ynot_updated a b tc loc n s :
  wf cfg s -> a < N -> b < N ->
  wp no_exn (ynot cfg draws a b p tc loc)
    (fun _ w' => updated (Ynot a b tc loc) s w') (n, s).
Proof.
  intros Hs Ha Hb. pose proof Hs as Hlen. unfold wf in Hlen. unfold ynot.
  do 9 gate_step.
  apply gate_faults_updated; [done..|].
  cbn [pauli_accumulator set_pauli_accumulator propagation_string].
  by rewrite !xor_strings_assoc.
Qed.

Lemma cz_updated a b tc loc n s :
  wf cfg s -> a < N -> b < N ->
  wp no_exn (cz cfg draws a b p tc loc)
    (fun _ w' => updated (Cz a b tc loc) s w') (n, s).
Proof.
  intros Hs Ha Hb. pose proof Hs as Hlen. unfold wf in Hlen. unfold cz.
  do 6 gate_step.
  apply gate_faults_updated; [done..|].
  cbn [pauli_accumulator set_pauli_accumulator propagation_string].
  apply xor_strings_assoc.
Qed.

(** *** Fault injections *)

Lemma faults_updated {A} (m : M A) c n s :
  injects cfg (fun _ => True) m -> wf cfg s ->
  prepared cfg c = [] ->
  propagation_string cfg c (pauli_accumulator s) = zeros (2 * N) ->
  wp no_exn m (fun _ w' => updated c s w') (n, s).
Proof.
  intros Hm Hs Hc He. eapply wp_injects; [done..|].
  by rewrite propagated_id.
Qed.

(** *** Measurements *)

Lemma measurement_updated c s n' (new : list fault) s' :
  wf cfg s -> is_measurement c = true ->
  faults_string cfg new = zeros (2 * N) ->
  fault_log s' = fault_log s ++ new ->
  pauli_accumulator s' = pauli_accumulator s ->
  updated c s (n', s').
Proof.
  intros Hs Hc Hnew Hl Ha. unfold wf in Hs. split.
  - unfold wf. cbn [snd]. by rewrite Ha.
  - exists new. split; [done|]. cbn [snd].
    rewrite Ha, Hnew, propagated_id by (done || by destruct c).
    by rewrite xor_strings_zeros_r by lia.
Qed.

Lemma measure_Z_basis_updated q n s :
  wf cfg s -> q < N ->
  wp no_exn (measure_Z_basis cfg draws q p)
    (fun _ w' => updated (Measure_Z_basis q) s w'
                 /\ pauli_accumulator (snd w') = pauli_accumulator s) (n, s).
Proof.
  intros Hs Hq. pose proof Hs as Hlen. unfold wf in Hlen.
  unfold measure_Z_basis. gate_step.
  unfold fires, uniform. unfold wp, bind, ret, modify. cbn [fst snd].
  destruct (Qltb _ _); (split; [|done]).
  - apply (measurement_updated _ _ _ [FaultMeas q]); [done..| |done|done].
    by rewrite faults_string_one.
  - apply (measurement_updated _ _ _ []); [done..| |done].
    by rewrite app_nil_r.
Qed.

Lemma measure_X_basis_updated q n s :
  wf cfg s -> q < N ->
  wp no_exn (measure_X_basis cfg draws q p)
    (fun _ w' => updated (Measure_X_basis q) s w'
                 /\ pauli_accumulator (snd w') = pauli_accumulator s) (n, s).
Proof.
  intros Hs Hq. pose proof Hs as Hlen. unfold wf in Hlen.
  unfold measure_X_basis. gate_step.
  unfold fires, uniform. unfold wp, bind, ret, modify. cbn [fst snd].
  destruct (Qltb _ _); (split; [|done]).
  - apply (measurement_updated _ _ _ [FaultMeas q]); [done..| |done|done].
    by rewrite faults_string_one.
  - apply (measurement_updated _ _ _ []); [done..| |done].
    by rewrite app_nil_r.
Qed.

(** *** Every call *)

Definition call_outcome (c : engine_call) (s : store) (w' : world) : Prop :=
  updated c s w'
  /\ (is_measurement c = true -> pauli_accumulator (snd w') = pauli_accumulator s).

Lemma wp_then_none {A} (m : M A) c n s :
  is_measurement c = false ->
  wp no_exn m (fun _ w' => updated c s w') (n, s) ->
  wp no_exn (m ;; ret (@None bool)) (fun _ w' => call_outcome c s w') (n, s).
Proof.
  intros Hc Hm. apply wp_bind. eapply wp_mono; [|exact Hm].
  intros ? w' Hu. cbv beta. apply wp_ret. split; [done|].
  rewrite Hc. discriminate.
Qed.

Lemma run_call_updated c n s :
  wf cfg s -> valid_call cfg c ->
  wp no_exn (run_call cfg draws p c) (fun _ w' => call_outcome c s w') (n, s).
Proof.
  intros Hs Hc.
  destruct c; cbn [valid_call] in Hc; cbn [run_call];
    try (apply wp_then_none; [done|]).
  - by apply prepare_Z_basis_updated.
  - by apply prepare_X_basis_updated.
  - by apply reset_ancilla_updated.
  - by apply reset_flag_updated.
  - by apply h_updated.
  - destruct Hc. by apply cnot_updated.
  - destruct Hc. by apply xnot_updated.
  - destruct Hc. by apply ynot_updated.
  - destruct Hc. by apply cz_updated.
  - apply faults_updated; [by apply injects_single_qubit_X_error|done..].
  - apply faults_updated; [by apply injects_single_qubit_Z_error|done..].
  - apply faults_updated; [by apply injects_single_qubit_Y_error|done..].
  - apply faults_updated; [by apply injects_single_qubit_pauli_error|done..].
  - apply faults_updated; [by apply injects_single_qubit_depol_error|done..].
  - apply faults_updated;
      [by apply injects_one_stochastic_pauli_error_data_qubits|done..].
  - destruct Hc.
    apply faults_updated; [by apply injects_two_qubit_pauli_error|done..].
  - destruct Hc.
    apply faults_updated; [by apply injects_two_qubit_gate_depol_error|done..].
  - destruct Hc as (? & ? & ?).
    apply faults_updated; [by apply injects_two_qubit_gate_error|done..].
  - apply wp_bind. eapply wp_mono; [|by apply measure_Z_basis_updated].
    intros b w' [Hu Hacc]. cbv beta. apply wp_ret. by split.
  - apply wp_bind. eapply wp_mono; [|by apply measure_X_basis_updated].
    intros b w' [Hu Hacc]. cbv beta. apply wp_ret. by split.
Qed.

End XorCalls.

(** C9: every call of the Pauli-frame engine (preparations, resets, the
    gates h, cnot, xnot, ynot, cz, fault injections, measurements) on
    qubits that exist returns, and changes the accumulator by XOR only:
    the new accumulator is the old one, with the two bits of each qubit
    that the call prepares set to 0 and of no other qubit, composed by XOR
    with the propagation string of the gate and with the strings of the
    faults that fired during the call.  A measurement leaves the
    accumulator as it was. *)
Theorem accumulator_updated_by_xor_only
    (cfg : config) (draws : nat -> Q) (p : Q) (c : engine_call)
    (n : nat) (s : store) :
  wf cfg s -> valid_call cfg c ->
  exists o n' s' new,
    run_call cfg draws p c (n, s) = Ok (o, (n', s'))
    /\ fault_log s' = fault_log s ++ new
    /\ pauli_accumulator s'
       = xor_strings
           (xor_strings
              (clear_qubits cfg (prepared cfg c) (pauli_accumulator s))
              (propagation_string cfg c (pauli_accumulator s)))
           (faults_string cfg new)
    /\ (is_measurement c = true -> pauli_accumulator s' = pauli_accumulator s).
Proof.
  intros Hs Hc.
  destruct (proj1 (wp_total _ _ _) (run_call_updated cfg draws p c n s Hs Hc))
    as (o & [n' s'] & Hrun & (_ & new & Hl & Ha) & Hm).
  exists o, n', s', new. done.
Qed.

Lemma accumulator_updated_by_xor_only_witness :
  exists o n' s' new,
    run_call chao_protocol zero_draws 1 (Cnot 0 5 None 1) (0, store_with_X0)
    = Ok (o, (n', s'))
    /\ fault_log s' = fault_log store_with_X0 ++ new
    /\ pauli_accumulator s'
       = xor_strings
           (xor_strings
              (clear_qubits chao_protocol
                 (prepared chao_protocol (Cnot 0 5 None 1))
                 (pauli_accumulator store_with_X0))
              (propagation_string chao_protocol (Cnot 0 5 None 1)
                 (pauli_accumulator store_with_X0)))
           (faults_string chao_protocol new)
    /\ (is_measurement (Cnot 0 5 None 1) = true ->
        pauli_accumulator s' = pauli_accumulator store_with_X0).
Proof.
  apply (accumulator_updated_by_xor_only chao_protocol zero_draws 1
           (Cnot 0 5 None 1) 0 store_with_X0).
  - reflexivity.
  - vm_compute. lia.
Defined.

(** * Further properties of the Pauli-frame engine *)

(** ** Bits of strings *)

Lemma length_xor_strings_min a b :
  length (xor_strings a b) = length a `min` length b.
Proof. apply length_zip_with. Qed.

Lemma bit_ge (l : list bool) i : length l <= i -> bit l i = false.
Proof. intros Hi. unfold bit. by rewrite lookup_ge_None_2. Qed.

Lemma bit_xor_strings a b i :
  i < length a -> i < length b ->
  bit (xor_strings a b) i = xorb (bit a i) (bit b i).
Proof.
  intros Ha Hb. unfold bit, xor_strings. rewrite lookup_zip_with.
  destruct (lookup_lt_is_Some_2 a i Ha) as [x ->].
  by destruct (lookup_lt_is_Some_2 b i Hb) as [y ->].
Qed.

Lemma bit_zeros n i : bit (zeros n) i = false.
Proof.
  unfold bit, zeros. destruct (replicate n false !! i) as [x|] eqn:E; [|done].
  by apply lookup_replicate in E as [-> _].
Qed.

Lemma bit_insert_eq (l : list bool) i x : i < length l -> bit (<[i:=x]> l) i = x.
Proof. intros Hi. unfold bit. by rewrite list_lookup_insert_eq. Qed.

Lemma bit_insert_ne (l : list bool) i j x : i <> j -> bit (<[j:=x]> l) i = bit l i.
Proof. intros Hij. unfold bit. by rewrite list_lookup_insert_ne. Qed.

Lemma list_bit_ext (a b : list bool) :
  length a = length b -> (forall i, i < length a -> bit a i = bit b i) -> a = b.
Proof.
  intros Hlen Hbit. apply list_eq. intros i.
  destruct (decide (i < length a)) as [Hi|Hi].
  - rewrite (bit_lookup a i Hi), (bit_lookup b i) by lia. f_equal. by apply Hbit.
  - rewrite !lookup_ge_None_2 by lia. done.
Qed.

Lemma xor_strings_nilpotent a : xor_strings a a = zeros (length a).
Proof.
  induction a as [|x a IH]; [done|]. unfold xor_strings, zeros in *. simpl.
  by rewrite IH, xorb_nilpotent.
Qed.

Lemma xor_strings_comm a b : xor_strings a b = xor_strings b a.
Proof.
  revert b. induction a as [|x a IH]; intros [|y b]; try done.
  unfold xor_strings in *. simpl. by rewrite IH, xorb_comm.
Qed.

Section GateAlgebra.

Context (cfg : config).

Local Abbreviation N := (num_all_qubits cfg).

Lemma bit_unit_if b j i :
  j < 2 * N -> bit (unit_if cfg b j) i = b && bool_decide (i = j).
Proof.
  intros Hj. unfold unit_if. destruct b; [|apply bit_zeros].
  case_bool_decide as Hij.
  - subst. apply bit_insert_eq. by rewrite length_zeros.
  - rewrite bit_insert_ne by done. apply bit_zeros.
Qed.

Lemma bit_Y q i :
  q < N ->
  bit (pauli_vec cfg 2 q) i = bool_decide (i = q) || bool_decide (i = q + N).
Proof.
  intros Hq. unfold pauli_vec. repeat case_bool_decide; subst; simpl.
  - lia.
  - rewrite bit_insert_ne by lia. apply bit_insert_eq. rewrite length_zeros. lia.
  - apply bit_insert_eq. rewrite length_insert, length_zeros. lia.
  - rewrite !bit_insert_ne by done. apply bit_zeros.
Qed.

Lemma bit_Y_if (b : bool) q i :
  q < N ->
  bit (if b then pauli_vec cfg 2 q else zeros (2 * N)) i
  = b && (bool_decide (i = q) || bool_decide (i = q + N)).
Proof. intros Hq. destruct b; [by apply bit_Y|apply bit_zeros]. Qed.

(** The gates: the calls that propagate the accumulator. *)
Definition is_gate (c : engine_call) : bool :=
  match c with
  | H _ _ _ | Cnot _ _ _ _ | Xnot _ _ _ _ | Ynot _ _ _ _ | Cz _ _ _ _ => true
  | _ => false
  end.

(** [cnot] and [ynot] on one and the same qubit are not gates. *)
Definition distinct_operands (c : engine_call) : Prop :=
  match c with
  | Cnot a b _ _ | Ynot a b _ _ => a <> b
  | _ => True
  end.

Lemma gate_prepares_nothing c : is_gate c = true -> prepared cfg c = [].
Proof. by destruct c. Qed.

Ltac len :=
  rewrite ?length_xor_strings_min, ?length_unit_if, ?length_ynot_string,
    ?length_pauli_vec, ?length_zeros;
  repeat match goal with
         | H : length ?l = _ |- context [length ?l] => rewrite H
         end;
  lia.

(** The bits of the propagation string of a gate, read off the rules. *)
Ltac string_bits :=
  repeat first
    [ rewrite bit_xor_strings by len
    | rewrite bit_unit_if by lia
    | rewrite bit_Y_if by lia
    | rewrite bit_zeros ].

Ltac cases :=
  repeat (case_bool_decide; simplify_eq; try lia);
  repeat match goal with
         | |- context [bit ?l ?i] => destruct (bit l i)
         end;
  try done.

(** Applying the propagation rule of a gate twice gives the string back
    that it started from. *)
Lemma propagated_twice c acc :
  length acc = 2 * N -> valid_call cfg c -> is_gate c = true ->
  distinct_operands c ->
  propagated cfg c (propagated cfg c acc) = acc.
Proof.
  intros Hlen Hv Hg Hd.
  assert (forall a, length a = 2 * N ->
            length (propagated cfg c a) = 2 * N) as Hlp
    by (intros; by apply length_propagated).
  apply list_bit_ext; [by rewrite Hlp by (by apply Hlp)|].
  intros i Hi. rewrite Hlp in Hi by (by apply Hlp).
  rewrite !propagated_gate by (by apply gate_prepares_nothing).
  destruct c; try done; cbn [valid_call distinct_operands] in *;
    cbn [propagation_string].
  all: string_bits; cases.
Qed.

(** The propagation rule of a gate is linear over XOR. *)
Lemma propagated_xor_strings c a b :
  length a = 2 * N -> length b = 2 * N -> valid_call cfg c -> is_gate c = true ->
  propagated cfg c (xor_strings a b)
  = xor_strings (propagated cfg c a) (propagated cfg c b).
Proof.
  intros Ha Hb Hv Hg.
  assert (forall a, length a = 2 * N ->
            length (propagated cfg c a) = 2 * N) as Hlp
    by (intros; by apply length_propagated).
  assert (length (xor_strings a b) = 2 * N) as Hab by len.
  apply list_bit_ext.
  { rewrite length_xor_strings_min, !Hlp by done. lia. }
  intros i Hi. rewrite Hlp in Hi by done.
  rewrite (bit_xor_strings (propagated _ _ _)) by (rewrite !Hlp by done; lia).
  rewrite !propagated_gate by (by apply gate_prepares_nothing).
  destruct c; try done; cbn [valid_call] in *; cbn [propagation_string].
  all: string_bits; cases.
Qed.

(** ** The symplectic form

    [commutator a b] is 0 when the Paulis with strings [a] and [b] commute
    and 1 when they anticommute. *)
Definition xor_sum (f : nat -> bool) (l : list nat) : bool :=
  foldr (fun q r => xorb (f q) r) false l.

Definition commutator_term (a b : list bool) (q : nat) : bool :=
  xorb (bit a q && bit b (q + N)) (bit a (q + N) && bit b q).

Definition commutator (a b : list bool) : bool :=
  xor_sum (commutator_term a b) (seq 0 N).

Lemma xor_sum_xorb f g l :
  xor_sum (fun q => xorb (f q) (g q)) l = xorb (xor_sum f l) (xor_sum g l).
Proof.
  induction l as [|q l IH]; [done|]. simpl. rewrite IH.
  by destruct (f q), (g q), (xor_sum f l), (xor_sum g l).
Qed.

Lemma xor_sum_zero d l : (forall q, q ∈ l -> d q = false) -> xor_sum d l = false.
Proof.
  induction l as [|q l IH]; intros Hd; [done|]. simpl.
  rewrite Hd by set_solver. rewrite IH; [done|]. intros; apply Hd; set_solver.
Qed.

Lemma xor_sum_one d u l :
  NoDup l -> u ∈ l -> (forall q, q ∈ l -> q <> u -> d q = false) ->
  xor_sum d l = d u.
Proof.
  induction 1 as [|q l Hq Hnd IH]; intros Hu Hd; [set_solver|]. simpl.
  destruct (decide (q = u)) as [->|Hne].
  - rewrite xor_sum_zero; [by destruct (d u)|].
    intros q' Hq'. apply Hd; set_solver.
  - rewrite (Hd q) by set_solver. simpl. apply IH; [set_solver|].
    intros; apply Hd; set_solver.
Qed.

Lemma xor_sum_two d u v l :
  NoDup l -> u ∈ l -> v ∈ l -> u <> v ->
  (forall q, q ∈ l -> q <> u -> q <> v -> d q = false) ->
  xor_sum d l = xorb (d u) (d v).
Proof.
  induction 1 as [|q l Hq Hnd IH]; intros Hu Hv Huv Hd; [set_solver|]. simpl.
  destruct (decide (q = u)) as [->|Hnu]; [|destruct (decide (q = v)) as [->|Hnv]].
  - f_equal. apply xor_sum_one; [done|set_solver|].
    intros q' Hq' Hne. apply Hd; set_solver.
  - rewrite (xor_sum_one d u) ; [by destruct (d u), (d v)|done|set_solver|].
    intros q' Hq' Hne. apply Hd; set_solver.
  - rewrite (Hd q) by set_solver. simpl. apply IH; [set_solver..|done|].
    intros; apply Hd; set_solver.
Qed.

(** The qubits on which a gate acts. *)
Definition operands (c : engine_call) : nat * nat :=
  match c with
  | H q _ _ => (q, q)
  | Cnot a b _ _ | Xnot a b _ _ | Ynot a b _ _ | Cz a b _ _ => (a, b)
  | _ => (0, 0)
  end.

(** Every gate rule preserves the symplectic form: Paulis that commute
    before the gate commute after it, and Paulis that anticommute still
    anticommute. *)
Lemma commutator_propagated c a b :
  length a = 2 * N -> length b = 2 * N -> valid_call cfg c -> is_gate c = true ->
  distinct_operands c ->
  commutator (propagated cfg c a) (propagated cfg c b) = commutator a b.
Proof.
  intros Ha Hb Hv Hg Hd. unfold commutator.
  set (d q := xorb (commutator_term (propagated cfg c a) (propagated cfg c b) q)
                (commutator_term a b q)).
  assert (xor_sum d (seq 0 N) = false) as Hsum; last first.
  { unfold d in Hsum. rewrite xor_sum_xorb in Hsum.
    by apply xorb_eq in Hsum. }
  assert (forall q, q < N ->
            d q = xorb (commutator_term (propagated cfg c a) (propagated cfg c b) q)
                    (commutator_term a b q)) as Hdq by done.
  clearbody d.
  assert (forall q, q ∈ seq 0 N <-> q < N) as Hin.
  { intros q. rewrite list_elem_of_In, in_seq. lia. }
  destruct (decide (fst (operands c) = snd (operands c))) as [Heq|Hne].
  - rewrite (xor_sum_one d (fst (operands c))); [|apply NoDup_seq|..].
    + rewrite Hdq by (destruct c; try done; cbn in *; lia).
      unfold commutator_term.
      rewrite !propagated_gate by (by apply gate_prepares_nothing).
      destruct c; try done; cbn [valid_call distinct_operands operands fst snd] in *;
        cbn [propagation_string]; simplify_eq; try lia.
      all: string_bits; cases.
    + apply Hin. destruct c; try done; cbn in *; lia.
    + intros q Hq Hqu. apply Hin in Hq. rewrite Hdq by done.
      unfold commutator_term.
      rewrite !propagated_gate by (by apply gate_prepares_nothing).
      destruct c; try done; cbn [valid_call distinct_operands operands fst snd] in *;
        cbn [propagation_string]; simplify_eq; try lia.
      all: string_bits; cases.
  - rewrite (xor_sum_two d (fst (operands c)) (snd (operands c)));
      [|apply NoDup_seq|..|done|].
    + rewrite !Hdq by (destruct c; try done; cbn in *; lia).
      unfold commutator_term.
      rewrite !propagated_gate by (by apply gate_prepares_nothing).
      destruct c; try done; cbn [valid_call distinct_operands operands fst snd] in *;
        cbn [propagation_string].
      all: string_bits; cases.
    + apply Hin. destruct c; try done; cbn in *; lia.
    + apply Hin. destruct c; try done; cbn in *; lia.
    + intros q Hq Hqu Hqv. apply Hin in Hq. rewrite Hdq by done.
      unfold commutator_term.
      rewrite !propagated_gate by (by apply gate_prepares_nothing).
      destruct c; try done; cbn [valid_call distinct_operands operands fst snd] in *;
        cbn [propagation_string].
      all: string_bits; cases.
Qed.

End GateAlgebra.

(** ** Gates run without faults *)

Lemma wp_equation {A} (m : M A) (w : world) (x : A * world) :
  wp no_exn m (fun a w' => (a, w') = x) w -> m w = Ok x.
Proof.
  intros Hwp. apply wp_total in Hwp as (a & w' & -> & <-). done.
Qed.

Section GateRuns.

Context (cfg : config) (draws : nat -> Q) (p : Q).
Hypothesis Hdraws : nonneg_draws draws.
Hypothesis Hp : noiseless cfg p.

Local Abbreviation N := (num_all_qubits cfg).

Lemma two_qubit_gate_error_noiseless loc a b n s :
  two_qubit_gate_error cfg draws None loc a b
    (error_scale_factor_two_qubit_gate cfg * p) (n, s)
  = Ok (tt, (S n, s)).
Proof.
  unfold two_qubit_gate_error, two_qubit_gate_depol_error, bind.
  by rewrite fires_nonpos by eauto with noiseless.
Qed.

Lemma single_qubit_depol_error_noiseless q n s :
  single_qubit_depol_error cfg draws q
    (error_scale_factor_single_qubit_gate cfg * p) (n, s)
  = Ok (tt, (S n, s)).
Proof.
  unfold single_qubit_depol_error, bind.
  by rewrite fires_nonpos by eauto with noiseless.
Qed.

Ltac gate_step :=
  cbv beta;
  first
    [ apply wp_read; [lia|]
    | apply wp_set_if; [lia|]
    | apply wp_ynot_string; [lia|]
    | apply wp_assign;
      [cbn [pauli_accumulator set_pauli_accumulator];
       rewrite ?length_insert; lia|]
    | apply wp_xor;
      [cbn [pauli_accumulator set_pauli_accumulator];
       rewrite ?length_xor_strings_min, ?length_unit_if, ?length_ynot_string;
       lia|] ].

(** At a fault-free rate a gate consumes one random draw and replaces the
    accumulator by the propagated one; nothing else changes. *)
Lemma run_gate_noiseless c n s :
  wf cfg s -> valid_call cfg c -> is_gate c = true ->
  run_call cfg draws p c (n, s)
  = Ok (None, (S n, set_pauli_accumulator
                      (propagated cfg c (pauli_accumulator s)) s)).
Proof.
  intros Hs Hv Hg. pose proof Hs as Hlen. unfold wf in Hlen.
  apply wp_equation.
  rewrite propagated_gate by (by apply gate_prepares_nothing).
  destruct c; try done; cbn [valid_call run_call] in *; apply wp_bind.
  - unfold h. do 4 gate_step. unfold wp at 1.
    rewrite single_qubit_depol_error_noiseless. apply wp_ret.
    unfold set_pauli_accumulator. cbn [propagation_string]. cbn.
    by rewrite (swap_is_xor cfg _ test_config loc).
  - unfold cnot. do 6 gate_step. unfold wp at 1.
    rewrite two_qubit_gate_error_noiseless. apply wp_ret.
    unfold set_pauli_accumulator. cbn [propagation_string]. cbn.
    by rewrite <- !xor_strings_assoc.
  - unfold xnot. do 6 gate_step. unfold wp at 1.
    rewrite two_qubit_gate_error_noiseless. apply wp_ret.
    unfold set_pauli_accumulator. cbn [propagation_string]. cbn.
    by rewrite <- !xor_strings_assoc.
  - unfold ynot. do 9 gate_step. unfold wp at 1.
    rewrite two_qubit_gate_error_noiseless. apply wp_ret.
    unfold set_pauli_accumulator. cbn [propagation_string]. cbn.
    by rewrite <- !xor_strings_assoc.
  - unfold cz. do 6 gate_step. unfold wp at 1.
    rewrite two_qubit_gate_error_noiseless. apply wp_ret.
    unfold set_pauli_accumulator. cbn [propagation_string]. cbn.
    by rewrite <- !xor_strings_assoc.
Qed.

End GateRuns.

(** X1: h, cnot, xnot, ynot and cz are involutions: at a fault-free rate,
    the same gate applied twice (on existing qubits, distinct ones for cnot and
    ynot) gives back the store it started from. *)
Theorem gate_twice_is_identity
    (cfg : config) (draws : nat -> Q) (p : Q) (c : engine_call)
    (n : nat) (s : store) :
  nonneg_draws draws -> noiseless cfg p -> wf cfg s ->
  valid_call cfg c -> is_gate c = true -> distinct_operands c ->
  (run_call cfg draws p c ;; run_call cfg draws p c) (n, s)
  = Ok (None, (S (S n), s)).
Proof.
  intros Hd Hp Hs Hv Hg Hdist. unfold bind.
  rewrite run_gate_noiseless by done.
  rewrite run_gate_noiseless; [|done..| |done|done].
  - cbn [pauli_accumulator set_pauli_accumulator].
    rewrite propagated_twice by done. by destruct s.
  - unfold wf. cbn. by apply length_propagated.
Qed.

Lemma gate_twice_is_identity_witness :
  (run_call chao_protocol half_draws 0 (Ynot 5 2 None 7) ;;
   run_call chao_protocol half_draws 0 (Ynot 5 2 None 7)) (0, store_with_X0)
  = Ok (None, (2, store_with_X0)).
Proof.
  apply (gate_twice_is_identity chao_protocol half_draws 0 (Ynot 5 2 None 7)
           0 store_with_X0).
  - intros n. unfold half_draws, Qle. simpl. lia.
  - apply noiseless_zero.
  - reflexivity.
  - vm_compute. lia.
  - reflexivity.
  - simpl. lia.
Defined.

(** X2: gate propagation is linear: at a fault-free rate, the accumulator
    that a gate leaves when started on the XOR of two accumulators is the XOR of
    the accumulators it leaves when started on each of them. *)
Theorem gate_propagation_is_linear
    (cfg : config) (draws : nat -> Q) (p : Q) (c : engine_call)
    (n : nat) (s1 s2 : store) :
  nonneg_draws draws -> noiseless cfg p -> wf cfg s1 -> wf cfg s2 ->
  valid_call cfg c -> is_gate c = true ->
  exists s1' s2' s12',
    run_call cfg draws p c (n, s1) = Ok (None, (S n, s1'))
    /\ run_call cfg draws p c (n, s2) = Ok (None, (S n, s2'))
    /\ run_call cfg draws p c
         (n, set_pauli_accumulator
               (xor_strings (pauli_accumulator s1) (pauli_accumulator s2)) s1)
       = Ok (None, (S n, s12'))
    /\ pauli_accumulator s12'
       = xor_strings (pauli_accumulator s1') (pauli_accumulator s2').
Proof.
  intros Hd Hp Hs1 Hs2 Hv Hg.
  eexists _, _, _. split_and!; try (by apply run_gate_noiseless).
  - apply run_gate_noiseless; try done.
    unfold wf in *. cbn. rewrite length_xor_strings_min. lia.
  - cbn. by apply propagated_xor_strings.
Qed.

Lemma gate_propagation_is_linear_witness :
  exists s1' s2' s12',
    run_call chao_protocol zero_draws 0 (Cnot 0 5 None 3) (0, store_with_X0)
    = Ok (None, (1, s1'))
    /\ run_call chao_protocol zero_draws 0 (Cnot 0 5 None 3)
         (0, fresh_store chao_protocol 1)
       = Ok (None, (1, s2'))
    /\ run_call chao_protocol zero_draws 0 (Cnot 0 5 None 3)
         (0, set_pauli_accumulator
               (xor_strings (pauli_accumulator store_with_X0)
                  (pauli_accumulator (fresh_store chao_protocol 1)))
               store_with_X0)
       = Ok (None, (1, s12'))
    /\ pauli_accumulator s12'
       = xor_strings (pauli_accumulator s1') (pauli_accumulator s2').
Proof.
  apply (gate_propagation_is_linear chao_protocol zero_draws 0
           (Cnot 0 5 None 3) 0 store_with_X0 (fresh_store chao_protocol 1)).
  - intros n. unfold zero_draws, Qle. simpl. lia.
  - apply noiseless_zero.
  - reflexivity.
  - reflexivity.
  - vm_compute. lia.
  - reflexivity.
Defined.

(** X3: the gates are Clifford: at a fault-free rate a gate preserves the
    symplectic form of any two accumulators, so Paulis that commute
    (anticommute) before it commute (anticommute) after it. *)
Theorem gate_preserves_commutation
    (cfg : config) (draws : nat -> Q) (p : Q) (c : engine_call)
    (n : nat) (s1 s2 : store) :
  nonneg_draws draws -> noiseless cfg p -> wf cfg s1 -> wf cfg s2 ->
  valid_call cfg c -> is_gate c = true -> distinct_operands c ->
  exists s1' s2',
    run_call cfg draws p c (n, s1) = Ok (None, (S n, s1'))
    /\ run_call cfg draws p c (n, s2) = Ok (None, (S n, s2'))
    /\ commutator cfg (pauli_accumulator s1') (pauli_accumulator s2')
       = commutator cfg (pauli_accumulator s1) (pauli_accumulator s2).
Proof.
  intros Hd Hp Hs1 Hs2 Hv Hg Hdist.
  eexists _, _. split_and!; try (by apply run_gate_noiseless).
  cbn. by apply commutator_propagated.
Qed.

Lemma gate_preserves_commutation_witness :
  exists s1' s2',
    run_call chao_protocol zero_draws 0 (Xnot 0 5 None 1) (0, store_with_X0)
    = Ok (None, (1, s1'))
    /\ run_call chao_protocol zero_draws 0 (Xnot 0 5 None 1)
         (0, set_pauli_accumulator (<[7 := true]> (zeros 14)) store_with_X0)
       = Ok (None, (1, s2'))
    /\ commutator chao_protocol (pauli_accumulator s1') (pauli_accumulator s2')
       = commutator chao_protocol (pauli_accumulator store_with_X0)
           (<[7 := true]> (zeros 14)).
Proof.
  apply (gate_preserves_commutation chao_protocol zero_draws 0
           (Xnot 0 5 None 1) 0 store_with_X0
           (set_pauli_accumulator (<[7 := true]> (zeros 14)) store_with_X0)).
  - intros n. unfold zero_draws, Qle. simpl. lia.
  - apply noiseless_zero.
  - reflexivity.
  - reflexivity.
  - vm_compute. lia.
  - reflexivity.
  - exact Logic.I.
Defined.

(** ** The depolarizing choices *)


Lemma Qltb_false x y : (y <= x)%Q -> Qltb x y = false.
Proof. intros Hxy. unfold Qltb. by apply Qle_bool_iff in Hxy as ->. Qed.



Lemma depol_choice2_last (dec : Q) :
  (14 # 15 <= dec)%Q -> depol_choice2 dec = (3, 3).
Proof.
  intros Hlo. unfold depol_choice2.
  repeat (rewrite Qltb_false
            by (eapply Qle_trans; [|exact Hlo]; unfold Qle; simpl; lia)).
  reflexivity.
Qed.


Section DepolRuns.

Context (cfg : config) (draws : nat -> Q).

Local Abbreviation N := (num_all_qubits cfg).



End DepolRuns.






(** ** Qubit indices out of range *)

(** [m] raises an IndexError from [w]. *)
Definition raises_IndexError {A} (m : M A) (w : world) : Prop :=
  m w = Raise IndexError.

Lemma wp_raises {A} (m : M A) w :
  wp (fun e => e = IndexError) m (fun _ _ => False) w -> raises_IndexError m w.
Proof.
  unfold wp, raises_IndexError. destruct (m w) as [[a w']|e]; [done|].
  by intros ->.
Qed.

Lemma wp_read_out {B} (E : exn -> Prop) i (k : bool -> M B) Q n s :
  length (pauli_accumulator s) <= i -> E IndexError ->
  wp E (bind (read_accumulator i) k) Q (n, s).
Proof.
  intros Hi HE. unfold wp, read_accumulator, bind, gets, lift, getitem.
  cbn [snd fst]. by rewrite lookup_ge_None_2.
Qed.

Lemma wp_assign_out {B} (E : exn -> Prop) i b (k : unit -> M B) Q n s :
  length (pauli_accumulator s) <= i -> E IndexError ->
  wp E (bind (assign_accumulator i b) k) Q (n, s).
Proof.
  intros Hi HE. unfold wp, assign_accumulator, bind, gets, lift, setitem.
  cbn [snd fst]. by rewrite decide_False by lia.
Qed.

Lemma wp_set_if_any {B} (E : exn -> Prop) cfg b i (k : list bool -> M B) Q w :
  E IndexError ->
  wp E (k (unit_if cfg b i)) Q w ->
  wp E (bind (lift (set_if b (zeros (2 * num_all_qubits cfg)) i)) k) Q w.
Proof.
  intros HE Hk. unfold wp, bind, lift, set_if, setitem, unit_if in *.
  destruct b; [|done]. rewrite length_zeros. by destruct (decide _).
Qed.

Lemma wp_ynot_string_any {B} (E : exn -> Prop) cfg (b : bool) y
    (k : list bool -> M B) Q w :
  E IndexError ->
  wp E (k (if b then pauli_vec cfg 2 y else zeros (2 * num_all_qubits cfg))) Q w ->
  wp E (bind (lift (if b then
                      match setitem (zeros (2 * num_all_qubits cfg)) y true with
                      | Ok e => setitem e (y + num_all_qubits cfg) true
                      | Raise e => Raise e
                      end
                    else Ok (zeros (2 * num_all_qubits cfg)))) k) Q w.
Proof.
  intros HE Hk. unfold wp, bind, lift, setitem, pauli_vec in *.
  destruct b; [|done]. rewrite length_zeros.
  destruct (decide (y < _)); [|done].
  rewrite length_insert, length_zeros. by destruct (decide _).
Qed.

(** The calls that name a qubit whose Z bit, at index [q + N], lies past
    the end of the accumulator. *)
Definition out_of_range (cfg : config) (c : engine_call) : Prop :=
  match c with
  | H q _ _ | Prepare_Z_basis q | Prepare_X_basis q | Measure_X_basis q =>
      num_all_qubits cfg <= q
  | Xnot a b _ _ | Ynot a b _ _ =>
      num_all_qubits cfg <= a \/ num_all_qubits cfg <= b
  | Cnot _ t _ _ => num_all_qubits cfg <= t
  | _ => False
  end.

Section Bounds.

Context (cfg : config) (draws : nat -> Q) (p : Q).

Local Abbreviation N := (num_all_qubits cfg).

Ltac bound_side :=
  cbn [pauli_accumulator set_pauli_accumulator];
  rewrite ?length_insert; lia.

Ltac bound_step :=
  cbv beta;
  first
    [ apply wp_read_out; [bound_side|done]
    | apply wp_assign_out; [bound_side|done]
    | apply wp_read; [bound_side|]
    | apply wp_assign; [bound_side|]
    | apply wp_set_if_any; [done|]
    | apply wp_ynot_string_any; [done|] ].

Lemma run_call_out_of_range c n s :
  wf cfg s -> out_of_range cfg c ->
  raises_IndexError (run_call cfg draws p c) (n, s).
Proof.
  intros Hs Hc. unfold wf in Hs. apply wp_raises.
  destruct c; try done; cbn [out_of_range run_call] in *; apply wp_bind.
  - unfold prepare_Z_basis.
    destruct (decide (qubit_idx < 2 * N)); repeat bound_step.
  - unfold prepare_X_basis.
    destruct (decide (qubit_idx < 2 * N)); repeat bound_step.
  - unfold h. repeat bound_step.
  - unfold cnot.
    destruct (decide (control_idx < 2 * N)); repeat bound_step.
  - unfold xnot.
    destruct (decide (oplus_idx1 < N)); repeat bound_step.
  - unfold ynot.
    destruct (decide (oplus_idx < N)); [|repeat bound_step].
    destruct (decide (y_idx < 2 * N)); repeat bound_step.
  - unfold measure_X_basis. repeat bound_step.
Qed.

End Bounds.

(** X6: the engine checks no index itself; an index is found out of range when
    the accumulator is subscripted with it.  On an accumulator of 2N bits,
    with a qubit index of N or more, h, prepare_Z_basis, prepare_X_basis and
    measure_X_basis raise an IndexError, so do xnot and ynot when either
    operand is N or more, and cnot when its target is. *)
Theorem qubit_index_out_of_range_raises
    (cfg : config) (draws : nat -> Q) (p : Q) (c : engine_call)
    (n : nat) (s : store) :
  wf cfg s -> out_of_range cfg c ->
  run_call cfg draws p c (n, s) = Raise IndexError.
Proof. apply run_call_out_of_range. Qed.

Lemma qubit_index_out_of_range_raises_witness :
  run_call chao_protocol zero_draws 0 (Cnot 0 7 None 3) (0, store_with_X0)
  = Raise IndexError.
Proof.
  apply (qubit_index_out_of_range_raises chao_protocol zero_draws 0
           (Cnot 0 7 None 3) 0 store_with_X0).
  - reflexivity.
  - vm_compute. lia.
Defined.

(** * Further properties of the protocol *)

(** ** Every path through [syndrome_extraction] *)

(** The records that an extraction leaves: either all four flagged
    measurements were clear, or the measurement number [k] (from 0) was the
    first to return a syndrome or a flag, the rows after it are sentinels,
    and all four generators were measured again without flag. *)
Definition extraction_records (s' : store) : Prop :=
  (syndrome_n_flag_1st_subround s' = PyStr (key_1st (replicate 4 clear_row))
   /\ syndrome_2nd_subround s' = PyNone)
  \/ exists k sy fl b1 b2 b3 b4,
       k < 4 /\ sy || fl = true
       /\ syndrome_n_flag_1st_subround s'
          = PyStr (key_1st (replicate k clear_row ++ [Some (sy, fl)]
                            ++ replicate (3 - k) None))
       /\ syndrome_2nd_subround s' = PyStr (key_2nd [b1; b2; b3; b4]).

Section EveryPath.

Context (cfg : config) (draws : nat -> Q) (p : Q) (tc : option error_spec).
Hypothesis Hcfg : valid_config cfg.

(** What [syndrome_extraction] has established when it returns, for a run
    started with the counts [counts]. *)
Definition extracted (counts : list (option Z)) (w' : world) : Prop :=
  wf cfg (snd w')
  /\ syndrome_ex_status (snd w') = IDLE
  /\ logical_error_counts (snd w') = counts
  /\ extraction_records (snd w').

Lemma wp_rewrite {A} E (m : M A) Q w r :
  m w = r -> match r with Ok (a, w') => Q a w' | Raise e => E e end ->
  wp E m Q w.
Proof. intros Hm Hr. unfold wp. by rewrite Hm. Qed.

(** A syndrome or a flag after [k] clear rows: the four generators are
    measured without flag and the extraction returns. *)
Lemma detected_returns k sy fl w :
  k < 4 -> sy || fl = true ->
  wf cfg (snd w) ->
  syndrome_n_flag_1st_subround (snd w)
  = Arr2 (replicate k clear_row ++ [Some (sy, fl)]) ->
  wp no_exn (remeasure_and_return cfg draws (3 - k) tc p)
    (fun _ w' => extracted (logical_error_counts (snd w)) w') w.
Proof.
  intros Hk Hdet Hw Hrec.
  eapply wp_mono;
    [|by apply (remeasure_and_return_spec cfg draws p tc Hcfg (3 - k) w _ Hw Hrec)].
  intros _ w' (Hw' & Hidle & Hcounts & Hrec1 & b1 & b2 & b3 & b4 & Hrec2).
  split_and!; [done..|]. right. exists k, sy, fl, b1, b2, b3, b4.
  rewrite <- app_assoc in Hrec1. done.
Qed.

(** One generator measured with flag after [k] clear rows, and the decision
    that follows it. *)
Lemma generator_then_decide g k next counts w :
  k < 3 -> wf cfg (snd w) ->
  rows_before g (snd w) (replicate k clear_row) ->
  syndrome_2nd_subround (snd w) = PyNone ->
  logical_error_counts (snd w) = counts ->
  (forall w1,
     wf cfg (snd w1) ->
     syndrome_ex_status (snd w1) = MEAS_GEN_WITH_FLAG ->
     syndrome_n_flag_1st_subround (snd w1) = Arr2 (replicate (S k) clear_row) ->
     syndrome_2nd_subround (snd w1) = PyNone ->
     logical_error_counts (snd w1) = counts ->
     wp no_exn next (fun _ w' => extracted counts w') w1) ->
  wp no_exn
    (bind (measure_generator_with_flag cfg draws g p tc)
       (fun _ => decide_after cfg draws (3 - k) tc p next))
    (fun _ w' => extracted counts w') w.
Proof.
  intros Hk Hw Hrows Hr2 Hc Hnext. apply wp_bind.
  eapply wp_mono;
    [|by apply (measure_generator_with_flag_spec cfg draws p Hcfg g tc
                  (replicate k clear_row))].
  intros _ w1 (Hw1 & (Hst & H2nd & Hcounts) & sy & fl & Hcur & Hrec).
  destruct (sy || fl) eqn:Hdet.
  - eapply wp_rewrite;
      [by apply (decide_after_detected cfg draws p tc _ _ w1 sy fl)|].
    pose proof (detected_returns k sy fl
                  (fst w1, set_syndrome_ex_status
                             (if fl then DET_RAISED_FLAG else DET_NONZERO_SYNDROME)
                             (snd w1))) as Hret.
    unfold wp in Hret. cbn [snd logical_error_counts set_syndrome_ex_status] in Hret.
    specialize (Hret ltac:(lia) Hdet Hw1 Hrec).
    destruct (remeasure_and_return _ _ _ _ _ _) as [[[] w']|e]; [|done].
    by rewrite Hcounts, Hc in Hret.
  - apply orb_false_iff in Hdet as [-> ->].
    eapply wp_rewrite; [by apply (decide_after_clear cfg draws p tc)|].
    specialize (Hnext (fst w1, next_generator (snd w1))).
    unfold wp in Hnext.
    apply Hnext;
      cbn [snd next_generator set_syndrome_ex_status syndrome_ex_status
             syndrome_n_flag_1st_subround syndrome_2nd_subround
             logical_error_counts];
      [done | done | | congruence | congruence].
    rewrite Hrec. by rewrite replicate_S_end.
Qed.

Lemma last_generator_then_decide counts w :
  wf cfg (snd w) ->
  syndrome_n_flag_1st_subround (snd w) = Arr2 (replicate 3 clear_row) ->
  syndrome_2nd_subround (snd w) = PyNone ->
  logical_error_counts (snd w) = counts ->
  wp no_exn
    (bind (measure_generator_with_flag cfg draws G4 p tc)
       (fun _ => decide_last cfg draws tc p))
    (fun _ w' => extracted counts w') w.
Proof.
  intros Hw Hrows Hr2 Hc. apply wp_bind.
  eapply wp_mono;
    [|by apply (measure_generator_with_flag_spec cfg draws p Hcfg G4 tc
                  (replicate 3 clear_row))].
  intros _ w1 (Hw1 & (Hst & H2nd & Hcounts) & sy & fl & Hcur & Hrec).
  destruct (sy || fl) eqn:Hdet.
  - eapply wp_rewrite;
      [by apply (decide_last_detected cfg draws p tc w1 sy fl)|].
    pose proof (detected_returns 3 sy fl
                  (fst w1, set_syndrome_ex_status
                             (if fl then DET_RAISED_FLAG else DET_NONZERO_SYNDROME)
                             (snd w1))) as Hret.
    unfold wp in Hret. cbn [snd logical_error_counts set_syndrome_ex_status] in Hret.
    specialize (Hret ltac:(lia) Hdet Hw1 Hrec).
    destruct (remeasure_and_return _ _ _ _ _ _) as [[[] w']|e]; [|done].
    by rewrite Hcounts, Hc in Hret.
  - apply orb_false_iff in Hdet as [-> ->].
    eapply wp_rewrite.
    { apply (decide_last_clear cfg draws p tc w1 _ Hcur Hrec). congruence. }
    split_and!; cbn; [done|done|congruence|]. left. split; [done|].
    cbn. congruence.
Qed.

Lemma syndrome_extraction_extracted n s :
  wf cfg s -> syndrome_ex_status s = IDLE -> no_override_at_0 tc ->
  wp no_exn (syndrome_extraction cfg draws tc p)
    (fun _ w' => extracted (logical_error_counts s) w') (n, s).
Proof.
  intros Hw Hst Htc.
  eapply wp_rewrite; [by apply syndrome_extraction_entry|].
  match goal with
  | |- match ?m ?w with _ => _ end =>
      change (wp no_exn m (fun _ w' => extracted (logical_error_counts s) w') w)
  end.
  apply (generator_then_decide G1 0); [lia|done..|].
  intros w1 Hw1 Hst1 Hr1 Hn1 Hc1. apply wp_bind.
  eapply wp_rewrite; [by apply guarded_generator_eq|].
  match goal with
  | |- match ?m ?w with _ => _ end =>
      change (wp no_exn m
                (fun a w' => wp no_exn
                   (decide_after cfg draws 2 tc p
                      (bind (guarded_generator cfg draws G3 p tc)
                         (fun _ => decide_after cfg draws 1 tc p
                            (bind (guarded_generator cfg draws G4 p tc)
                               (fun _ => decide_last cfg draws tc p)))))
                   (fun _ w' => extracted (logical_error_counts s) w') w') w)
  end.
  apply wp_bind.
  apply (generator_then_decide G2 1); [lia|done..|].
  intros w2 Hw2 Hst2 Hr2 Hn2 Hc2. apply wp_bind.
  eapply wp_rewrite; [by apply guarded_generator_eq|].
  match goal with
  | |- match ?m ?w with _ => _ end =>
      change (wp no_exn m
                (fun a w' => wp no_exn
                   (decide_after cfg draws 1 tc p
                      (bind (guarded_generator cfg draws G4 p tc)
                         (fun _ => decide_last cfg draws tc p)))
                   (fun _ w' => extracted (logical_error_counts s) w') w') w)
  end.
  apply wp_bind.
  apply (generator_then_decide G3 2); [lia|done..|].
  intros w3 Hw3 Hst3 Hr3 Hn3 Hc3. apply wp_bind.
  eapply wp_rewrite; [by apply guarded_generator_eq|].
  match goal with
  | |- match ?m ?w with _ => _ end =>
      change (wp no_exn m
                (fun a w' => wp no_exn (decide_last cfg draws tc p)
                   (fun _ w' => extracted (logical_error_counts s) w') w') w)
  end.
  apply wp_bind.
  by apply last_generator_then_decide.
Qed.

End EveryPath.

(** X7: started IDLE on a valid configuration, with an accumulator of 2N bits
    and no override at location 0, [syndrome_extraction] returns on every
    path, for every rate and all draws: the status is IDLE again, the
    counts and the length of the accumulator are as before, the
    1st-subround record is the key of four rows, and the 2nd-subround
    record is [None] when all rows are clear and the key of four bits
    otherwise. *)
Theorem syndrome_extraction_returns_on_every_path
    (cfg : config) (draws : nat -> Q) (p : Q) (tc : option error_spec)
    (n : nat) (s : store) :
  valid_config cfg -> wf cfg s -> syndrome_ex_status s = IDLE ->
  no_override_at_0 tc ->
  exists w',
    syndrome_extraction cfg draws tc p (n, s) = Ok (tt, w')
    /\ wf cfg (snd w')
    /\ syndrome_ex_status (snd w') = IDLE
    /\ logical_error_counts (snd w') = logical_error_counts s
    /\ extraction_records (snd w').
Proof.
  intros Hcfg Hw Hst Htc.
  destruct (proj1 (wp_total _ _ _)
              (syndrome_extraction_extracted cfg draws p tc Hcfg n s Hw Hst Htc))
    as ([] & w' & Hrun & Hw' & Hidle & Hc & Hrec).
  by exists w'.
Qed.

Lemma syndrome_extraction_returns_on_every_path_witness :
  exists w',
    syndrome_extraction chao_protocol flag_draws None (1 # 10)
      (0, fresh_store chao_protocol 1) = Ok (tt, w')
    /\ wf chao_protocol (snd w')
    /\ syndrome_ex_status (snd w') = IDLE
    /\ logical_error_counts (snd w')
       = logical_error_counts (fresh_store chao_protocol 1)
    /\ extraction_records (snd w').
Proof.
  apply (syndrome_extraction_returns_on_every_path chao_protocol flag_draws
           (1 # 10) None 0 (fresh_store chao_protocol 1)).
  - unfold valid_config. simpl. lia.
  - reflexivity.
  - reflexivity.
  - exact Logic.I.
Defined.

(** X8: the two entry assertions fire exactly when the status is not the
    expected one: [syndrome_extraction] raises its AssertionError if and
    only if the status is not IDLE, and
    [measure_full_syndrome_without_flags] raises its AssertionError if and
    only if the status is not MEAS_GEN_WITHOUT_FLAG. *)
Theorem entry_assertions_fire_iff_wrong_status
    (cfg : config) (draws : nat -> Q) (p : Q) (tc : option error_spec)
    (n : nat) (s : store) :
  valid_config cfg -> wf cfg s -> no_override_at_0 tc ->
  (syndrome_ex_status s <> IDLE
   <-> syndrome_extraction cfg draws tc p (n, s)
       = Raise (AssertionError
                  "Syndrome extraction status should be IDLE at the beginning."))
  /\ (syndrome_ex_status s <> MEAS_GEN_WITHOUT_FLAG
      <-> measure_full_syndrome_without_flags cfg draws tc p (n, s)
          = Raise (AssertionError
                     "Incorrect syndrome extraction status before measurement without flags.")).
Proof.
  intros Hcfg Hw Htc. split; split.
  - apply syndrome_extraction_not_idle.
  - intros Hraise Hst.
    pose proof (syndrome_extraction_extracted cfg draws p tc Hcfg n s Hw Hst Htc)
      as Hwp.
    unfold wp in Hwp. by rewrite Hraise in Hwp.
  - intros Hst. unfold measure_full_syndrome_without_flags, bind, gets.
    cbn [snd]. by rewrite decide_False.
  - intros Hraise Hst.
    pose proof (measure_full_syndrome_without_flags_spec cfg draws p Hcfg tc
                  (n, s) Hw Hst) as Hwp.
    unfold wp in Hwp. by rewrite Hraise in Hwp.
Qed.

Lemma entry_assertions_fire_iff_wrong_status_witness :
  syndrome_extraction chao_protocol zero_draws None 0
    (0, set_syndrome_ex_status MEAS_GEN_WITH_FLAG (fresh_store chao_protocol 1))
  = Raise (AssertionError
             "Syndrome extraction status should be IDLE at the beginning.")
  /\ measure_full_syndrome_without_flags chao_protocol zero_draws None 0
       (0, fresh_store chao_protocol 1)
     = Raise (AssertionError
                "Incorrect syndrome extraction status before measurement without flags.").
Proof.
  assert (valid_config chao_protocol) as Hcfg
    by (unfold valid_config; simpl; lia).
  split.
  - apply (proj1 (entry_assertions_fire_iff_wrong_status chao_protocol
                    zero_draws 0 None 0
                    (set_syndrome_ex_status MEAS_GEN_WITH_FLAG
                       (fresh_store chao_protocol 1))
                    Hcfg eq_refl Logic.I)).
    discriminate.
  - apply (proj2 (entry_assertions_fire_iff_wrong_status chao_protocol
                    zero_draws 0 None 0 (fresh_store chao_protocol 1)
                    Hcfg eq_refl Logic.I)).
    discriminate.
Defined.

(** ** The decoder *)

Lemma zip_xorb_twice (a e : list bool) :
  length a = length e -> zip_with xorb (zip_with xorb a e) e = a.
Proof.
  revert e. induction a as [|x a IH]; intros [|y e] Hlen; try done.
  simpl in *. rewrite IH by lia. by destruct x, y.
Qed.

(** XOR with the same operand twice, as numpy computes it, for a first
    operand that is not a single entry. *)
Lemma np_logical_xor_twice (a e a' : list bool) :
  length a <> 1 -> np_logical_xor a e = Ok a' ->
  np_logical_xor a' e = Ok a /\ length a' = length a.
Proof.
  intros Ha. unfold np_logical_xor.
  destruct (decide (length a = length e)) as [Hlen|Hlen].
  - intros ?; simplify_eq. rewrite length_zip_with.
    rewrite decide_True by lia. split; [|lia]. by rewrite zip_xorb_twice.
  - destruct a as [|x [|x' a]]; [..|]; try done.
    + destruct e as [|y [|y' e]]; try done. intros ?; simplify_eq. done.
    + destruct e as [|y [|y' e]]; try done. intros ?; simplify_eq.
      simpl. rewrite length_map. split; [|done].
      assert (forall b, xorb (xorb b y) y = b) as Hb by (by intros []; destruct y).
      rewrite !Hb. do 3 f_equal. rewrite map_map.
      clear. induction a as [|b a IH]; [done|]. simpl. rewrite IH.
      by destruct b, y.
Qed.

Section Decoder.

Context (cfg : config).

Lemma syndrome_decoding_twice n s w1 :
  wf cfg s -> syndrome_decoding cfg (n, s) = Ok (tt, w1) ->
  syndrome_decoding cfg w1 = Ok (tt, (n, s)).
Proof.
  intros Hw. unfold syndrome_decoding, bind, gets, lift, ret. cbn [snd].
  destruct (record_key (syndrome_n_flag_1st_subround s)) as [k1|e] eqn:Hk1;
    cbn beta iota; [|intros [=]].
  destruct (dict_get (syndrome_lookup_table cfg) k1) as [v|] eqn:Hv;
    cbn beta iota; cbn [snd fst].
  2: { cbn beta. intros ?; simplify_eq. cbn [snd]. by rewrite Hk1, Hv. }
  destruct (record_key (syndrome_2nd_subround s)) as [k2|e] eqn:Hk2;
    cbn beta iota; [|intros [=]].
  destruct (inner_get v k2) as [c|] eqn:Hc; cbn beta iota; cbn [snd fst].
  2: { intros ?; simplify_eq. cbn [snd]. rewrite Hk1. cbn beta iota.
       rewrite Hv. cbn beta iota. cbn [snd]. rewrite Hk2. cbn beta iota.
       by rewrite Hc. }
  unfold xor_into_accumulator, bind, gets, lift, modify. cbn [snd fst].
  destruct (np_logical_xor (pauli_accumulator s) (zero_extend cfg c))
    as [a'|e] eqn:Hx; cbn beta iota; [|intros [=]].
  intros ?; simplify_eq. cbn [snd fst].
  cbn [syndrome_n_flag_1st_subround syndrome_2nd_subround set_pauli_accumulator
         pauli_accumulator].
  rewrite Hk1. cbn beta iota. rewrite Hv. cbn beta iota. cbn [snd].
  cbn [syndrome_2nd_subround set_pauli_accumulator].
  rewrite Hk2. cbn beta iota. rewrite Hc. cbn [snd fst pauli_accumulator].
  apply np_logical_xor_twice in Hx as [Hx _]; [|unfold wf in Hw; lia].
  cbn [pauli_accumulator set_pauli_accumulator]. rewrite Hx.
  cbn [snd fst]. by destruct s.
Qed.

End Decoder.

(** X9: [syndrome_decoding] called a second time undoes the correction of the
    first call: it leaves the records in place, finds the same correction
    and composes it into the accumulator again. *)
Theorem syndrome_decoding_twice_restores
    (cfg : config) (n : nat) (s : store) (w1 : world) :
  wf cfg s -> syndrome_decoding cfg (n, s) = Ok (tt, w1) ->
  syndrome_decoding cfg w1 = Ok (tt, (n, s)).
Proof. apply syndrome_decoding_twice. Qed.

Lemma syndrome_decoding_twice_restores_witness :
  syndrome_decoding chao_protocol (0, set_pauli_accumulator (zeros 14) store_hit)
  = Ok (tt, (0, store_hit)).
Proof.
  apply (syndrome_decoding_twice_restores chao_protocol 0 store_hit).
  - reflexivity.
  - vm_compute. reflexivity.
Defined.

(** ** Logical-error tracking on a rate that was never initialised *)

Section Tracking.

Context (cfg : config) (draws : nat -> Q).


End Tracking.





(** ** The five-qubit protocol corrects what it is built to correct *)

(** A fault-free extraction followed by decoding. *)
Definition noiseless_cycle (cfg : config) (draws : nat -> Q) : M unit :=
  syndrome_extraction cfg draws None 0 ;; syndrome_decoding cfg.

Lemma rel_noiseless_cycle cfg d1 d2 :
  nonneg_draws d1 -> nonneg_draws d2 ->
  rel (fun _ => True) (noiseless_cycle cfg d1) (noiseless_cycle cfg d2).
Proof.
  intros H1 H2. unfold noiseless_cycle. eapply rel_bind.
  - apply rel_syndrome_extraction; auto using noiseless_zero.
  - intros _ _. apply rel_syndrome_decoding.
Qed.

(** The outcome of a cycle on all-zero draws, for a data error. *)
Definition corrected (em : error_model_enum) (pauli_idx q : nat) : bool :=
  let cfg := five_qubit_code_flag_protocol em in
  match noiseless_cycle cfg zero_draws
          (0, set_pauli_accumulator (pauli_vec cfg pauli_idx q) (fresh_store cfg 1))
  with
  | Ok (_, w') =>
      bool_decide (pauli_accumulator (snd w') = zeros 14)
      && bool_decide (syndrome_ex_status (snd w') = IDLE)
  | Raise _ => false
  end.

Lemma corrected_all em pauli_idx q :
  1 <= pauli_idx <= 3 -> q < 5 -> corrected em pauli_idx q = true.
Proof.
  intros Hp Hq.
  destruct em;
    (destruct pauli_idx as [|[|[|[|?]]]]; [lia| | | |lia]);
    (destruct q as [|[|[|[|[|?]]]]]; [| | | | |lia]);
    vm_compute; reflexivity.
Qed.

(** X11: every single-qubit Pauli error on a data qubit is corrected: on the
    five-qubit protocol, under each error model and for all draws, a
    fault-free extraction followed by decoding, started on a fresh protocol
    object whose accumulator carries X, Y or Z on one data qubit, returns
    with an all-zero accumulator and status IDLE. *)
Theorem every_single_data_error_is_corrected
    (em : error_model_enum) (draws : nat -> Q) (n pauli_idx q : nat) :
  nonneg_draws draws -> 1 <= pauli_idx <= 3 -> q < 5 ->
  exists w',
    (syndrome_extraction (five_qubit_code_flag_protocol em) draws None 0 ;;
     syndrome_decoding (five_qubit_code_flag_protocol em))
      (n, set_pauli_accumulator
            (pauli_vec (five_qubit_code_flag_protocol em) pauli_idx q)
            (fresh_store (five_qubit_code_flag_protocol em) 1))
    = Ok (tt, w')
    /\ pauli_accumulator (snd w') = zeros 14
    /\ syndrome_ex_status (snd w') = IDLE.
Proof.
  intros Hd Hp Hq.
  pose proof (corrected_all em pauli_idx q Hp Hq) as Hc. unfold corrected in Hc.
  assert (nonneg_draws zero_draws) as Hz
    by (intros k; unfold zero_draws, Qle; simpl; lia).
  pose proof (rel_noiseless_cycle (five_qubit_code_flag_protocol em) draws
                zero_draws Hd Hz n 0
                (set_pauli_accumulator
                   (pauli_vec (five_qubit_code_flag_protocol em) pauli_idx q)
                   (fresh_store (five_qubit_code_flag_protocol em) 1))) as Hrel.
  unfold noiseless_cycle in *.
  destruct (bind _ _ (0, _)) as [[[] w2]|e2]; [|done].
  destruct (bind _ _ (n, _)) as [[[] w1]|e1]; [|done].
  destruct Hrel as (_ & Hs & _). exists w1. split; [done|]. rewrite Hs.
  apply andb_true_iff in Hc as [H1 H2].
  by apply bool_decide_eq_true in H1, H2.
Qed.

Lemma every_single_data_error_is_corrected_witness :
  exists w',
    (syndrome_extraction chao_protocol half_draws None 0 ;;
     syndrome_decoding chao_protocol)
      (0, set_pauli_accumulator (pauli_vec chao_protocol 2 3)
            (fresh_store chao_protocol 1))
    = Ok (tt, w')
    /\ pauli_accumulator (snd w') = zeros 14
    /\ syndrome_ex_status (snd w') = IDLE.
Proof.
  apply (every_single_data_error_is_corrected
           CHAO_CKT_LVL_NOISE_WITHOUT_IDLING half_draws 0 2 3).
  - intros n. unfold half_draws, Qle. simpl. lia.
  - lia.
  - lia.
Defined.

(** ** One fault in a round *)







(** * The sampling loops *)

(** [for i in range(n): body] *)
Fixpoint repeat_rounds (n : nat) (body : M unit) : M unit :=
  match n with
  | 0 => ret tt
  | S n' => body ;; repeat_rounds n' body
  end.

Section Sweep.

Context (cfg : config) (draws : nat -> Q).

(** [self.logical_error_counts[j] = 0] and [self.create_circuit()] *)
Definition start_rate (j : nat) : M unit :=
  counts <- gets logical_error_counts ;;
  counts' <- lift (setitem counts j (Some 0%Z)) ;;
  modify (set_logical_error_counts counts') ;;
  create_circuit cfg.

(** [for j in range(len(self.p_phys))], from the index [j] on, with the
    rates that are left; [range] of a number that is not positive is
    empty. *)
Fixpoint sweep_rates (j : nat) (p_phys : list Q) (samples_per_point : Z)
    : M unit :=
  match p_phys with
  | [] => ret tt
  | p :: rest =>
      start_rate j ;;
      repeat_rounds (Z.to_nat samples_per_point) (sample_round cfg draws j p) ;;
      sweep_rates (S j) rest samples_per_point
  end.

Definition p_phys_sweep_simulation (p_phys : list Q) (samples_per_point : Z)
    : M unit :=
  sweep_rates 0 p_phys samples_per_point.

(** The sampling loop of the worker [my_rank] in
    [p_phys_sweep_simulation_mpi]: the same loop over its batch. *)
Definition p_phys_sweep_simulation_mpi_sampling (p_phys : list Q)
    (samples_per_point : Z) (num_cores my_rank : nat) : M unit :=
  sweep_rates 0 p_phys (batch_size samples_per_point num_cores my_rank).

End Sweep.

(** Every correction of the lookup table covers the data qubits. *)
Definition value_fits (cfg : config) (v : outer_value) : Prop :=
  match v with
  | Inner t => map_Forall (fun _ c => 2 * num_data_qubits cfg <= length c) t
  | Terminal _ => True
  end.

#[global] Instance value_fits_dec cfg v : Decision (value_fits cfg v).
Proof. destruct v; apply _. Defined.

Definition corrections_fit (cfg : config) : Prop :=
  map_Forall (fun _ v => value_fits cfg v) (syndrome_lookup_table cfg).

Section Rounds.

Context (cfg : config) (draws : nat -> Q).
Hypothesis Hcfg : valid_config cfg.
Hypothesis Hlut : corrections_fit cfg.
Hypothesis Hops :
  Forall (fun op => length op = 2 * num_data_qubits cfg) (logical_ops cfg).

Local Abbreviation N := (num_all_qubits cfg).

Lemma safe_for_each qs body :
  Forall (fun q => safe cfg (fun _ => True) (body q)) qs ->
  safe cfg (fun _ => True) (for_each qs body).
Proof.
  induction 1 as [|q qs Hq Hqs IH]; simpl; [apply safe_ret_any|].
  eapply safe_bind; [exact Hq|]. intros _ _. exact IH.
Qed.

Lemma safe_init_state p : safe cfg (fun _ => True) (init_state cfg draws p).
Proof.
  destruct Hcfg as (? & ? & ?).
  unfold init_state. eapply safe_bind.
  - apply safe_for_each. apply Forall_forall. intros q Hq.
    apply safe_prepare_Z_basis. unfold anc_qubits in Hq.
    apply list_elem_of_In, in_seq in Hq. unfold num_all_qubits. lia.
  - intros _ _. apply safe_for_each. apply Forall_forall. intros q Hq.
    apply safe_prepare_X_basis. unfold flag_qubits in Hq.
    apply list_elem_of_In, in_seq in Hq. unfold num_all_qubits. lia.
Qed.

Lemma length_zero_extend c :
  2 * num_data_qubits cfg <= length c -> length (zero_extend cfg c) = 2 * N.
Proof.
  intros Hc. unfold zero_extend, num_all_qubits.
  rewrite !length_app, !length_take, length_drop, !length_zeros. lia.
Qed.

(** The records are [None] or strings: what an extraction leaves. *)
Definition records_are_keys (s : store) : Prop :=
  (exists k, syndrome_n_flag_1st_subround s = PyStr k)
  /\ (syndrome_2nd_subround s = PyNone
      \/ exists k, syndrome_2nd_subround s = PyStr k).

Lemma extraction_records_are_keys s : extraction_records s -> records_are_keys s.
Proof.
  intros [[H1 H2]|(k & sy & fl & b1 & b2 & b3 & b4 & _ & _ & H1 & H2)];
    split; eauto.
Qed.

(** The decoder returns, and touches nothing but the accumulator. *)
Lemma syndrome_decoding_returns w :
  wf cfg (snd w) -> records_are_keys (snd w) ->
  wp no_exn (syndrome_decoding cfg)
    (fun _ w' => wf cfg (snd w') /\ frame (snd w) (snd w')) w.
Proof.
  intros Hw [[k1 Hr1] Hr2]. unfold syndrome_decoding.
  apply wp_bind_gets. rewrite Hr1. eapply wp_bind_lift; [done|].
  cbn [dict_get].
  destruct (syndrome_lookup_table cfg !! k1) as [v|] eqn:Hv;
    [|by apply wp_ret].
  apply wp_bind_gets.
  assert (exists k2, record_key (syndrome_2nd_subround (snd w)) = Ok k2)
    as [k2 Hk2].
  { destruct Hr2 as [->|[k ->]]; eauto. }
  eapply wp_bind_lift; [exact Hk2|].
  destruct (inner_get v k2) as [c|] eqn:Hc; [|by apply wp_ret].
  destruct v as [t|c0]; [|done]. destruct k2 as [k2|]; [|done].
  cbn in Hc.
  eapply wp_safe;
    [apply safe_xor_into_accumulator, length_zero_extend;
     exact (Hlut _ _ Hv _ _ Hc)
    |done|].
  by intros _ w' _ Hw' Hf.
Qed.

Lemma frame_trans s1 s2 s3 : frame s1 s2 -> frame s2 s3 -> frame s1 s3.
Proof. apply (spec_rel_trans (SpecRel := frame_rel cfg)). Qed.

(** Extraction and decoding, one after the other. *)
Lemma extraction_and_decoding_return p w :
  wf cfg (snd w) -> syndrome_ex_status (snd w) = IDLE ->
  wp no_exn
    (syndrome_extraction cfg draws None p ;; syndrome_decoding cfg)
    (fun _ w' =>
       wf cfg (snd w') /\ syndrome_ex_status (snd w') = IDLE
       /\ logical_error_counts (snd w') = logical_error_counts (snd w)) w.
Proof.
  intros Hw Hst. destruct w as [n s]. apply wp_bind.
  eapply wp_mono;
    [|by apply (syndrome_extraction_extracted cfg draws p None Hcfg n s)].
  intros _ w1 (Hw1 & Hst1 & Hc1 & Hrec).
  eapply wp_mono;
    [|apply syndrome_decoding_returns;
      [done|by apply extraction_records_are_keys]].
  intros _ w2 (Hw2 & Hs2 & _ & _ & _ & Hc2). cbv beta.
  cbn [snd] in *. split_and!; [done|congruence|congruence].
Qed.

(** What one call of [logical_error_tracking] leaves, for the rate at index
    [j] whose count was [c]. *)
Definition tracked (j : nat) (c : Z) (counts : list (option Z)) (w' : world)
    : Prop :=
  wf cfg (snd w')
  /\ syndrome_ex_status (snd w') = IDLE
  /\ (logical_error_counts (snd w') = counts
      \/ logical_error_counts (snd w') = <[j := Some (c + 1)%Z]> counts).

Lemma logical_error_tracking_returns j c w :
  wf cfg (snd w) -> syndrome_ex_status (snd w) = IDLE ->
  logical_error_counts (snd w) !! j = Some (Some c) ->
  wp no_exn (logical_error_tracking cfg draws j)
    (fun _ w' => tracked j c (logical_error_counts (snd w)) w') w.
Proof.
  intros Hw Hst Hc. unfold logical_error_tracking.
  apply wp_bind_gets. apply wp_bind.
  eapply wp_mono; [|by apply (extraction_and_decoding_return (-1))].
  intros _ w1 (Hw1 & Hst1 & Hc1). apply wp_bind_gets.
  eapply wp_bind_lift.
  { apply (commutation_vector_ok cfg
             (data_projection cfg (pauli_accumulator (snd w1))) Hops).
    by apply data_projection_length. }
  destruct (np_any _).
  - unfold increment_count. apply wp_bind. apply wp_bind_gets.
    rewrite Hc1. unfold getitem. rewrite Hc.
    eapply wp_bind_lift; [done|]. apply wp_modify. apply wp_modify.
    split_and!; cbn; [apply length_zeros|done|]. by right.
  - apply wp_modify. split_and!; cbn; [done|done|by left].
Qed.

Lemma sample_round_returns j p c w :
  wf cfg (snd w) -> syndrome_ex_status (snd w) = IDLE ->
  logical_error_counts (snd w) !! j = Some (Some c) ->
  wp no_exn (sample_round cfg draws j p)
    (fun _ w' => tracked j c (logical_error_counts (snd w)) w') w.
Proof.
  intros Hw Hst Hc. unfold sample_round.
  eapply wp_bind_safe; [apply safe_init_state|done|].
  intros _ w1 _ Hw1 (Hs1 & _ & _ & _ & Hc1).
  assert (forall (m1 m2 m3 : M unit) Q w,
            wp no_exn (bind (bind m1 (fun _ => m2)) (fun _ => m3)) Q w ->
            wp no_exn (bind m1 (fun _ => bind m2 (fun _ => m3))) Q w) as Hassoc.
  { intros m1 m2 m3 Q w0. unfold wp, bind.
    by destruct (m1 w0) as [[[] w0']|e]. }
  apply Hassoc. apply wp_bind.
  eapply wp_mono; [|apply extraction_and_decoding_return; congruence].
  intros _ w2 (Hw2 & Hst2 & Hc2). apply wp_bind.
  eapply wp_mono;
    [|apply (logical_error_tracking_returns j c); [done..|congruence]].
  intros _ w3 (Hw3 & Hst3 & Hc3). unfold cleanup.
  do 3 apply wp_bind_modify. apply wp_modify.
  split_and!; cbn; [done|done|]. rewrite <- Hc1, <- Hc2. done.
Qed.

End Rounds.

Section Sweeps.

Context (cfg : config) (draws : nat -> Q).
Hypothesis Hcfg : valid_config cfg.
Hypothesis Hlut : corrections_fit cfg.
Hypothesis Hops :
  Forall (fun op => length op = 2 * num_data_qubits cfg) (logical_ops cfg).

(** [n] rounds for the rate at index [j] add between 0 and [n] to its
    count, and leave the other counts alone. *)
Lemma repeat_rounds_returns j p n : forall c0 w,
  wf cfg (snd w) -> syndrome_ex_status (snd w) = IDLE ->
  logical_error_counts (snd w) !! j = Some (Some c0) ->
  wp no_exn (repeat_rounds n (sample_round cfg draws j p))
    (fun _ w' =>
       wf cfg (snd w') /\ syndrome_ex_status (snd w') = IDLE
       /\ exists c, (c0 <= c <= c0 + Z.of_nat n)%Z
            /\ logical_error_counts (snd w')
               = <[j := Some c]> (logical_error_counts (snd w))) w.
Proof.
  induction n as [|n IH]; intros c0 w Hw Hst Hc; cbn [repeat_rounds].
  - apply wp_ret. split_and!; [done..|]. exists c0. split; [lia|].
    by rewrite list_insert_id.
  - apply wp_bind.
    eapply wp_mono; [|by apply (sample_round_returns cfg draws Hcfg Hlut Hops j p c0)].
    intros _ w1 (Hw1 & Hst1 & Hc1). cbv beta.
    assert (exists c1, (c0 <= c1 <= c0 + 1)%Z
              /\ logical_error_counts (snd w1)
                 = <[j := Some c1]> (logical_error_counts (snd w)))
      as (c1 & Hc1r & Hc1e).
    { destruct Hc1 as [->| ->]; [exists c0|exists (c0 + 1)%Z];
        (split; [lia|]); [by rewrite list_insert_id|done]. }
    eapply wp_mono; [|apply (IH c1 w1 Hw1 Hst1)].
    + intros _ w2 (Hw2 & Hst2 & c & Hcr & Hce). split_and!; [done..|].
      exists c. split; [lia|]. by rewrite Hce, Hc1e, list_insert_insert_eq.
    + rewrite Hc1e. apply list_lookup_insert_eq.
      by eapply lookup_lt_Some.
Qed.

(** What a sweep over the rates from index [j] on leaves: the counts before
    [j] as they were, the counts of the swept rates in range. *)
Definition swept (j k : nat) (samples : Z) (counts : list (option Z))
    (w' : world) : Prop :=
  syndrome_ex_status (snd w') = IDLE
  /\ length (logical_error_counts (snd w')) = length counts
  /\ (forall i, i < j -> logical_error_counts (snd w') !! i = counts !! i)
  /\ (forall i, j <= i < j + k ->
        exists c, logical_error_counts (snd w') !! i = Some (Some c)
                  /\ (0 <= c <= Z.max 0 samples)%Z).

Lemma sweep_rates_returns samples rates : forall j w,
  syndrome_ex_status (snd w) = IDLE ->
  j + length rates <= length (logical_error_counts (snd w)) ->
  wp no_exn (sweep_rates cfg draws j rates samples)
    (fun _ w' => swept j (length rates) samples (logical_error_counts (snd w)) w')
    w.
Proof.
  induction rates as [|p rates IH]; intros j w Hst Hlen;
    cbn [sweep_rates length] in *.
  - apply wp_ret. split_and!; [done..|lia].
  - unfold start_rate. apply wp_bind. apply wp_bind_gets.
    eapply wp_bind_lift; [apply setitem_ok; lia|].
    apply wp_bind_modify. unfold create_circuit. apply wp_modify.
    apply wp_bind.
    eapply wp_mono;
      [|apply (repeat_rounds_returns j p _ 0%Z); cbn;
        [apply length_zeros|done|apply list_lookup_insert_eq; lia]].
    intros _ w1 (Hw1 & Hst1 & c & Hcr & Hce). cbn in Hce.
    rewrite list_insert_insert_eq in Hce.
    eapply wp_mono; [|apply (IH (S j) w1 Hst1)].
    + intros _ w2 (Hst2 & Hl2 & Hlt & Hin). rewrite Hce in Hl2, Hlt.
      rewrite length_insert in Hl2.
      split_and!; [done|done| |].
      * intros i Hi. rewrite Hlt by lia. apply list_lookup_insert_ne. lia.
      * intros i Hi. destruct (decide (i = j)) as [->|Hne].
        -- exists c. rewrite Hlt by lia. split; [|lia].
           apply list_lookup_insert_eq. lia.
        -- apply Hin. lia.
    + rewrite Hce, length_insert. lia.
Qed.

End Sweeps.

(** X13: with a well-formed configuration (qubit counts of the protocol,
    corrections and logical operators that cover the data qubits), a sweep
    started in status IDLE with one count per rate never raises, whatever
    the random draws; it ends in status IDLE and the count of every rate is
    an integer between 0 and the number of rounds, samples_per_point in
    [p_phys_sweep_simulation] and the worker's batch size in
    [p_phys_sweep_simulation_mpi]. *)
Theorem sweep_returns_with_counts_in_range
    (cfg : config) (draws : nat -> Q) (p_phys : list Q)
    (samples_per_point : Z) (num_cores my_rank : nat) (w : world) :
  valid_config cfg -> corrections_fit cfg ->
  Forall (fun op => length op = 2 * num_data_qubits cfg) (logical_ops cfg) ->
  syndrome_ex_status (snd w) = IDLE ->
  length (logical_error_counts (snd w)) = length p_phys ->
  (exists w',
     p_phys_sweep_simulation cfg draws p_phys samples_per_point w = Ok (tt, w')
     /\ syndrome_ex_status (snd w') = IDLE
     /\ forall j, j < length p_phys ->
          exists c, logical_error_counts (snd w') !! j = Some (Some c)
                    /\ (0 <= c <= Z.max 0 samples_per_point)%Z)
  /\ (exists w',
       p_phys_sweep_simulation_mpi_sampling cfg draws p_phys samples_per_point
         num_cores my_rank w = Ok (tt, w')
       /\ syndrome_ex_status (snd w') = IDLE
       /\ forall j, j < length p_phys ->
            exists c, logical_error_counts (snd w') !! j = Some (Some c)
                      /\ (0 <= c
                           <= Z.max 0 (batch_size samples_per_point num_cores
                                         my_rank))%Z).
Proof.
  intros Hcfg Hlut Hops Hst Hlen.
  unfold p_phys_sweep_simulation, p_phys_sweep_simulation_mpi_sampling.
  split.
  - pose proof (sweep_rates_returns cfg draws Hcfg Hlut Hops samples_per_point
                  p_phys 0 w Hst ltac:(lia)) as Hwp.
    unfold wp in Hwp. destruct (sweep_rates _ _ _ _ _ w) as [[[] w']|e]; [|done].
    destruct Hwp as (Hst' & _ & _ & Hin). exists w'.
    split_and!; [done..|]. intros j Hj. apply Hin. lia.
  - pose proof (sweep_rates_returns cfg draws Hcfg Hlut Hops
                  (batch_size samples_per_point num_cores my_rank)
                  p_phys 0 w Hst ltac:(lia)) as Hwp.
    unfold wp in Hwp. destruct (sweep_rates _ _ _ _ _ w) as [[[] w']|e]; [|done].
    destruct Hwp as (Hst' & _ & _ & Hin). exists w'.
    split_and!; [done..|]. intros j Hj. apply Hin. lia.
Qed.

Lemma sweep_returns_with_counts_in_range_witness :
  (exists w',
     p_phys_sweep_simulation chao_protocol flag_draws [1 # 100; 1 # 10] 3
       (0, fresh_store chao_protocol 2) = Ok (tt, w')
     /\ syndrome_ex_status (snd w') = IDLE
     /\ forall j, j < 2 ->
          exists c, logical_error_counts (snd w') !! j = Some (Some c)
                    /\ (0 <= c <= Z.max 0 3)%Z)
  /\ (exists w',
       p_phys_sweep_simulation_mpi_sampling chao_protocol flag_draws
         [1 # 100; 1 # 10] 3 2 0 (0, fresh_store chao_protocol 2)
       = Ok (tt, w')
       /\ syndrome_ex_status (snd w') = IDLE
       /\ forall j, j < 2 ->
            exists c, logical_error_counts (snd w') !! j = Some (Some c)
                      /\ (0 <= c <= Z.max 0 (batch_size 3 2 0))%Z).
Proof.
  apply (sweep_returns_with_counts_in_range chao_protocol flag_draws
           [1 # 100; 1 # 10] 3 2 0 (0, fresh_store chao_protocol 2)).
  - unfold valid_config. simpl. lia.
  - apply (bool_decide_unpack _). vm_compute. exact Logic.I.
  - vm_compute. repeat constructor.
  - reflexivity.
  - reflexivity.
Defined.

(** * Reporting *)

(** The two ways in which [count / samples_per_point] fails. *)
Inductive division_error : Type :=
| NoneType_operand       (* TypeError: a count that is still [None] *)
| ZeroDivisionError.

(** [logical_error_count / self.samples_per_point] on a count and an int:
    the operand types are looked at before the divisor.  The quotient is
    kept exact. *)
Definition true_divide (logical_error_count : option Z) (samples_per_point : Z)
    : division_error + Q :=
  match logical_error_count with
  | None => inl NoneType_operand
  | Some c =>
      if (samples_per_point =? 0)%Z then inl ZeroDivisionError
      else inr (inject_Z c / inject_Z samples_per_point)%Q
  end.

(** The list comprehension of [logical_error_rate_reporting], evaluated
    from the left. *)
Fixpoint logical_error_probs (logical_error_counts : list (option Z))
    (samples_per_point : Z) : division_error + list Q :=
  match logical_error_counts with
  | [] => inr []
  | c :: rest =>
      match true_divide c samples_per_point with
      | inl e => inl e
      | inr q =>
          match logical_error_probs rest samples_per_point with
          | inl e => inl e
          | inr qs => inr (q :: qs)
          end
      end
  end.

Definition logical_error_rate_reporting (samples_per_point : Z) (s : store)
    : division_error + list Q :=
  logical_error_probs (logical_error_counts s) samples_per_point.

Lemma logical_error_probs_in_range counts samples :
  (0 < samples)%Z ->
  Forall (fun x => exists c, x = Some c /\ (0 <= c <= samples)%Z) counts ->
  exists probs,
    logical_error_probs counts samples = inr probs
    /\ length probs = length counts
    /\ Forall (fun q => (0 <= q <= 1)%Q) probs.
Proof.
  intros Hs. induction 1 as [|x counts (c & -> & Hc) _ (probs & Hp & Hl & Hr)].
  - by exists [].
  - cbn [logical_error_probs true_divide].
    destruct (Z.eqb_spec samples 0) as [?|_]; [lia|]. rewrite Hp.
    eexists. split; [done|]. split; [by cbn; rewrite Hl|].
    constructor; [|done].
    assert (0 < inject_Z samples)%Q as Hpos
      by (unfold Qlt, inject_Z; cbn; lia).
    split.
    + apply Qle_shift_div_l; [done|]. unfold Qle, inject_Z. cbn. lia.
    + apply Qle_shift_div_r; [done|]. unfold Qle, inject_Z. cbn. lia.
Qed.

Lemma logical_error_probs_zero_samples counts :
  Forall (fun x : option Z => is_Some x) counts -> counts <> [] ->
  logical_error_probs counts 0 = inl ZeroDivisionError.
Proof. intros Hc Hne. destruct Hc as [|x counts [c ->] _]; done. Qed.

Lemma forall_lookup_Forall {A} (P : A -> Prop) (l : list A) :
  (forall j, j < length l -> exists x, l !! j = Some x /\ P x) -> Forall P l.
Proof.
  intros H. apply Forall_lookup. intros j x Hj.
  destruct (H j) as (y & Hy & HP); [by eapply lookup_lt_Some|]. congruence.
Qed.

(** X14: the main script, a sweep followed by the report.  With a
    well-formed configuration and samples_per_point > 0 neither raises, and
    the report holds one probability per rate, each between 0 and 1. *)
Theorem reported_probabilities_are_in_range
    (cfg : config) (draws : nat -> Q) (p_phys : list Q)
    (samples_per_point : Z) (w : world) :
  valid_config cfg -> corrections_fit cfg ->
  Forall (fun op => length op = 2 * num_data_qubits cfg) (logical_ops cfg) ->
  syndrome_ex_status (snd w) = IDLE ->
  length (logical_error_counts (snd w)) = length p_phys ->
  (0 < samples_per_point)%Z ->
  exists w' probs,
    p_phys_sweep_simulation cfg draws p_phys samples_per_point w = Ok (tt, w')
    /\ logical_error_rate_reporting samples_per_point (snd w') = inr probs
    /\ length probs = length p_phys
    /\ Forall (fun q => (0 <= q <= 1)%Q) probs.
Proof.
  intros Hcfg Hlut Hops Hst Hlen Hs.
  pose proof (sweep_rates_returns cfg draws Hcfg Hlut Hops samples_per_point
                p_phys 0 w Hst ltac:(lia)) as Hwp.
  unfold p_phys_sweep_simulation, wp in *.
  destruct (sweep_rates _ _ _ _ _ w) as [[[] w']|e]; [|done].
  destruct Hwp as (_ & Hl & _ & Hin).
  destruct (logical_error_probs_in_range (logical_error_counts (snd w'))
              samples_per_point Hs) as (probs & Hp & Hpl & Hpr).
  { apply forall_lookup_Forall. intros j Hj.
    destruct (Hin j) as (c & Hc & Hr); [lia|]. exists (Some c).
    split; [done|]. exists c. split; [done|lia]. }
  exists w', probs. split_and!; [done|done|lia|done].
Qed.

Lemma reported_probabilities_are_in_range_witness :
  exists w' probs,
    p_phys_sweep_simulation chao_protocol flag_draws [1 # 100; 1 # 10] 3
      (0, fresh_store chao_protocol 2) = Ok (tt, w')
    /\ logical_error_rate_reporting 3 (snd w') = inr probs
    /\ length probs = 2
    /\ Forall (fun q => (0 <= q <= 1)%Q) probs.
Proof.
  apply (reported_probabilities_are_in_range chao_protocol flag_draws
           [1 # 100; 1 # 10] 3 (0, fresh_store chao_protocol 2)).
  - unfold valid_config. simpl. lia.
  - apply (bool_decide_unpack _). vm_compute. exact Logic.I.
  - vm_compute. repeat constructor.
  - reflexivity.
  - reflexivity.
  - lia.
Defined.

(** X15: the report fails in two ways.  On an instance that has not run a
    sweep the counts are still [None] and the division is a TypeError,
    whatever samples_per_point is.  After a sweep with samples_per_point = 0
    over at least one rate, which runs no round and leaves every count at
    0, it is a ZeroDivisionError. *)
Theorem report_fails_without_sweep_or_samples
    (cfg : config) (draws : nat -> Q) (p_phys : list Q)
    (samples_per_point : Z) (n : nat) :
  valid_config cfg -> corrections_fit cfg ->
  Forall (fun op => length op = 2 * num_data_qubits cfg) (logical_ops cfg) ->
  p_phys <> [] ->
  logical_error_rate_reporting samples_per_point
    (fresh_store cfg (length p_phys)) = inl NoneType_operand
  /\ exists w',
       p_phys_sweep_simulation cfg draws p_phys 0
         (n, fresh_store cfg (length p_phys)) = Ok (tt, w')
       /\ logical_error_counts (snd w') = replicate (length p_phys) (Some 0%Z)
       /\ logical_error_rate_reporting 0 (snd w') = inl ZeroDivisionError.
Proof.
  intros Hcfg Hlut Hops Hne. split.
  - destruct p_phys; done.
  - assert (0 + length p_phys
            <= length (logical_error_counts
                         (snd (n, fresh_store cfg (length p_phys))))) as Hlen
      by (cbn; rewrite length_replicate; lia).
    pose proof (sweep_rates_returns cfg draws Hcfg Hlut Hops 0
                  p_phys 0 (n, fresh_store cfg (length p_phys)) eq_refl Hlen)
      as Hwp.
    unfold p_phys_sweep_simulation, wp in *.
    destruct (sweep_rates _ _ _ _ _ _) as [[[] w']|e]; [|done].
    destruct Hwp as (_ & Hl & _ & Hin).
    cbn in Hl. rewrite length_replicate in Hl.
    assert (logical_error_counts (snd w')
            = replicate (length p_phys) (Some 0%Z)) as Hcounts.
    { apply list_eq. intros j.
      destruct (decide (j < length p_phys)) as [Hj|Hj].
      - destruct (Hin j) as (c & Hc & Hr); [lia|].
        rewrite Hc, lookup_replicate_2 by done. do 2 f_equal. lia.
      - rewrite !lookup_ge_None_2; [done| |]; rewrite ?length_replicate; lia. }
    exists w'. split_and!; [done|done|].
    unfold logical_error_rate_reporting. rewrite Hcounts.
    apply logical_error_probs_zero_samples.
    + apply Forall_replicate. by eexists.
    + destruct p_phys; done.
Qed.

Lemma report_fails_without_sweep_or_samples_witness :
  logical_error_rate_reporting 1000 (fresh_store chao_protocol 2)
  = inl NoneType_operand
  /\ exists w',
       p_phys_sweep_simulation chao_protocol flag_draws [1 # 100; 1 # 10] 0
         (0, fresh_store chao_protocol 2) = Ok (tt, w')
       /\ logical_error_counts (snd w') = replicate 2 (Some 0%Z)
       /\ logical_error_rate_reporting 0 (snd w') = inl ZeroDivisionError.
Proof.
  apply (report_fails_without_sweep_or_samples chao_protocol flag_draws
           [1 # 100; 1 # 10] 1000 0).
  - unfold valid_config. simpl. lia.
  - apply (bool_decide_unpack _). vm_compute. exact Logic.I.
  - vm_compute. repeat constructor.
  - discriminate.
Defined.

(** * Totals of the distributed driver *)

Section Totals.

Context {rate : Type} (str : rate -> string).

Lemma aggregate_step_total cr r :
  str (p_phys r) <> "total_samples" ->
  aggregate_step str cr r !! "total_samples"
  = Some (default 0%Z (cr !! "total_samples") + result_batch_size r)%Z.
Proof.
  intros Hkey. unfold aggregate_step. rewrite lookup_insert_eq.
  destruct (cr !! str (p_phys r)); by rewrite lookup_insert_ne.
Qed.

Lemma aggregate_total l : forall cr v,
  Forall (fun r => str (p_phys r) <> "total_samples") l ->
  cr !! "total_samples" = Some v ->
  foldl (aggregate_step str) cr l !! "total_samples"
  = Some (v + Zsum (map result_batch_size l))%Z.
Proof.
  induction l as [|r l IH]; intros cr v Hl Hv; simpl.
  - rewrite Hv. f_equal. lia.
  - apply Forall_cons in Hl as [Hr Hl].
    pose proof (aggregate_step_total cr r Hr) as Hstep.
    rewrite Hv in Hstep. rewrite (IH _ _ Hl Hstep). f_equal. cbn. lia.
Qed.

Lemma batch_sizes_of_imap (f : nat -> rate -> @local_result rate) (b : Z)
    (rates : list rate) :
  (forall j p, result_batch_size (f j p) = b) ->
  Zsum (map result_batch_size (imap f rates))
  = (Z.of_nat (length rates) * b)%Z.
Proof.
  revert f. induction rates as [|p rates IH]; intros f Hf; [cbn; lia|].
  cbn [imap map Zsum foldr length].
  change (foldr Z.add 0%Z ?l) with (Zsum l).
  rewrite (IH (f ∘ S)) by (intros; apply Hf). rewrite Hf. lia.
Qed.

Lemma batch_sizes_of_worker spp W count k (rates : list rate) :
  Zsum (map result_batch_size (imap (local_result_dict spp W count k) rates))
  = (Z.of_nat (length rates) * batch_size spp W k)%Z.
Proof. by apply batch_sizes_of_imap. Qed.

Lemma batch_sizes_of_results spp W count (rates : list rate) ks :
  Zsum (map result_batch_size
          (flat_map (fun k => imap (local_result_dict spp W count k) rates) ks))
  = (Z.of_nat (length rates) * Zsum (map (batch_size spp W) ks))%Z.
Proof.
  induction ks as [|k ks IH]; [cbn; lia|].
  cbn [flat_map]. rewrite map_app, Zsum_app, IH, batch_sizes_of_worker.
  cbn [map Zsum foldr]. change (foldr Z.add 0%Z ?l) with (Zsum l). lia.
Qed.

Lemma results_rates spp W count (rates : list rate) (P : rate -> Prop) :
  Forall P rates ->
  Forall (fun r => P (p_phys r))
    (results_per_batch_per_p_phys spp W rates count).
Proof.
  intros Hr. unfold results_per_batch_per_p_phys.
  apply Forall_forall. intros r Hin.
  apply list_elem_of_In, in_flat_map in Hin as (k & _ & Hin).
  apply list_elem_of_In, elem_of_lookup_imap in Hin as (j & p & -> & Hj).
  cbn. eapply Forall_lookup_1; done.
Qed.

Lemma Zsum_between (f lo hi : nat -> Z) ks :
  (forall k, k ∈ ks -> (lo k <= f k <= hi k)%Z) ->
  (Zsum (map lo ks) <= Zsum (map f ks) <= Zsum (map hi ks))%Z.
Proof.
  induction ks as [|k ks IH]; intros H; [cbn; lia|].
  cbn [map Zsum foldr]. change (foldr Z.add 0%Z ?l) with (Zsum l).
  pose proof (H k ltac:(left)).
  pose proof (IH (fun k' Hk' => H k' ltac:(by right))). lia.
Qed.

End Totals.

(** X16: with W >= 1 workers and samples_per_point >= 0, and no rate that
    prints as the reserved key, the coordinator's "total_samples" is
    samples_per_point times the number of rates: every rate adds every
    worker's batch once. *)
Theorem total_samples_is_samples_times_rates
    {rate : Type} (str : rate -> string) (samples_per_point : Z)
    (num_cores : nat) (rates : list rate) (count : nat -> nat -> Z) :
  1 <= num_cores -> (0 <= samples_per_point)%Z ->
  Forall (fun p => str p <> "total_samples") rates ->
  complete_results str samples_per_point num_cores rates count
    !! "total_samples"
  = Some (samples_per_point * Z.of_nat (length rates))%Z.
Proof.
  intros HW HS Hkeys. unfold complete_results.
  rewrite (aggregate_total str _ _ 0%Z).
  - unfold results_per_batch_per_p_phys.
    rewrite batch_sizes_of_results, batch_size_sum by done. f_equal. lia.
  - by apply (results_rates _ _ _ _ (fun p => str p <> "total_samples")).
  - apply lookup_singleton_eq.
Qed.

Lemma total_samples_is_samples_times_rates_witness :
  complete_results (fun r : string => r) 10 3 ["0.001"; "0.002"]
    (fun k j => Z.of_nat (k + 10 * j)) !! "total_samples"
  = Some (10 * Z.of_nat 2)%Z.
Proof.
  apply (total_samples_is_samples_times_rates (fun r : string => r) 10 3
           ["0.001"; "0.002"] (fun k j => Z.of_nat (k + 10 * j))).
  - lia.
  - lia.
  - repeat constructor; discriminate.
Defined.

(** X17: when every worker reports, for the rate at index j, a count between
    0 and its batch size (which is what its sampling loop leaves), the count
    the coordinator stores under that rate lies between 0 and
    samples_per_point, for pairwise distinct rates. *)
Theorem aggregated_count_at_most_samples
    {rate : Type} (str : rate -> string) (samples_per_point : Z)
    (num_cores : nat) (rates : list rate) (count : nat -> nat -> Z)
    (j : nat) (p : rate) :
  1 <= num_cores -> (0 <= samples_per_point)%Z ->
  NoDup (map str rates) -> rates !! j = Some p -> str p <> "total_samples" ->
  (forall k, k < num_cores ->
     (0 <= count k j <= batch_size samples_per_point num_cores k)%Z) ->
  exists c,
    complete_results str samples_per_point num_cores rates count !! str p
    = Some c
    /\ (0 <= c <= samples_per_point)%Z.
Proof.
  intros HW HS Hnd Hj Hp Hcount.
  exists (Zsum (map (fun k => count k j) (seq 0 num_cores))). split.
  - unfold complete_results. rewrite aggregate_lookup_none.
    + rewrite matching_sum_results. do 2 f_equal.
      apply map_ext. intros k. by apply worker_total_nodup.
    + done.
    + by rewrite lookup_singleton_ne.
    + apply Exists_exists.
      exists (local_result_dict samples_per_point num_cores count 0 j p).
      split; [|done].
      apply list_elem_of_In. unfold results_per_batch_per_p_phys.
      apply in_flat_map. exists 0. split.
      * apply in_seq. lia.
      * apply list_elem_of_In, elem_of_lookup_imap. by exists j, p.
  - pose proof (Zsum_between (fun k => count k j) (fun _ => 0%Z)
                  (batch_size samples_per_point num_cores)
                  (seq 0 num_cores)) as Hb.
    rewrite batch_size_sum in Hb by done.
    assert (Zsum (map (fun _ : nat => 0%Z) (seq 0 num_cores)) = 0%Z) as Hz.
    { clear. induction (seq 0 num_cores) as [|k ks IH]; [done|].
      unfold Zsum in *. cbn [map foldr]. lia. }
    rewrite Hz in Hb. apply Hb. intros k Hk.
    apply list_elem_of_In, in_seq in Hk. apply Hcount. lia.
Qed.

Lemma aggregated_count_at_most_samples_witness :
  exists c,
    complete_results (fun r : string => r) 10 3 ["0.001"; "0.002"]
      (fun k j => Z.of_nat (j * (3 - k))) !! "0.002" = Some c
    /\ (0 <= c <= 10)%Z.
Proof.
  apply (aggregated_count_at_most_samples (fun r : string => r) 10 3
           ["0.001"; "0.002"] (fun k j => Z.of_nat (j * (3 - k))) 1 "0.002").
  - lia.
  - lia.
  - vm_compute. repeat constructor; set_solver.
  - reflexivity.
  - discriminate.
  - intros k Hk.
    destruct k as [|[|[|k]]]; [vm_compute; split; discriminate..|lia].
Defined.

(** * The lookup tables against the circuits *)

(** The table with possibly high-weight corrections. *)
Definition five_qubit_code_flag_high_wt_LUT : gmap string outer_value :=
  list_to_map [
    ("[[0 1] [None None] [None None] [None None]]",
     Inner (list_to_map [
       ("[0 1 0 0]", vec [0;0;0;1;0;0;0;1;0;0]);
       ("[1 1 0 0]", vec [0;1;0;1;0;0;0;1;0;0]);
       ("[1 0 0 1]", vec [0;1;0;1;0;0;1;1;0;0]);
       ("[0 0 0 1]", vec [0;0;0;1;0;0;1;1;0;0]);
       ("[0 1 1 0]", vec [0;0;0;1;0;0;0;0;0;0]);
       ("[1 0 1 0]", vec [0;0;1;1;0;0;0;0;0;0]);
       ("[1 0 0 0]", vec [0;0;1;1;0;0;0;1;0;0])]));
    ("[[1 1] [None None] [None None] [None None]]",
     Inner (list_to_map [
       ("[0 1 0 0]", vec [0;0;0;1;0;0;0;1;0;0]);
       ("[1 1 0 0]", vec [0;1;0;1;0;0;0;1;0;0]);
       ("[1 0 0 1]", vec [0;1;0;1;0;0;1;1;0;0]);
       ("[0 0 0 1]", vec [0;0;0;1;0;0;1;1;0;0]);
       ("[0 1 1 0]", vec [0;0;0;1;0;0;0;0;0;0]);
       ("[1 0 1 0]", vec [0;0;1;1;0;0;0;0;0;0]);
       ("[1 0 0 0]", vec [0;0;1;1;0;0;0;1;0;0])]));
    ("[[1 0] [None None] [None None] [None None]]",
     Inner five_qubit_code_no_flag_LUT);
    ("[[0 0] [0 1] [None None] [None None]]",
     Inner (list_to_map [
       ("[1 0 1 0]", vec [0;0;0;0;1;0;0;0;1;0]);
       ("[0 1 1 0]", vec [0;0;1;0;1;0;0;0;1;0]);
       ("[0 1 0 0]", vec [0;0;1;0;1;0;0;1;1;0]);
       ("[1 0 0 0]", vec [0;0;0;0;1;0;0;1;1;0]);
       ("[0 0 1 1]", vec [0;0;0;0;1;0;0;0;0;0]);
       ("[0 1 0 1]", vec [0;0;0;1;1;0;0;0;0;0]);
       ("[1 1 0 0]", vec [0;0;0;1;1;0;0;0;1;0])]));
    ("[[0 0] [1 1] [None None] [None None]]",
     Inner (list_to_map [
       ("[1 0 1 0]", vec [0;0;0;0;1;0;0;0;1;0]);
       ("[0 1 1 0]", vec [0;0;1;0;1;0;0;0;1;0]);
       ("[0 1 0 0]", vec [0;0;1;0;1;0;0;1;1;0]);
       ("[1 0 0 0]", vec [0;0;0;0;1;0;0;1;1;0]);
       ("[0 0 1 1]", vec [0;0;0;0;1;0;0;0;0;0]);
       ("[0 1 0 1]", vec [0;0;0;1;1;0;0;0;0;0]);
       ("[1 1 0 0]", vec [0;0;0;1;1;0;0;0;1;0])]));
    ("[[0 0] [1 0] [None None] [None None]]",
     Inner five_qubit_code_no_flag_LUT);
    ("[[0 0] [0 0] [0 1] [None None]]",
     Inner (list_to_map [
       ("[1 1 0 1]", vec [0;0;0;0;0;0;0;0;1;1]);
       ("[0 0 0 1]", vec [0;0;1;0;0;0;0;0;1;1]);
       ("[0 0 1 1]", vec [0;0;1;0;0;0;0;1;1;1]);
       ("[1 1 1 1]", vec [0;0;0;0;0;0;0;1;1;1]);
       ("[0 1 0 0]", vec [0;0;0;0;0;0;0;0;0;1]);
       ("[0 0 1 0]", vec [0;0;0;1;0;0;0;0;0;1]);
       ("[1 0 1 1]", vec [0;0;0;1;0;0;0;0;1;1])]));
    ("[[0 0] [0 0] [1 1] [None None]]",
     Inner (list_to_map [
       ("[1 1 0 1]", vec [0;0;0;0;0;0;0;0;1;1]);
       ("[0 0 0 1]", vec [0;0;1;0;0;0;0;0;1;1]);
       ("[0 0 1 1]", vec [0;0;1;0;0;0;0;1;1;1]);
       ("[1 1 1 1]", vec [0;0;0;0;0;0;0;1;1;1]);
       ("[0 1 0 0]", vec [0;0;0;0;0;0;0;0;0;1]);
       ("[0 0 1 0]", vec [0;0;0;1;0;0;0;0;0;1]);
       ("[1 0 1 1]", vec [0;0;0;1;0;0;0;0;1;1])]));
    ("[[0 0] [0 0] [1 0] [None None]]",
     Inner five_qubit_code_no_flag_LUT);
    ("[[0 0] [0 0] [0 0] [0 1]]",
     Inner (list_to_map [
       ("[0 0 1 0]", vec [0;0;0;1;0;0;0;0;0;1]);
       ("[1 0 1 0]", vec [0;1;0;1;0;0;0;0;0;1]);
       ("[1 1 1 1]", vec [0;1;0;1;0;0;0;0;0;1]);
       ("[0 1 1 1]", vec [0;0;0;1;0;0;1;0;0;1]);
       ("[0 1 0 0]", vec [0;0;0;0;0;0;0;0;0;1]);
       ("[1 0 1 1]", vec [0;0;0;1;0;0;0;0;0;1]);
       ("[1 1 0 1]", vec [0;0;0;0;0;0;0;0;1;1])]));
    ("[[0 0] [0 0] [0 0] [1 1]]",
     Inner (list_to_map [
       ("[0 0 1 0]", vec [0;0;0;1;0;0;0;0;0;1]);
       ("[1 0 1 0]", vec [0;1;0;1;0;0;0;0;0;1]);
       ("[1 1 1 1]", vec [0;1;0;1;0;0;0;0;0;1]);
       ("[0 1 1 1]", vec [0;0;0;1;0;0;1;0;0;1]);
       ("[0 1 0 0]", vec [0;0;0;0;0;0;0;0;0;1]);
       ("[1 0 1 1]", vec [0;0;0;1;0;0;0;0;0;1]);
       ("[1 1 0 1]", vec [0;0;0;0;0;0;0;0;1;1])]));
    ("[[0 0] [0 0] [0 0] [1 0]]",
     Inner five_qubit_code_no_flag_LUT)].

(** [five_qubit_code_flag_protocol(syndrome_lookup_table=
    five_qubit_code_flag_high_wt_LUT)] *)
Definition five_qubit_code_flag_protocol_high_wt (em : error_model_enum)
    : config :=
  qec_flag_stabilizer_base_init 5 1 1 five_qubit_code_flag_high_wt_LUT
    [[1; 1; 1; 1; 1; 0; 0; 0; 0; 0]; [0; 0; 0; 0; 0; 1; 1; 1; 1; 1]]%Z em.

(** The key that [measure_full_syndrome_without_flags] yields when the data
    qubits carry the Pauli string [c] and nothing else is wrong: the four
    syndrome bits, printed by [np.array2string]. *)
Definition syndrome_of_correction (cfg : config) (draws : nat -> Q) (p : Q)
    (n : nat) (c : list bool) : res string :=
  match measure_full_syndrome_without_flags cfg draws None p
          (n, set_syndrome_ex_status MEAS_GEN_WITHOUT_FLAG
                (set_pauli_accumulator (zero_extend cfg c) (fresh_store cfg 0)))
  with
  | Ok (_, w') => array2string (syndrome_2nd_subround (snd w'))
  | Raise e => Raise e
  end.

Lemma syndrome_of_correction_draws cfg draws p n c :
  nonneg_draws draws -> noiseless cfg p ->
  syndrome_of_correction cfg draws p n c
  = syndrome_of_correction cfg zero_draws 0 0 c.
Proof.
  intros Hd Hp.
  assert (nonneg_draws zero_draws) as Hz
    by (intros k; unfold zero_draws, Qle; simpl; lia).
  pose proof (rel_measure_full_syndrome_without_flags cfg draws zero_draws p 0
                Hd Hz Hp (noiseless_zero cfg) None n 0
                (set_syndrome_ex_status MEAS_GEN_WITHOUT_FLAG
                   (set_pauli_accumulator (zero_extend cfg c)
                      (fresh_store cfg 0)))) as Hrel.
  unfold syndrome_of_correction.
  destruct (measure_full_syndrome_without_flags cfg draws _ _ _)
    as [[[] w1]|e1],
    (measure_full_syndrome_without_flags cfg zero_draws _ _ _)
    as [[[] w2]|e2]; try done.
  - destruct Hrel as (_ & -> & _). done.
  - by subst.
Qed.

(** A flag raised while the fourth generator is measured. *)
Definition flag_in_4th_generator (k1 : string) : bool :=
  String.eqb k1 "[[0 0] [0 0] [0 0] [0 1]]"
  || String.eqb k1 "[[0 0] [0 0] [0 0] [1 1]]".

(** The syndrome of the vector stored under [k1] and [k2] in the
    minimal-weight table, and in the high-weight table. *)
Definition syndrome_in_min_wt_LUT (k1 k2 : string) : string :=
  if flag_in_4th_generator k1 && String.eqb k2 "[1 0 1 1]" then "[0 0 1 0]"
  else k2.

Definition syndrome_in_high_wt_LUT (k1 k2 : string) : string :=
  if flag_in_4th_generator k1 && String.eqb k2 "[1 0 1 1]" then "[0 0 1 0]"
  else if flag_in_4th_generator k1 && String.eqb k2 "[1 1 1 1]"
  then "[1 0 1 0]"
  else k2.

Definition has_syndrome (cfg : config) (c : list bool) (k : string) : bool :=
  match syndrome_of_correction cfg zero_draws 0 0 c with
  | Ok s => String.eqb s k
  | Raise _ => false
  end.

Definition inner_checked (cfg : config) (expected : string -> string)
    (t : gmap string (list bool)) : bool :=
  forallb (fun kc : string * list bool => has_syndrome cfg kc.2 (expected kc.1))
    (map_to_list t).

Definition table_checked (cfg : config) (expected : string -> string -> string)
    (lut : gmap string outer_value) : bool :=
  forallb (fun kv : string * outer_value =>
             match kv.2 with
             | Inner t => inner_checked cfg (expected kv.1) t
             | Terminal _ => true
             end)
    (map_to_list lut).

Lemma has_syndrome_ok cfg draws p n c k :
  nonneg_draws draws -> noiseless cfg p -> has_syndrome cfg c k = true ->
  syndrome_of_correction cfg draws p n c = Ok k.
Proof.
  intros Hd Hp Hc. rewrite syndrome_of_correction_draws by done.
  unfold has_syndrome in Hc.
  destruct (syndrome_of_correction cfg zero_draws 0 0 c) as [s|]; [|done].
  apply String.eqb_eq in Hc. by subst.
Qed.

Lemma inner_checked_lookup cfg expected t k2 c :
  inner_checked cfg expected t = true -> t !! k2 = Some c ->
  has_syndrome cfg c (expected k2) = true.
Proof.
  intros Ht Hc. unfold inner_checked in Ht.
  rewrite forallb_forall in Ht.
  apply (Ht (k2, c)). by apply list_elem_of_In, elem_of_map_to_list.
Qed.

Lemma table_checked_lookup cfg expected lut k1 t k2 c :
  table_checked cfg expected lut = true ->
  lut !! k1 = Some (Inner t) -> t !! k2 = Some c ->
  has_syndrome cfg c (expected k1 k2) = true.
Proof.
  intros Hl Ht Hc. unfold table_checked in Hl.
  rewrite forallb_forall in Hl.
  specialize (Hl (k1, Inner t)). cbn in Hl.
  eapply inner_checked_lookup; [|done].
  by apply Hl, list_elem_of_In, elem_of_map_to_list.
Qed.

Lemma min_wt_LUT_checked em :
  table_checked (five_qubit_code_flag_protocol em) syndrome_in_min_wt_LUT
    five_qubit_code_flag_min_wt_LUT = true.
Proof. destruct em; vm_compute; reflexivity. Qed.

Lemma high_wt_LUT_checked em :
  table_checked (five_qubit_code_flag_protocol_high_wt em)
    syndrome_in_high_wt_LUT five_qubit_code_flag_high_wt_LUT = true.
Proof. destruct em; vm_compute; reflexivity. Qed.

(** X18: the default table against the circuits.  Every correction of
    [five_qubit_code_flag_min_wt_LUT], whose inner tables include
    [five_qubit_code_no_flag_LUT], is stored under its own syndrome: with
    that Pauli string on the data qubits, a fault-free
    [measure_full_syndrome_without_flags] records exactly the inner key.
    The one exception is the correction stored under "[1 0 1 1]" in the two
    inner tables for a flag raised by the fourth generator: it is the vector
    stored under "[0 0 1 0]", and that is its syndrome. *)
Theorem min_wt_corrections_and_their_syndromes
    (em : error_model_enum) (draws : nat -> Q) (p : Q) (n : nat)
    (k1 k2 : string) (t : gmap string (list bool)) (c : list bool) :
  nonneg_draws draws -> noiseless (five_qubit_code_flag_protocol em) p ->
  five_qubit_code_flag_min_wt_LUT !! k1 = Some (Inner t) ->
  t !! k2 = Some c ->
  syndrome_of_correction (five_qubit_code_flag_protocol em) draws p n c
  = Ok (syndrome_in_min_wt_LUT k1 k2).
Proof.
  intros Hd Hp Ht Hc. apply has_syndrome_ok; [done..|].
  exact (table_checked_lookup _ _ _ _ _ _ _ (min_wt_LUT_checked em) Ht Hc).
Qed.

(** The inner table for a flag raised by the fourth generator with all
    earlier outcomes 0. *)
Definition min_wt_flag_4th : gmap string (list bool) :=
  match five_qubit_code_flag_min_wt_LUT !! "[[0 0] [0 0] [0 0] [0 1]]" with
  | Some (Inner t) => t
  | _ => ∅
  end.

Lemma min_wt_corrections_and_their_syndromes_witness :
  syndrome_of_correction chao_protocol half_draws 0 0
    (vec [0;0;0;1;0;0;0;0;0;1])
  = Ok (syndrome_in_min_wt_LUT "[[0 0] [0 0] [0 0] [0 1]]" "[1 0 1 1]").
Proof.
  apply (min_wt_corrections_and_their_syndromes
           CHAO_CKT_LVL_NOISE_WITHOUT_IDLING half_draws 0 0
           "[[0 0] [0 0] [0 0] [0 1]]" "[1 0 1 1]" min_wt_flag_4th
           (vec [0;0;0;1;0;0;0;0;0;1])).
  - intros k. unfold half_draws, Qle. simpl. lia.
  - apply noiseless_zero.
  - vm_compute. reflexivity.
  - vm_compute. reflexivity.
Defined.

(** X19: the high-weight table against the circuits.  Every correction of
    [five_qubit_code_flag_high_wt_LUT] is stored under its own syndrome,
    except, in the two inner tables for a flag raised by the fourth
    generator, the ones stored under "[1 0 1 1]" and "[1 1 1 1]": they are
    the vectors stored under "[0 0 1 0]" and "[1 0 1 0]", and those are
    their syndromes. *)
Theorem high_wt_corrections_and_their_syndromes
    (em : error_model_enum) (draws : nat -> Q) (p : Q) (n : nat)
    (k1 k2 : string) (t : gmap string (list bool)) (c : list bool) :
  nonneg_draws draws ->
  noiseless (five_qubit_code_flag_protocol_high_wt em) p ->
  five_qubit_code_flag_high_wt_LUT !! k1 = Some (Inner t) ->
  t !! k2 = Some c ->
  syndrome_of_correction (five_qubit_code_flag_protocol_high_wt em) draws p n c
  = Ok (syndrome_in_high_wt_LUT k1 k2).
Proof.
  intros Hd Hp Ht Hc. apply has_syndrome_ok; [done..|].
  exact (table_checked_lookup _ _ _ _ _ _ _ (high_wt_LUT_checked em) Ht Hc).
Qed.

Definition high_wt_flag_4th : gmap string (list bool) :=
  match five_qubit_code_flag_high_wt_LUT !! "[[0 0] [0 0] [0 0] [1 1]]" with
  | Some (Inner t) => t
  | _ => ∅
  end.

Lemma high_wt_corrections_and_their_syndromes_witness :
  syndrome_of_correction
    (five_qubit_code_flag_protocol_high_wt CODE_CAPACITY_NOISE) half_draws 0 0
    (vec [0;1;0;1;0;0;0;0;0;1])
  = Ok (syndrome_in_high_wt_LUT "[[0 0] [0 0] [0 0] [1 1]]" "[1 1 1 1]").
Proof.
  apply (high_wt_corrections_and_their_syndromes CODE_CAPACITY_NOISE
           half_draws 0 0 "[[0 0] [0 0] [0 0] [1 1]]" "[1 1 1 1]"
           high_wt_flag_4th (vec [0;1;0;1;0;0;0;0;0;1])).
  - intros k. unfold half_draws, Qle. simpl. lia.
  - apply noiseless_zero.
  - vm_compute. reflexivity.
  - vm_compute. reflexivity.
Defined.
